(** * project-tasks: task and variable resolution, substitution, execution

    A shallow embedding of [src/project_tasks/pyproject.py],
    [src/project_tasks/service.py] and the argument loop of
    [src/project_tasks/cli.py].

    Modelling conventions.
    - The parsers work on the document that the TOML reader returns, a
      [raw] value; the TOML reader itself is not modelled.  [parse_args]
      works on what [argparse] returns, the namespace and the remaining
      arguments; [argparse] itself is not modelled.
    - A Python [str] is a [string], its characters taken in [ascii];
      [len] is [String.length].
    - A Python [dict] that is only looked up ([graph], [Config.tasks],
      [Config.variables], the overrides, [os.environ]) is a [gmap string _].
    - A Python exception is a value of [exn]; a function that may raise
      returns an [outcome].
    - [_resolve_task] recurses through the graph, so its embedding takes a
      recursion budget; [_resolve_task_total] shows that the budget used by
      [_resolve_task] is never exhausted, and [_resolve_task_unfold] gives
      its body back.  The interpreter's own recursion limit is not modelled.
    - What a getter reads ([os.environ], files) is a [World]; a command
      run by the executor may change it. *)

From Stdlib Require Import Ascii String ZArith DecimalString.
From stdpp Require Import base option list gmap strings.

Local Open Scope stdpp_scope.

(** ** Exceptions *)

(** The exceptions the modelled code raises.  [IndexError] is what
    [parents[-1]] raises on an empty tuple, [KeyError] what a failed
    dict subscript raises, [FileNotFoundError] and [IsADirectoryError]
    what [Path.read_text] raises on a missing path and on a directory. *)
Inductive exn : Type :=
  | CircularDependencyError (task_a task_b : string)
  | UnknownTaskReferenceError (task_name parent : string)
  | InvalidTaskError (task_name msg : string)
  | ValueError (msg : string)
  | KeyError (key : string)
  | IndexError
  | FileNotFoundError (path : string)
  | IsADirectoryError (path : string).

(** [exc.msg] of the [InvalidTaskDefinitionError] subclasses. *)
Definition exn_msg (e : exn) : option string :=
  match e with
  | CircularDependencyError task_a task_b =>
      Some ("task '" +:+ task_a +:+ "' and '" +:+ task_b
            +:+ "' introduce a circular dependency.")
  | UnknownTaskReferenceError task_name parent =>
      Some ("task '" +:+ task_name +:+ "' does not exist (used by '"
            +:+ parent +:+ "').")
  | _ => None
  end.

Inductive outcome (A : Type) : Type :=
  | Return (a : A)
  | Raise (e : exn).
Arguments Return {A} a.
Arguments Raise {A} e.

#[global] Instance outcome_ret : MRet outcome := @Return.
#[global] Instance outcome_bind : MBind outcome := fun A B k m =>
  match m with
  | Return a => k a
  | Raise e => Raise e
  end.

(** ** Data model *)

(** A step of a [_TaskDefinition]: [_TaskCommand] or [_TaskReference]. *)
Inductive _TaskStep : Type :=
  | _TaskCommand (steps : list string)
  | _TaskReference (name : string).

Record _TaskDefinition : Type := mk_TaskDefinition
  { definition_steps : list _TaskStep }.

Record Task : Type := mkTask { steps : list string }.

(** ** Task graph resolver *)

(** The [for item in definition.steps] loop of [_resolve_task];
    [rec name] is the recursive call on a reference, [resolved] the
    accumulator.  [None] means the recursion budget ran out. *)
Fixpoint resolve_steps (rec : string → option (outcome Task))
    (items : list _TaskStep) (resolved : list string)
    : option (outcome Task) :=
  match items with
  | [] => Some (Return (mkTask resolved))
  | _TaskReference name :: rest =>
      match rec name with
      | None => None
      | Some (Raise e) => Some (Raise e)
      | Some (Return resolved_dependency) =>
          resolve_steps rec rest (resolved ++ steps resolved_dependency)
      end
  | _TaskCommand cmd_steps :: rest =>
      resolve_steps rec rest (resolved ++ cmd_steps)
  end.

(** [parents[-1]]. *)
Definition last_parent (parents : list string) : outcome string :=
  match last parents with
  | Some p => Return p
  | None => Raise IndexError
  end.

(** The body of [_resolve_task], with [fuel] bounding the depth of the
    nested calls. *)
Fixpoint resolve_task_fuel (fuel : nat) (graph : gmap string _TaskDefinition)
    (task_name : string) (parents : option (list string))
    : option (outcome Task) :=
  match fuel with
  | O => None
  | S fuel' =>
      (* parents = parents or tuple() *)
      let parents := default [] parents in
      if bool_decide (task_name ∈ parents) then
        Some (p ← last_parent parents;
              Raise (CircularDependencyError p task_name))
      else
        match graph !! task_name with
        | None =>
            Some (p ← last_parent parents;
                  Raise (UnknownTaskReferenceError task_name p))
        | Some definition =>
            let parents := parents ++ [task_name] in
            resolve_steps
              (fun name => resolve_task_fuel fuel' graph name (Some parents))
              (definition_steps definition) []
        end
  end.

(** [_resolve_task(graph, task_name, parents)].  Every nested call adds
    to [parents] a key of [graph] that was not in it, so the nesting
    depth is at most [size graph + 1]. *)
Definition _resolve_task (graph : gmap string _TaskDefinition)
    (task_name : string) (parents : option (list string))
    : option (outcome Task) :=
  resolve_task_fuel (S (size graph)) graph task_name parents.

(** The [for task_name in graph] loop of [_resolve_all_tasks]; [names]
    are the keys still to visit, [tasks] the dict filled so far. *)
Fixpoint resolve_all_tasks_loop (graph : gmap string _TaskDefinition)
    (names : list string) (tasks : gmap string Task)
    : option (outcome (gmap string Task)) :=
  match names with
  | [] => Some (Return tasks)
  | task_name :: rest =>
      match _resolve_task graph task_name None with
      | None => None
      | Some (Return t) =>
          resolve_all_tasks_loop graph rest (<[task_name := t]> tasks)
      | Some (Raise e) =>
          match exn_msg e with
          | Some msg => Some (Raise (InvalidTaskError task_name msg))
          | None => Some (Raise e)
          end
      end
  end.

(** [_resolve_all_tasks(graph)].  The dict is given by its items in
    insertion order, which is the order the loop visits them in. *)
Definition _resolve_all_tasks (items : list (string * _TaskDefinition))
    : option (outcome (gmap string Task)) :=
  resolve_all_tasks_loop (list_to_map items) items.*1 ∅.

(** ** Strings *)

(** [s * n] for a string [s] and a count [n]. *)
Fixpoint str_mul (s : string) (n : nat) : string :=
  match n with
  | O => ""
  | S n' => s +:+ str_mul s n'
  end.

Fixpoint str_forall (p : ascii → bool) (s : string) : bool :=
  match s with
  | EmptyString => true
  | String c s' => p c && str_forall p s'
  end.

(** [s.startswith(p)], returning what follows the prefix. *)
Fixpoint strip_prefix (p s : string) : option string :=
  match p, s with
  | EmptyString, _ => Some s
  | String a p', String b s' =>
      if Ascii.eqb a b then strip_prefix p' s' else None
  | String _ _, EmptyString => None
  end.

(** The loop of [str.replace(old, new)] for a non-empty [old]: scan from
    the left, replace each occurrence and resume after it.  [skip] counts
    the characters of the last occurrence that are still to be passed. *)
Fixpoint replace_from (old new : string) (skip : nat) (s : string) : string :=
  match s with
  | EmptyString => ""
  | String c s' =>
      match skip with
      | S k => replace_from old new k s'
      | O =>
          if String.prefix old s
          then new +:+ replace_from old new (String.length old - 1) s'
          else String c (replace_from old new 0 s')
      end
  end.

(** [s.replace(old, new)] for an empty [old]: [new] goes before every
    character and at the end. *)
Fixpoint interleave (new s : string) : string :=
  match s with
  | EmptyString => new
  | String c s' => new +:+ String c (interleave new s')
  end.

(** [s.replace(old, new)]. *)
Definition str_replace (s old new : string) : string :=
  match old with
  | EmptyString => interleave new s
  | String _ _ => replace_from old new 0 s
  end.

(** The character class [[a-zA-Z0-9-_]] of [VARIABLE_PATTERN]. *)
Definition is_name_char (c : ascii) : bool :=
  let n := nat_of_ascii c in
  ((97 <=? n) && (n <=? 122) || (65 <=? n) && (n <=? 90)
   || (48 <=? n) && (n <=? 57) || (n =? 45) || (n =? 95))%nat.

(** The longest run of name characters at the head of [s], and the rest. *)
Fixpoint span_name (s : string) : string * string :=
  match s with
  | EmptyString => ("", "")
  | String c s' =>
      if is_name_char c
      then let '(name, rest) := span_name s' in (String c name, rest)
      else ("", s)
  end.

(** A match of [VARIABLE_PATTERN] at the head of [s]: the literal text
    dollar, brace, [var.], then the group (any number of name characters),
    then a closing brace.  Returns the group and what follows the match.
    The group is greedy and the closing brace is outside the class, so the
    only candidate is the longest run of name characters. *)
Definition match_variable (s : string) : option (string * string) :=
  match strip_prefix "${var." s with
  | None => None
  | Some s1 =>
      let '(name, s2) := span_name s1 in
      match s2 with
      | String "}" rest => Some (name, rest)
      | _ => None
      end
  end.

(** The scan of [VARIABLE_PATTERN.findall(step)]: leftmost matches, not
    overlapping; [skip] counts the characters of the last match that are
    still to be passed. *)
Fixpoint findall_from (skip : nat) (s : string) : list string :=
  match s with
  | EmptyString => []
  | String _ s' =>
      match skip with
      | S k => findall_from k s'
      | O =>
          match match_variable s with
          | Some (name, _) => name :: findall_from (6 + String.length name) s'
          | None => findall_from 0 s'
          end
      end
  end.

Definition findall (step : string) : list string := findall_from 0 step.

(** ** Variables *)

(** What a path names on disk. *)
Inductive fs_node : Type :=
  | RegularFile (content : string)
  | Directory.

(** What the getters read: [os.environ] and the file system. *)
Record World : Type := mkWorld
  { environ : gmap string string;
    filesystem : gmap string fs_node }.

(** [file.exists()]. *)
Definition path_exists (w : World) (file : string) : bool :=
  bool_decide (is_Some (filesystem w !! file)).

(** [file.read_text()]. *)
Definition read_text (w : World) (file : string) : outcome string :=
  match filesystem w !! file with
  | Some (RegularFile content) => Return content
  | Some Directory => Raise (IsADirectoryError file)
  | None => Raise (FileNotFoundError file)
  end.

Record _VariableDefinition : Type := mk_VariableDefinition
  { var_default : option string;
    var_env : option string;
    var_file : option string;
    var_secret : bool }.

(** The dataclass [Variable] ([Variable] alone is a reserved word here). *)
Record Variable_ : Type := mkVariable
  { getter : World → option string → outcome string;
    secret : bool }.

(** [getter_factory(name, env, file, default)] of
    [_resolve_all_variables]: the closure [getter(override)]. *)
Definition getter_factory (name : string) (env file default : option string)
    : World → option string → outcome string :=
  fun w override =>
    let from_default :=
      match default with
      | Some d => Return d
      | None => Raise (ValueError ("variable '" +:+ name
                                   +:+ "': value is not defined."))
      end in
    let from_file :=
      match file with
      | Some f => if path_exists w f then read_text w f else from_default
      | None => from_default
      end in
    let from_env :=
      match env with
      | Some e =>
          match environ w !! e with
          | Some v => Return v
          | None => from_file
          end
      | None => from_file
      end in
    match override with
    | Some o => Return o
    | None => from_env
    end.

Definition _resolve_all_variables
    (variables : gmap string _VariableDefinition) : gmap string Variable_ :=
  map_imap (fun name definition =>
    Some (mkVariable
            (getter_factory name (var_env definition) (var_file definition)
                            (var_default definition))
            (var_secret definition))) variables.

(** [Variable.get(self, override, dry_run)]. *)
Definition Variable_get (w : World) (self : Variable_)
    (override : option string) (dry_run : bool) : outcome string :=
  value ← getter self w override;
  if dry_run && secret self
  then Return (str_mul "*" (String.length value))
  else Return value.

(** ** Config *)

Record Config : Type := mkConfig
  { tasks : gmap string Task;
    variables : gmap string Variable_ }.

(** [d[k]]. *)
Definition getitem {V : Type} (d : gmap string V) (k : string) : outcome V :=
  match d !! k with
  | Some v => Return v
  | None => Raise (KeyError k)
  end.

(** [f"${{var.{variable_name}}}"]. *)
Definition placeholder (variable_name : string) : string :=
  "${var." +:+ variable_name +:+ "}".

(** The [for variable_name in to_replace] loop of [Config.get_task];
    [value] is the lookup of one variable's value. *)
Fixpoint replace_variables (value : string → outcome string)
    (to_replace : list string) (step : string) : outcome string :=
  match to_replace with
  | [] => Return step
  | variable_name :: rest =>
      variable_value ← value variable_name;
      replace_variables value rest
        (str_replace step (placeholder variable_name) variable_value)
  end.

(** The [for step in task.steps] loop of [Config.get_task]. *)
Fixpoint get_task_loop (value : string → outcome string)
    (task_steps resolved_steps : list string) : outcome Task :=
  match task_steps with
  | [] => Return (mkTask resolved_steps)
  | step :: rest =>
      step' ← replace_variables value (findall step) step;
      get_task_loop value rest (resolved_steps ++ [step'])
  end.

(** [self.variables[variable_name].get(override_variables.get(variable_name, None))]. *)
Definition variable_value (w : World) (self : Config)
    (override_variables : gmap string string) (variable_name : string)
    : outcome string :=
  variable ← getitem (variables self) variable_name;
  Variable_get w variable (override_variables !! variable_name) false.

(** [Config.get_task(self, task_name, override_variables)]. *)
Definition Config_get_task (w : World) (self : Config) (task_name : string)
    (override_variables : gmap string string) : outcome Task :=
  task ← getitem (tasks self) task_name;
  get_task_loop (variable_value w self override_variables) (steps task) [].

(** ** Execution service *)

Record Request : Type := mkRequest
  { request_tasks : list string;
    request_variables : gmap string string;
    request_dry_run : bool }.

(** The abstract class [Executor]: [run(cmd)] returns an exit code.  A
    command runs in the executor's own state [E]; it may also change the
    environment and the files that the variable getters read later. *)
Class Executor (E : Type) : Type :=
  run : E → World → string → Z * (E * World).

(** What [Service.execute] does to its collaborators, in order:
    [output.write], [output.write_error] and [executor.run] with the
    exit code it returned. *)
Inductive event : Type :=
  | Write (content : string)
  | WriteError (content : string)
  | Run (cmd : string) (return_code : Z).

Record State (E : Type) : Type := mkState
  { executor : E;
    world : World;
    events : list event }.
Arguments mkState {E} _ _ _.
Arguments executor {E} _.
Arguments world {E} _.
Arguments events {E} _.

Definition emit {E : Type} (ev : event) (st : State E) : State E :=
  mkState (executor st) (world st) (events st ++ [ev]).

(** [str(n)] for an int: its decimal digits, with a sign when negative. *)
Definition str_of_int (n : Z) : string := NilZero.string_of_int (Z.to_int n).

(** [sep.join(l)]. *)
Fixpoint str_join (sep : string) (l : list string) : string :=
  match l with
  | [] => ""
  | [x] => x
  | x :: rest => x +:+ sep +:+ str_join sep rest
  end.

Section Service.
Context {E : Type} `{!Executor E}.

(** The builtin [repr] on a [str] (quoting and escaping), which is not
    part of the program. *)
Variable repr : string → string.

(** [str(l)] for a list of strings, as an f-string formats it. *)
Definition list_repr (l : list string) : string :=
  "[" +:+ str_join ", " (repr <$> l) +:+ "]".

Definition failed_message (task_name : string) (return_code : Z) : string :=
  "task: error: task " +:+ task_name +:+ " failed with exit code "
  +:+ str_of_int return_code.

(** The [for command in task.steps] loop of [Service.execute].  The
    result is [Some code] when the loop left the function by
    [return code], [None] when it ran to its end. *)
Fixpoint run_commands (task_name : string) (dry_run : bool)
    (commands : list string) (st : State E) : option Z * State E :=
  match commands with
  | [] => (None, st)
  | command :: rest =>
      if dry_run then
        run_commands task_name dry_run rest (emit (Write command) st)
      else
        let '(return_code, (e', w')) :=
          run (executor st) (world st) command in
        let st' := mkState e' w' (events st ++ [Run command return_code]) in
        if bool_decide (return_code ≠ 0%Z) then
          (Some return_code,
           emit (WriteError (failed_message task_name return_code)) st')
        else run_commands task_name dry_run rest st'
  end.

(** The [for task_name in request.tasks] loop of [Service.execute],
    and the [return 0] after it. *)
Fixpoint run_tasks (config : Config) (request : Request)
    (task_names : list string) (st : State E) : outcome Z * State E :=
  match task_names with
  | [] => (Return 0%Z, st)
  | task_name :: rest =>
      match Config_get_task (world st) config task_name
              (request_variables request) with
      | Raise e => (Raise e, st)
      | Return task =>
          match run_commands task_name (request_dry_run request)
                  (steps task) st with
          | (Some return_code, st') => (Return return_code, st')
          | (None, st') => run_tasks config request rest st'
          end
      end
  end.

(** [task_name for task_name in request.tasks if task_name not in self.config.tasks]. *)
Definition unknown_tasks (config : Config) (request : Request) : list string :=
  filter (fun task_name => tasks config !! task_name = None)
         (request_tasks request).

Definition unknown_message (unknown : list string) : string :=
  match unknown with
  | [] => ""
  | first :: _ =>
      if bool_decide (1 < length unknown)
      then "task: error: tasks do not exist: " +:+ list_repr unknown
      else "task: error: task do not exist: '" +:+ first +:+ "'"
  end.

(** [Service.execute(self, request)]. *)
Definition Service_execute (config : Config) (request : Request)
    (st : State E) : outcome Z * State E :=
  match unknown_tasks config request with
  | [] => run_tasks config request (request_tasks request) st
  | unknown => (Return 1%Z, emit (WriteError (unknown_message unknown)) st)
  end.
End Service.

(** The stub executor of the service tests ([ErrorStubExecutor]): it
    records the commands it is given and fails every call after the
    first [fail_after] ones.  It leaves the environment and files alone. *)
Record ErrorStubExecutor : Type := mkErrorStub
  { called_with : list string;
    fail_after : nat }.

#[global] Instance ErrorStubExecutor_run : Executor ErrorStubExecutor :=
  fun self w cmd =>
    let called := called_with self ++ [cmd] in
    let self' := mkErrorStub called (fail_after self) in
    if bool_decide (length called ≤ fail_after self)
    then (0%Z, (self', w))
    else (1%Z, (self', w)).

(** [repr] on a string with no quote, backslash or unprintable character. *)
Definition plain_repr (s : string) : string := "'" +:+ s +:+ "'".

(** ** Notions used to state the properties *)

(** [x] occurs in [s]. *)
Definition occurs_in (x s : string) : Prop :=
  ∃ before after, s = before +:+ x +:+ after.

(** What a step of a definition contributes to the resolved task: a
    command its own strings, a reference the resolved task of that name. *)
Definition expand (graph : gmap string _TaskDefinition) (item : _TaskStep)
    : list string :=
  match item with
  | _TaskCommand cmd_steps => cmd_steps
  | _TaskReference name =>
      match _resolve_task graph name None with
      | Some (Return t) => steps t
      | _ => []
      end
  end.

(** A step that the loop of [_resolve_task] gets past, under the
    ancestors [parents]. *)
Definition resolves (graph : gmap string _TaskDefinition)
    (parents : list string) (item : _TaskStep) : Prop :=
  match item with
  | _TaskCommand _ => True
  | _TaskReference name =>
      ∃ t, _resolve_task graph name (Some parents) = Some (Return t)
  end.

(** [descends graph name parents name' parents']: the call of
    [_resolve_task] on [name] under [parents] reaches a nested call on
    [name'] under [parents'], every step before the reference followed at
    each level having resolved. *)
Inductive descends (graph : gmap string _TaskDefinition)
    : string → list string → string → list string → Prop :=
  | descends_here name parents : descends graph name parents name parents
  | descends_step name parents definition before next after name' parents' :
      name ∉ parents →
      graph !! name = Some definition →
      definition_steps definition = before ++ _TaskReference next :: after →
      Forall (resolves graph (parents ++ [name])) before →
      descends graph next (parents ++ [name]) name' parents' →
      descends graph name parents name' parents'.

(** The text of a step cut into literal text and placeholders. *)
Inductive token : Type :=
  | Lit (text : string)
  | Var (name : string).

(** The step a list of tokens stands for. *)
Fixpoint render (toks : list token) : string :=
  match toks with
  | [] => ""
  | Lit text :: rest => text +:+ render rest
  | Var name :: rest => placeholder name +:+ render rest
  end.

(** The step with every placeholder replaced by the value of its name. *)
Fixpoint fill (val : string → string) (toks : list token) : string :=
  match toks with
  | [] => ""
  | Lit text :: rest => text +:+ fill val rest
  | Var name :: rest => val name +:+ fill val rest
  end.

Fixpoint token_names (toks : list token) : list string :=
  match toks with
  | [] => []
  | Lit _ :: rest => token_names rest
  | Var name :: rest => name :: token_names rest
  end.

Definition dollar_free (s : string) : bool :=
  str_forall (fun c => negb (Ascii.eqb c "$")) s.

(** Literal text holds no dollar sign, so a dollar sign in the step
    always starts a placeholder; names are made of name characters. *)
Definition token_ok (t : token) : bool :=
  match t with
  | Lit text => dollar_free text
  | Var name => str_forall is_name_char name
  end.

(** The variable was built by [_resolve_all_variables]. *)
Definition from_definition (v : Variable_) : Prop :=
  ∃ name env file default, getter v = getter_factory name env file default.

(** The config with every secret flag cleared. *)
Definition clear_secrets (config : Config) : Config :=
  mkConfig (tasks config)
           ((fun v => mkVariable (getter v) false) <$> variables config).

(** The keys of the graph that are not yet on the ancestor path: what
    every nested call of [_resolve_task] makes smaller. *)
Definition unvisited (graph : gmap string _TaskDefinition)
    (parents : list string) : nat :=
  size (dom graph ∖ list_to_set parents : gset string).

(** The string [s] is one of the strings of a command of the graph. *)
Definition from_command (graph : gmap string _TaskDefinition) (s : string)
    : Prop :=
  ∃ name definition cmd_steps,
    graph !! name = Some definition
    ∧ _TaskCommand cmd_steps ∈ definition_steps definition
    ∧ s ∈ cmd_steps.

(** What the loop of [_resolve_task] appends for one step, given the
    recursive call [rec]. *)
Definition step_result (rec : string → option (outcome Task))
    (item : _TaskStep) : list string :=
  match item with
  | _TaskCommand cmd_steps => cmd_steps
  | _TaskReference name =>
      match rec name with
      | Some (Return t) => steps t
      | _ => []
      end
  end.

(** The graphs of the examples. *)
Definition graph_interleaved : gmap string _TaskDefinition :=
  list_to_map
    [("T", mk_TaskDefinition
             [_TaskReference "A"; _TaskCommand ["cmd1"]; _TaskReference "B"]);
     ("A", mk_TaskDefinition [_TaskCommand ["a1"; "a2"]]);
     ("B", mk_TaskDefinition [_TaskReference "A"; _TaskCommand ["b1"]])].

Definition graph_cycle : gmap string _TaskDefinition :=
  list_to_map
    [("A", mk_TaskDefinition [_TaskReference "B"; _TaskCommand ["unused"]]);
     ("B", mk_TaskDefinition [_TaskReference "A"; _TaskCommand ["unused"]])].

Definition graph_two_missing : gmap string _TaskDefinition :=
  list_to_map
    [("test", mk_TaskDefinition
                [_TaskReference "unknown"; _TaskReference "missing"])].

(** The environment variable of a definition is not set, or not named. *)
Definition env_unavailable (w : World) (d : _VariableDefinition) : Prop :=
  ∀ e, var_env d = Some e → environ w !! e = None.

(** The file of a definition does not exist, or is not named. *)
Definition file_unavailable (w : World) (d : _VariableDefinition) : Prop :=
  ∀ f, var_file d = Some f → filesystem w !! f = None.

(** The variables and worlds of the examples. *)
Definition variables_layered : gmap string _VariableDefinition :=
  {[ "foo" := mk_VariableDefinition (Some "d") (Some "E") (Some "F") false ]}.

Definition world_with_file : World :=
  mkWorld ∅ {[ "F" := RegularFile "f" ]}.

Definition variables_secret : gmap string _VariableDefinition :=
  {[ "foo" := mk_VariableDefinition (Some "bar") None None true ]}.

Definition variable_secret_foo : Variable_ :=
  mkVariable (getter_factory "foo" None None (Some "bar")) true.

Definition world_empty : World := mkWorld ∅ ∅.

(** An event of a run that goes on: a printed command under dry-run, a
    command that exited with code 0 otherwise. *)
Definition quiet (dry_run : bool) (ev : event) : Prop :=
  if dry_run then ∃ command, ev = Write command
  else ∃ command, ev = Run command 0%Z.

(** The event of a command that ran and exited with code 0. *)
Definition succeeded (command : string) : event := Run command 0%Z.

(** The config, request and executor of the service tests. *)
Definition config_two_tasks : Config :=
  mkConfig {[ "test-1" := mkTask ["do test-1"];
              "test-2" := mkTask ["do test-2"] ]} ∅.

Definition stub_state (fail_after : nat) : State ErrorStubExecutor :=
  mkState (mkErrorStub [] fail_after) world_empty [].

(** The tokens after [step.replace] of the placeholder of [name] by
    [value]: the placeholders of that name have become literal text. *)
Fixpoint fill_one (name value : string) (toks : list token) : list token :=
  match toks with
  | [] => []
  | Lit text :: rest => Lit text :: fill_one name value rest
  | Var m :: rest =>
      (if decide (m = name) then Lit value else Var m)
      :: fill_one name value rest
  end.

(** The commands a dry run prints for the requested [names]. *)
Definition resolved_commands (w : World) (config : Config)
    (override_variables : gmap string string) (names : list string)
    : list string :=
  concat ((fun name =>
             match Config_get_task w config name override_variables with
             | Return task => steps task
             | Raise _ => []
             end) <$> names).

(** A variable whose value holds a placeholder, and a step that uses it. *)
Definition config_nested : Config :=
  mkConfig
    {[ "t" := mkTask ["${var.a} ${var.b}"] ]}
    (_resolve_all_variables
       {[ "a" := mk_VariableDefinition (Some "${var.b}") None None false;
          "b" := mk_VariableDefinition (Some "B") None None false ]}).

(** A step where the value of a variable lands next to text that, with
    it, reads as another placeholder. *)
Definition config_joined : Config :=
  mkConfig
    {[ "t" := mkTask ["${var.${var.a}} ${var.b}"] ]}
    (_resolve_all_variables
       {[ "a" := mk_VariableDefinition (Some "b") None None false;
          "b" := mk_VariableDefinition (Some "B") None None false ]}).

(** Two variables, one of them secret, and a step that uses both, one
    of them twice. *)
Definition config_echo : Config :=
  mkConfig
    {[ "test" := mkTask ["echo '${var.foo}' ${var.token} ${var.foo}"] ]}
    (_resolve_all_variables
       {[ "foo" := mk_VariableDefinition (Some "default value") None None false;
          "token" := mk_VariableDefinition (Some "hunter2") None None true ]}).

Definition tokens_echo : list token :=
  [Lit "echo '"; Var "foo"; Lit "' "; Var "token"; Lit " "; Var "foo"].

Definition values_echo (name : string) : string :=
  if decide (name = "foo") then "other value" else "hunter2".

(** The two exceptions that [_resolve_task] raises on purpose. *)
Definition reference_error (e : exn) : Prop :=
  match e with
  | CircularDependencyError _ _ | UnknownTaskReferenceError _ _ => True
  | _ => False
  end.

(** A diamond: [D] depends on [B] and [C], which both depend on [A]. *)
Definition graph_diamond : gmap string _TaskDefinition :=
  list_to_map
    [("A", mk_TaskDefinition [_TaskCommand ["a1"; "a2"]]);
     ("B", mk_TaskDefinition [_TaskReference "A"; _TaskCommand ["b"]]);
     ("C", mk_TaskDefinition [_TaskReference "A"; _TaskCommand ["c"]]);
     ("D", mk_TaskDefinition [_TaskReference "B"; _TaskReference "C"])].

Definition tasks_diamond : gmap string Task :=
  list_to_map
    [("A", mkTask ["a1"; "a2"]);
     ("B", mkTask ["a1"; "a2"; "b"]);
     ("C", mkTask ["a1"; "a2"; "c"]);
     ("D", mkTask ["a1"; "a2"; "b"; "a1"; "a2"; "c"])].

Definition items_diamond : list (string * _TaskDefinition) :=
  [("A", mk_TaskDefinition [_TaskCommand ["a1"; "a2"]]);
   ("B", mk_TaskDefinition [_TaskReference "A"; _TaskCommand ["b"]]);
   ("C", mk_TaskDefinition [_TaskReference "A"; _TaskCommand ["c"]]);
   ("D", mk_TaskDefinition [_TaskReference "B"; _TaskReference "C"])].

(** ** Raw definitions and their parsers *)

(** A value of the decoded document, as far as the parsers look at it:
    they test it with [isinstance] against [str], [list] and [dict], take
    its truth value, and print [type(x).__name__].  [ROther] is a value
    of any other type (int, float, date...), with the name of its type.
    A dict is the list of its items in insertion order; its keys are
    strings, as the keys of a decoded document are. *)
#[warnings="-register-all"]
Inductive raw : Type :=
  | RStr (s : string)
  | RBool (b : bool)
  | RList (items : list raw)
  | RDict (items : list (string * raw))
  | ROther (type_name : string).

(** [type(x).__name__]. *)
Definition type_name (x : raw) : string :=
  match x with
  | RStr _ => "str"
  | RBool _ => "bool"
  | RList _ => "list"
  | RDict _ => "dict"
  | ROther name => name
  end.

(** The [InvalidTaskDefinitionError]s that the parsers raise; the last
    one is the base class, raised with a message of its own for [deps]. *)
Inductive definition_error : Type :=
  | InvalidTaskDefinitionTypeError (invalid_type : string)
  | EmptyTaskStepError
  | InvalidTaskStepTypeError (invalid_type : string)
  | InvalidTaskCmdTypeError (invalid_type : string)
  | InvalidTaskCmdItemTypeError (invalid_type : string)
  | InvalidTaskDictError (invalid_key : string)
  | InvalidTaskDefinitionError (msg : string).

(** [exc.msg]. *)
Definition definition_error_msg (e : definition_error) : string :=
  match e with
  | InvalidTaskDefinitionTypeError invalid_type =>
      "wrong type '" +:+ invalid_type
      +:+ "': task must be a string, a dict or a list of strings and dicts."
  | EmptyTaskStepError => "task step cannot be empty."
  | InvalidTaskStepTypeError invalid_type =>
      "wrong step type '" +:+ invalid_type
      +:+ "': step must be a string or a dict."
  | InvalidTaskCmdTypeError invalid_type =>
      "wrong type '" +:+ invalid_type +:+ "': cmd must be a string or a list."
  | InvalidTaskCmdItemTypeError invalid_type =>
      "wrong type '" +:+ invalid_type +:+ "': cmd list items must be strings."
  | InvalidTaskDictError invalid_key =>
      "wrong key '" +:+ invalid_key
      +:+ "': task can be defined as dict with keys: ['cmd']."
  | InvalidTaskDefinitionError msg => msg
  end.

(** A value, or the exception raised instead. *)
Inductive result (X A : Type) : Type :=
  | Ok (a : A)
  | Error (e : X).
Arguments Ok {X A} a.
Arguments Error {X A} e.

(** [not s] for a string. *)
Definition str_empty (s : string) : bool :=
  match s with
  | EmptyString => true
  | String _ _ => false
  end.

(** The loop over the items of a list of steps, in
    [_parse_list_task_definition] and for a [cmd] list in
    [_parse_dict_task_definition]: the two differ by the exception for an
    item that is not a string, [type_error]. *)
Fixpoint collect_steps (type_error : string → definition_error)
    (definition : list raw) (steps : list string)
    : result definition_error (list string) :=
  match definition with
  | [] => Ok steps
  | RStr step :: rest =>
      if str_empty step then Error EmptyTaskStepError
      else collect_steps type_error rest (steps ++ [step])
  | other :: _ => Error (type_error (type_name other))
  end.

Definition _parse_str_task_definition (definition : string)
    : result definition_error _TaskDefinition :=
  if str_empty definition then Error EmptyTaskStepError
  else Ok (mk_TaskDefinition [_TaskCommand [definition]]).

Definition _parse_list_task_definition (definition : list raw)
    : result definition_error _TaskDefinition :=
  match collect_steps InvalidTaskStepTypeError definition [] with
  | Ok steps => Ok (mk_TaskDefinition [_TaskCommand steps])
  | Error e => Error e
  end.

(** The [for dep in dependencies] loop, appending to [steps]. *)
Fixpoint collect_deps (dependencies : list raw) (steps : list _TaskStep)
    : result definition_error (list _TaskStep) :=
  match dependencies with
  | [] => Ok steps
  | RStr dep :: rest => collect_deps rest (steps ++ [_TaskReference dep])
  | other :: _ =>
      Error (InvalidTaskDefinitionError
               ("wrong type '" +:+ type_name other
                +:+ "': deps list items must be strings."))
  end.

(** The [for key, value in definition.items()] loop of
    [_parse_dict_task_definition]. *)
Fixpoint parse_dict_items (items : list (string * raw))
    (steps : list _TaskStep) : result definition_error _TaskDefinition :=
  match items with
  | [] => Ok (mk_TaskDefinition steps)
  | (key, value) :: rest =>
      if decide (key = "cmd") then
        match value with
        | RStr v =>
            if str_empty v then Error EmptyTaskStepError
            else parse_dict_items rest (steps ++ [_TaskCommand [v]])
        | RList l =>
            match collect_steps InvalidTaskCmdItemTypeError l [] with
            | Ok cmd => parse_dict_items rest (steps ++ [_TaskCommand cmd])
            | Error e => Error e
            end
        | other => Error (InvalidTaskCmdTypeError (type_name other))
        end
      else if decide (key = "deps") then
        match value with
        | RList dependencies =>
            match collect_deps dependencies steps with
            | Ok steps' => parse_dict_items rest steps'
            | Error e => Error e
            end
        | other =>
            Error (InvalidTaskDefinitionError
                     ("wrong type '" +:+ type_name other
                      +:+ "': deps must be a list of strings."))
        end
      else Error (InvalidTaskDictError key)
  end.

Definition _parse_dict_task_definition (definition : list (string * raw))
    : result definition_error _TaskDefinition :=
  parse_dict_items definition [].

Definition _parse_task_definition (definition : raw)
    : result definition_error _TaskDefinition :=
  match definition with
  | RStr s => _parse_str_task_definition s
  | RList l => _parse_list_task_definition l
  | RDict items => _parse_dict_task_definition items
  | other => Error (InvalidTaskDefinitionTypeError (type_name other))
  end.

(** The loop of [_parse_all_tasks_definitions] over the items of the
    mapping; [tasks_definitions] is the dict filled so far, as its items. *)
Fixpoint parse_all_tasks_loop (mapping : list (string * raw))
    (tasks_definitions : list (string * _TaskDefinition))
    : outcome (list (string * _TaskDefinition)) :=
  match mapping with
  | [] => Return tasks_definitions
  | (task_name, raw_definition) :: rest =>
      match _parse_task_definition raw_definition with
      | Ok definition =>
          parse_all_tasks_loop rest
            (tasks_definitions ++ [(task_name, definition)])
      | Error e => Raise (InvalidTaskError task_name (definition_error_msg e))
      end
  end.

Definition _parse_all_tasks_definitions (mapping : list (string * raw))
    : outcome (list (string * _TaskDefinition)) :=
  parse_all_tasks_loop mapping [].

(** [parse_tasks(values)]. *)
Definition parse_tasks (values : list (string * raw))
    : option (outcome (gmap string Task)) :=
  match _parse_all_tasks_definitions values with
  | Return tasks_definitions => _resolve_all_tasks tasks_definitions
  | Raise e => Some (Raise e)
  end.

(** No string of a command of the definition is empty. *)
Definition commands_non_empty (definition : _TaskDefinition) : Prop :=
  ∀ cmd_steps s,
    _TaskCommand cmd_steps ∈ definition_steps definition →
    s ∈ cmd_steps → s ≠ "".

(** A mapping of two tasks written as a dict each, with the keys in
    the two possible orders. *)
Definition mapping_orders : list (string * raw) :=
  [("first", RDict [("deps", RList [RStr "second"]); ("cmd", RStr "x")]);
   ("second", RDict [("cmd", RList [RStr "a1"; RStr "a2"]); ("deps", RList [])])].

Definition tasks_orders : gmap string Task :=
  list_to_map
    [("first", mkTask ["a1"; "a2"; "x"]);
     ("second", mkTask ["a1"; "a2"])].

(** ** The parser of variables and of the document *)

(** What parsing the variables raises: [InvalidVariableError], and the
    [TypeError] of [Path(x)] on a value that is not a string. *)
Inductive variable_error : Type :=
  | InvalidVariableError (var_name reason : string)
  | TypeError (type_name : string).

(** [d.get(key, None)] on the items of a dict. *)
Fixpoint dict_get (key : string) (items : list (string * raw)) : option raw :=
  match items with
  | [] => None
  | (k, v) :: rest => if decide (k = key) then Some v else dict_get key rest
  end.

(** [key not in ["default", "env", "file", "secret"]]. *)
Definition unknown_variable_key (key : string) : bool :=
  negb (bool_decide (key ∈ ["default"; "env"; "file"; "secret"])).

Definition wrong_key_reason (key : string) : string :=
  "wrong key '" +:+ key
  +:+ "': variable can be defined as dict with keys: ['default', 'env', 'file', 'secret'].".

Definition wrong_type_reason (x : raw) : string :=
  "wrong type '" +:+ type_name x +:+ "': variable must be a string or a dict.".

(** A field that [_VariableDefinition] annotates [str | None]: absent, a
    string, or ([None]) a value that the record is not meant to hold. *)
Definition str_field (x : option raw) : option (option string) :=
  match x with
  | None => Some None
  | Some (RStr s) => Some (Some s)
  | Some _ => None
  end.

(** The field [secret], annotated [bool], with [False] when absent. *)
Definition bool_field (x : option raw) : option bool :=
  match x with
  | None => Some false
  | Some (RBool b) => Some b
  | Some _ => None
  end.

(** The body of the loop of [_parse_all_variables_definitions] for one
    variable.  The source checks the keys of a dict but not the types of
    its values: [Path] rejects a [file] that is not a string, the other
    values are stored as they are.  The result is [None] when a stored
    value has not the type that [_VariableDefinition] annotates, which
    the record of this development cannot hold.  [Path(s)] is kept as the
    string as written. *)
Definition parse_variable_definition (var_name : string)
    (raw_definition : raw)
    : option (result variable_error _VariableDefinition) :=
  match raw_definition with
  | RStr s => Some (Ok (mk_VariableDefinition (Some s) None None false))
  | RDict items =>
      match List.find unknown_variable_key items.*1 with
      | Some key =>
          Some (Error (InvalidVariableError var_name (wrong_key_reason key)))
      | None =>
          match dict_get "file" items with
          | Some (RStr _) | None =>
              default ← str_field (dict_get "default" items);
              env ← str_field (dict_get "env" items);
              file ← str_field (dict_get "file" items);
              secret ← bool_field (dict_get "secret" items);
              Some (Ok (mk_VariableDefinition default env file secret))
          | Some other => Some (Error (TypeError (type_name other)))
          end
      end
  | other =>
      Some (Error (InvalidVariableError var_name (wrong_type_reason other)))
  end.

(** The loop of [_parse_all_variables_definitions].  [variables] is the
    dict filled so far, [None] once a definition outside the annotated
    types has been stored; an exception raised later still comes out. *)
Fixpoint parse_all_variables_loop (mapping : list (string * raw))
    (variables : option (list (string * _VariableDefinition)))
    : option (result variable_error (list (string * _VariableDefinition))) :=
  match mapping with
  | [] => Ok <$> variables
  | (var_name, raw_definition) :: rest =>
      match parse_variable_definition var_name raw_definition with
      | Some (Error e) => Some (Error e)
      | Some (Ok definition) =>
          parse_all_variables_loop rest
            ((fun l => l ++ [(var_name, definition)]) <$> variables)
      | None => parse_all_variables_loop rest None
      end
  end.

Definition _parse_all_variables_definitions (mapping : list (string * raw))
    : option (result variable_error (list (string * _VariableDefinition))) :=
  parse_all_variables_loop mapping (Some []).

(** [parse_variables(values)]. *)
Definition parse_variables (values : list (string * raw))
    : option (result variable_error (gmap string Variable_)) :=
  r ← _parse_all_variables_definitions values;
  match r with
  | Ok definitions => Some (Ok (_resolve_all_variables (list_to_map definitions)))
  | Error e => Some (Error e)
  end.

(** What [parse_pyproject_document] raises: the exception of the tasks,
    that of the variables, or the [AttributeError] of [.get] or [.items]
    on a section that is not a table. *)
Inductive load_error : Type :=
  | TaskLoadError (e : exn)
  | VariableLoadError (e : variable_error)
  | AttributeError (type_name attribute : string).

(** [section.get(key, {})], then the use of the result as a dict by
    [attribute] ([get] or [items]). *)
Definition section_get (key : string) (section : list (string * raw))
    (attribute : string) : result load_error (list (string * raw)) :=
  match dict_get key section with
  | None => Ok []
  | Some (RDict items) => Ok items
  | Some other => Error (AttributeError (type_name other) attribute)
  end.

(** [parse_pyproject_document(document)]. *)
Definition parse_pyproject_document (document : list (string * raw))
    : option (result load_error Config) :=
  match section_get "tool" document "get" with
  | Error e => Some (Error e)
  | Ok tool_section =>
      match section_get "project-tasks" tool_section "get" with
      | Error e => Some (Error e)
      | Ok project_tasks_section =>
          match section_get "tasks" project_tasks_section "items" with
          | Error e => Some (Error e)
          | Ok tasks_values =>
              match parse_tasks tasks_values with
              | None => None
              | Some (Raise e) => Some (Error (TaskLoadError e))
              | Some (Return tasks) =>
                  match section_get "variables" project_tasks_section
                          "items" with
                  | Error e => Some (Error e)
                  | Ok variables_values =>
                      match parse_variables variables_values with
                      | None => None
                      | Some (Error e) => Some (Error (VariableLoadError e))
                      | Some (Ok variables) =>
                          Some (Ok (mkConfig tasks variables))
                      end
                  end
              end
          end
      end
  end.

(** A config whose second task uses a variable that is not defined. *)
Definition config_undefined : Config :=
  mkConfig {[ "build" := mkTask ["make"; "make install"];
              "deploy" := mkTask ["scp out ${var.host}:"] ]} ∅.

(** The event of a command the loop of [Service.execute] went past: the
    command printed under dry-run, run with exit code 0 otherwise. *)
Definition went (dry_run : bool) (command : string) : event :=
  if dry_run then Write command else Run command 0%Z.

(** ** Command line arguments *)

(** [s.startswith(p)]. *)
Definition startswith (p s : string) : bool :=
  match strip_prefix p s with
  | Some _ => true
  | None => false
  end.

(** [s[n:]]. *)
Fixpoint str_drop (n : nat) (s : string) : string :=
  match n, s with
  | O, _ => s
  | S n', String _ s' => str_drop n' s'
  | S _, EmptyString => EmptyString
  end.

(** [c in s] for a string [c] of one character. *)
Fixpoint str_in (c : ascii) (s : string) : bool :=
  match s with
  | EmptyString => false
  | String a s' => if Ascii.eqb a c then true else str_in c s'
  end.

(** [s.split(c, 1)], a list of one or two strings: the text before the
    first [c] and, when [c] is in [s], the text after it. *)
Fixpoint split_once (c : ascii) (s : string) : string * option string :=
  match s with
  | EmptyString => (EmptyString, None)
  | String a s' =>
      if Ascii.eqb a c then (EmptyString, Some s')
      else let '(head, rest) := split_once c s' in (String a head, rest)
  end.

(** The namespace that [parser.parse_known_args] returns for the parser
    of [create_parser]. *)
Record Namespace : Type := mkNamespace
  { ns_help : bool;
    ns_file : string;
    ns_list : bool;
    ns_dry_run : bool }.

(** The exception [Exit]. *)
Record Exit : Type := mkExit
  { exit_return_code : Z;
    exit_msg : string }.

Definition newline : string := String (ascii_of_nat 10) EmptyString.

(** [Exit(return_code, msg)] when [msg] is a list: the lines are joined
    by a newline. *)
Definition Exit_lines (return_code : Z) (msg : list string) : Exit :=
  mkExit return_code (str_join newline msg).

(** How [parse_args] can end other than by returning: [raise Exit], or
    the [ValueError] of unpacking [name, value] from a list of one
    string. *)
Inductive cli_error : Type :=
  | CliExit (e : Exit)
  | CliValueError.

(** The local variables of the loop of [parse_args]. *)
Record ParseState : Type := mkParseState
  { parsed_tasks : list string;
    parsed_variables : gmap string string;
    unrecognized_arguments : list string;
    pending_variable : option string }.

(** [if pending_variable:] holds for a string that is not empty; the
    result is that string. *)
Definition truthy (pending : option string) : option string :=
  match pending with
  | Some (String a s) => Some (String a s)
  | _ => None
  end.

(** The body of [for arg in remaining]. *)
Definition parse_arg (st : ParseState) (arg : string)
    : result cli_error ParseState :=
  if startswith "--var." arg then
    match truthy (pending_variable st) with
    | Some pending =>
        Ok (mkParseState (parsed_tasks st) (parsed_variables st)
              (unrecognized_arguments st ++ ["--var." +:+ pending; arg])
              None)
    | None =>
        if str_in "=" arg then
          match split_once "=" (str_drop 6 arg) with
          | (name, Some value) =>
              Ok (mkParseState (parsed_tasks st)
                    (<[name := value]> (parsed_variables st))
                    (unrecognized_arguments st) (pending_variable st))
          | (_, None) => Error CliValueError
          end
        else
          Ok (mkParseState (parsed_tasks st) (parsed_variables st)
                (unrecognized_arguments st) (Some (str_drop 6 arg)))
    end
  else
    match truthy (pending_variable st) with
    | Some pending =>
        Ok (mkParseState (parsed_tasks st)
              (<[pending := arg]> (parsed_variables st))
              (unrecognized_arguments st) None)
    | None =>
        if startswith "--" arg then
          Ok (mkParseState (parsed_tasks st) (parsed_variables st)
                (unrecognized_arguments st ++ [arg]) (pending_variable st))
        else
          Ok (mkParseState (parsed_tasks st ++ [arg]) (parsed_variables st)
                (unrecognized_arguments st) (pending_variable st))
    end.

Fixpoint parse_remaining (remaining : list string) (st : ParseState)
    : result cli_error ParseState :=
  match remaining with
  | [] => Ok st
  | arg :: rest =>
      match parse_arg st arg with
      | Ok st' => parse_remaining rest st'
      | Error e => Error e
      end
  end.

(** The state before the loop. *)
Definition parse_start : ParseState := mkParseState [] ∅ [] None.

(** The unrecognized arguments after the loop, with the pending variable
    that got no value. *)
Definition all_unrecognized (st : ParseState) : list string :=
  match truthy (pending_variable st) with
  | Some pending => unrecognized_arguments st ++ ["--var." +:+ pending]
  | None => unrecognized_arguments st
  end.

Definition unrecognized_message (unrecognized : list string) : string :=
  "task: error: unrecognized arguments: " +:+ str_join " " unrecognized.

Definition no_task_message : string :=
  "task: error: at least one task name is required".

Definition list_message : string :=
  "task: error: --list option cannot be used together with tasks and variables arguments or --dry-run option".

Section ParseArgs.
(** What argparse prints for the parser of [create_parser]:
    [parser.format_usage().strip()] and [parser.format_help()]. *)
Variable usage : string.
Variable format_help : string.

(** [parse_args] after the loop. *)
Definition parse_args_end (ns : Namespace) (st : ParseState)
    : result cli_error (string * bool * Request) :=
  match all_unrecognized st with
  | _ :: _ =>
      Error (CliExit (Exit_lines 1
               [usage; unrecognized_message (all_unrecognized st)]))
  | [] =>
      if ns_help ns then Error (CliExit (mkExit 0 format_help))
      else if bool_decide (parsed_tasks st = []) && negb (ns_list ns) then
        Error (CliExit (Exit_lines 1 [usage; no_task_message]))
      else if ns_list ns
                && (ns_dry_run ns
                    || negb (bool_decide (parsed_tasks st = []))
                    || negb (bool_decide (parsed_variables st = ∅))) then
        Error (CliExit (Exit_lines 1 [usage; list_message]))
      else
        Ok (ns_file ns, ns_list ns,
            mkRequest (parsed_tasks st) (parsed_variables st)
                      (ns_dry_run ns))
  end.

(** [parse_args(args)], from the result [(ns, remaining)] of
    [parser.parse_known_args(args)]. *)
Definition parse_args (ns : Namespace) (remaining : list string)
    : result cli_error (string * bool * Request) :=
  match parse_remaining remaining parse_start with
  | Ok st => parse_args_end ns st
  | Error e => Error e
  end.
End ParseArgs.

(** The arguments that argparse leaves over, as their author means
    them: task names, and overrides in one argument ([--var.name=value])
    or in two ([--var.name value]).  The options of the parser are not
    among them: argparse has taken them out. *)
Inductive cli_item : Type :=
  | TaskArg (name : string)
  | OverrideArg (name value : string)
  | OverrideSplit (name value : string).

Definition encode (item : cli_item) : list string :=
  match item with
  | TaskArg name => [name]
  | OverrideArg name value => ["--var." +:+ name +:+ "=" +:+ value]
  | OverrideSplit name value => ["--var." +:+ name; value]
  end.

(** What can be written that way: a task name does not start with two
    dashes, a variable name holds no equal sign, and in the form with two
    arguments the name is not empty and the value does not start with
    [--var.]. *)
Definition item_ok (item : cli_item) : bool :=
  match item with
  | TaskArg name => negb (startswith "--" name)
  | OverrideArg name _ => negb (str_in "=" name)
  | OverrideSplit name value =>
      negb (str_empty name) && negb (str_in "=" name)
      && negb (startswith "--var." value)
  end.

Definition requested_tasks (items : list cli_item) : list string :=
  items ≫= fun item =>
    match item with
    | TaskArg name => [name]
    | _ => []
    end.

(** The overrides from left to right, a later one replacing an earlier
    one of the same name. *)
Definition apply_overrides (items : list cli_item)
    (variables : gmap string string) : gmap string string :=
  foldl (fun m item =>
           match item with
           | TaskArg _ => m
           | OverrideArg name value | OverrideSplit name value =>
               <[name := value]> m
           end) variables items.

(** The pending variable as the argument it came from, when it is
    truthy. *)
Definition pending_argument (st : ParseState) : list string :=
  match truthy (pending_variable st) with
  | Some pending => ["--var." +:+ pending]
  | None => []
  end.

(** Two states of the loop that differ at most by a pending variable
    which is [None] in one and the empty string in the other. *)
Definition same_but_pending (st1 st2 : ParseState) : Prop :=
  parsed_tasks st1 = parsed_tasks st2
  ∧ parsed_variables st1 = parsed_variables st2
  ∧ unrecognized_arguments st1 = unrecognized_arguments st2
  ∧ truthy (pending_variable st1) = truthy (pending_variable st2).

(** The usage line and the help text that argparse prints for the
    parser, and two results of its [parse_known_args]. *)
Definition usage_line : string :=
  "usage: task [--help] [--list] [--file FILE] [--dry-run] [--var.<NAME> VALUE] [task_name ...]".

Definition help_text : string :=
  str_join newline
    [usage_line;
     "";
     "task: run a single or several tasks defined in pyproject.toml.";
     "";
     "positional arguments:";
     "  task_name        Task to run";
     "";
     "options:";
     "  --help, -h       Show help and exit";
     "  --file, -f FILE  Pyproject file";
     "  --list, -l       List available tasks";
     "  --dry-run        Show task steps instead of executing them";
     "";
     "optional key-value arguments:";
     "  --var.<name>     Set variable with value";
     ""].

Definition ns_dry : Namespace := mkNamespace false "pyproject.toml" false true.

Definition ns_help_given : Namespace :=
  mkNamespace true "pyproject.toml" false false.

(** The expansion as the spec words it, a second definition to compare
    [_resolve_task] with: [expand(T)] is, step by step and in order, a
    command's own strings and [expand] of a referenced task.  [depth]
    bounds the nesting of the references that are followed; the result
    is [None] when a reference names no task of the graph or the
    references nest deeper than [depth] (as they do on a cycle, for
    every [depth]). *)
Definition spec_step (expansion : string → option (list string))
    (item : _TaskStep) : option (list string) :=
  match item with
  | _TaskCommand cmd_steps => Some cmd_steps
  | _TaskReference name => expansion name
  end.

Fixpoint spec_expand (depth : nat) (graph : gmap string _TaskDefinition)
    (task_name : string) : option (list string) :=
  match depth with
  | O => None
  | S depth' =>
      match graph !! task_name with
      | None => None
      | Some definition =>
          parts ← mapM (spec_step (spec_expand depth' graph))
                       (definition_steps definition);
          Some (concat parts)
      end
  end.

(** A graph where a cycle lies behind a reference to a missing task. *)
Definition graph_cycle_behind_missing : gmap string _TaskDefinition :=
  list_to_map
    [("A", mk_TaskDefinition [_TaskReference "missing"; _TaskReference "B"]);
     ("B", mk_TaskDefinition [_TaskReference "A"])].

(** The variables of [config_nested], with the two placeholders in
    either order and the first one alone. *)
Definition config_nested_orders : Config :=
  mkConfig
    {[ "first" := mkTask ["${var.a} ${var.b}"];
       "last" := mkTask ["${var.b} ${var.a}"];
       "alone" := mkTask ["${var.a}"] ]}
    (_resolve_all_variables
       {[ "a" := mk_VariableDefinition (Some "${var.b}") None None false;
          "b" := mk_VariableDefinition (Some "B") None None false ]}).

(** A config whose task uses, among text with dollar signs, a variable
    that is defined and then one that is not. *)
Definition config_undefined_later : Config :=
  mkConfig
    {[ "deploy" := mkTask ["echo $HOME ${var.user}";
                           "scp out ${var.user}@${var.host}:$HOME"] ]}
    (_resolve_all_variables
       {[ "user" := mk_VariableDefinition (Some "me") None None false ]}).

(** * Properties *)

(** ** The task graph resolver: termination *)

Lemma resolve_steps_ext rec1 rec2 items resolved :
  (∀ name, _TaskReference name ∈ items → rec1 name = rec2 name) →
  resolve_steps rec1 items resolved = resolve_steps rec2 items resolved.
Proof.
  revert resolved.
  induction items as [|[cmd_steps|name] rest IH]; intros resolved Hrec; simpl.
  - done.
  - apply IH. intros name Hin. apply Hrec. by right.
  - rewrite (Hrec name) by left.
    destruct (rec2 name) as [[t|e]|]; [|done..].
    apply IH. intros name' Hin. apply Hrec. by right.
Qed.

Lemma resolve_steps_is_Some rec items resolved :
  (∀ name, _TaskReference name ∈ items → is_Some (rec name)) →
  is_Some (resolve_steps rec items resolved).
Proof.
  revert resolved.
  induction items as [|[cmd_steps|name] rest IH]; intros resolved Hrec; simpl.
  - by eexists.
  - apply IH. intros name Hin. apply Hrec. by right.
  - destruct (Hrec name) as [[t|e] ->]; [by left| |by eexists].
    apply IH. intros name' Hin. apply Hrec. by right.
Qed.

Lemma unvisited_le graph parents : unvisited graph parents ≤ size graph.
Proof.
  unfold unvisited. rewrite <- (size_dom (D:=gset string) graph).
  apply subseteq_size. intros x Hx. by apply elem_of_difference in Hx as [? _].
Qed.

Lemma unvisited_push graph parents task_name :
  task_name ∉ parents → is_Some (graph !! task_name) →
  unvisited graph (parents ++ [task_name]) < unvisited graph parents.
Proof.
  intros Hnotin Hdom. unfold unvisited. apply subset_size.
  apply elem_of_dom in Hdom. split.
  - intros x [Hx Hnot]%elem_of_difference. apply elem_of_difference.
    split; [done|]. intros Hin. apply Hnot.
    apply elem_of_list_to_set, elem_of_app. left.
    by apply elem_of_list_to_set in Hin.
  - intros Hsub. specialize (Hsub task_name).
    assert (task_name ∈ dom graph ∖ (list_to_set parents : gset string)) as Hin.
    { apply elem_of_difference. split; [done|].
      by intros ?%elem_of_list_to_set. }
    apply Hsub, elem_of_difference in Hin as [_ Hnot]. apply Hnot.
    apply elem_of_list_to_set, elem_of_app. right. by left.
Qed.

(** With a budget above the number of unvisited keys the outcome does
    not depend on the budget. *)
Lemma resolve_task_fuel_irrelevant fuel1 fuel2 graph task_name parents :
  unvisited graph parents < fuel1 → unvisited graph parents < fuel2 →
  resolve_task_fuel fuel1 graph task_name (Some parents)
  = resolve_task_fuel fuel2 graph task_name (Some parents).
Proof.
  revert fuel2 task_name parents.
  induction fuel1 as [|fuel1 IH]; intros [|fuel2] task_name parents H1 H2;
    [lia..|]; simpl.
  case_bool_decide as Hin; [done|].
  destruct (graph !! task_name) as [definition|] eqn:Hdef; [|done].
  apply resolve_steps_ext. intros name _.
  pose proof (unvisited_push graph parents task_name Hin) as Hlt.
  rewrite Hdef in Hlt. specialize (Hlt (mk_is_Some _ _ eq_refl)).
  apply IH; lia.
Qed.

(** ... and the budget is not exhausted. *)
Lemma resolve_task_fuel_enough fuel graph task_name parents :
  unvisited graph parents < fuel →
  is_Some (resolve_task_fuel fuel graph task_name (Some parents)).
Proof.
  revert task_name parents.
  induction fuel as [|fuel IH]; intros task_name parents Hfuel; [lia|]; simpl.
  case_bool_decide as Hin; [by eexists|].
  destruct (graph !! task_name) as [definition|] eqn:Hdef; [|by eexists].
  apply resolve_steps_is_Some. intros name _.
  pose proof (unvisited_push graph parents task_name Hin) as Hlt.
  rewrite Hdef in Hlt. specialize (Hlt (mk_is_Some _ _ eq_refl)).
  apply IH; lia.
Qed.

Lemma resolve_task_fuel_None fuel graph task_name :
  resolve_task_fuel fuel graph task_name None
  = resolve_task_fuel fuel graph task_name (Some []).
Proof. by destruct fuel. Qed.

(** [_resolve_task] always returns or raises. *)
Lemma _resolve_task_total graph task_name parents :
  is_Some (_resolve_task graph task_name parents).
Proof.
  unfold _resolve_task. destruct parents as [parents|].
  - apply resolve_task_fuel_enough. pose proof (unvisited_le graph parents). lia.
  - rewrite resolve_task_fuel_None. apply resolve_task_fuel_enough.
    pose proof (unvisited_le graph []). lia.
Qed.

(** The body of [_resolve_task], with its recursive calls. *)
Lemma _resolve_task_unfold graph task_name parents :
  _resolve_task graph task_name parents =
  let parents := default [] parents in
  if bool_decide (task_name ∈ parents) then
    Some (p ← last_parent parents;
          Raise (CircularDependencyError p task_name))
  else
    match graph !! task_name with
    | None =>
        Some (p ← last_parent parents;
              Raise (UnknownTaskReferenceError task_name p))
    | Some definition =>
        resolve_steps
          (fun name => _resolve_task graph name (Some (parents ++ [task_name])))
          (definition_steps definition) []
    end.
Proof.
  unfold _resolve_task at 1. simpl.
  case_bool_decide as Hin; [done|].
  destruct (graph !! task_name) as [definition|] eqn:Hdef; [|done].
  apply resolve_steps_ext. intros name _. unfold _resolve_task.
  pose proof (unvisited_push graph (default [] parents) task_name Hin) as Hlt.
  rewrite Hdef in Hlt. specialize (Hlt (mk_is_Some _ _ eq_refl)).
  pose proof (unvisited_le graph (default [] parents)).
  apply resolve_task_fuel_irrelevant; lia.
Qed.

(** ** The task graph resolver: what a resolved task holds *)

Lemma resolve_steps_Return rec items resolved t :
  resolve_steps rec items resolved = Some (Return t) →
  steps t = resolved ++ concat (step_result rec <$> items)
  ∧ ∀ name, _TaskReference name ∈ items → ∃ d, rec name = Some (Return d).
Proof.
  revert resolved.
  induction items as [|[cmd_steps|name] rest IH]; intros resolved; simpl.
  - intros [= <-]. simpl. split; [by rewrite app_nil_r|].
    intros name Hin. by apply elem_of_nil in Hin.
  - intros Hres. destruct (IH _ Hres) as [-> Hrefs].
    split; [by rewrite <- app_assoc|].
    intros name Hin. apply elem_of_cons in Hin as [[=]|Hin]. by apply Hrefs.
  - destruct (rec name) as [[d|e]|] eqn:Hrec; [|done..].
    intros Hres. destruct (IH _ Hres) as [-> Hrefs].
    split; [by rewrite <- app_assoc|].
    intros name' Hin. apply elem_of_cons in Hin as [[= ->]|Hin]; [by eexists|].
    by apply Hrefs.
Qed.

Lemma resolve_steps_Return_mono rec1 rec2 items resolved t :
  (∀ name d, rec1 name = Some (Return d) → rec2 name = Some (Return d)) →
  resolve_steps rec1 items resolved = Some (Return t) →
  resolve_steps rec2 items resolved = Some (Return t).
Proof.
  intros Hrec. revert resolved.
  induction items as [|[cmd_steps|name] rest IH]; intros resolved; simpl.
  - done.
  - apply IH.
  - destruct (rec1 name) as [[d|e]|] eqn:Hrec1; [|done..].
    rewrite (Hrec _ _ Hrec1). apply IH.
Qed.

Lemma last_parent_raises {A} parents (e : string → exn) (a : A) :
  (p ← last_parent parents; Raise (e p)) ≠ Return a.
Proof. unfold last_parent. by destruct (last parents). Qed.

(** A task that resolves under some ancestors resolves to the same
    commands under fewer ancestors. *)
Lemma resolve_task_fuel_weaken fuel graph task_name parents parents' t :
  (∀ x, x ∈ parents' → x ∈ parents) →
  resolve_task_fuel fuel graph task_name (Some parents) = Some (Return t) →
  resolve_task_fuel fuel graph task_name (Some parents') = Some (Return t).
Proof.
  revert task_name parents parents' t.
  induction fuel as [|fuel IH]; intros task_name parents parents' t Hsub;
    [done|]; simpl.
  case_bool_decide as Hin.
  { intros [= Habs]. by apply last_parent_raises in Habs. }
  rewrite bool_decide_eq_false_2 by (intros Hin'; apply Hin, Hsub, Hin').
  destruct (graph !! task_name) as [definition|].
  2: { intros [= Habs]. by apply last_parent_raises in Habs. }
  apply resolve_steps_Return_mono. intros name d. apply IH.
  intros x. rewrite !elem_of_app. intros [Hx|Hx]; [left; by apply Hsub|by right].
Qed.

Lemma _resolve_task_top graph task_name parents t :
  _resolve_task graph task_name (Some parents) = Some (Return t) →
  _resolve_task graph task_name None = Some (Return t).
Proof.
  unfold _resolve_task. rewrite resolve_task_fuel_None.
  apply resolve_task_fuel_weaken. intros x Hx. by apply elem_of_nil in Hx.
Qed.

Lemma resolve_steps_from_command graph rec items resolved t :
  (∀ name d, rec name = Some (Return d) → Forall (from_command graph) (steps d)) →
  (∀ cmd_steps, _TaskCommand cmd_steps ∈ items →
     Forall (from_command graph) cmd_steps) →
  Forall (from_command graph) resolved →
  resolve_steps rec items resolved = Some (Return t) →
  Forall (from_command graph) (steps t).
Proof.
  intros Hrec. revert resolved.
  induction items as [|[cmd_steps|name] rest IH]; intros resolved Hcmd Hacc; simpl.
  - by intros [= <-].
  - apply IH.
    + intros c Hc. apply Hcmd. by right.
    + apply Forall_app. split; [done|]. apply Hcmd. by left.
  - destruct (rec name) as [[d|e]|] eqn:Hd; [|done..].
    apply IH.
    + intros c Hc. apply Hcmd. by right.
    + apply Forall_app. split; [done|]. by eapply Hrec.
Qed.

Lemma resolve_task_fuel_from_command fuel graph task_name parents t :
  resolve_task_fuel fuel graph task_name parents = Some (Return t) →
  Forall (from_command graph) (steps t).
Proof.
  revert task_name parents t.
  induction fuel as [|fuel IH]; intros task_name parents t; [done|]; simpl.
  case_bool_decide as Hin.
  { intros [= Habs]. by apply last_parent_raises in Habs. }
  destruct (graph !! task_name) as [definition|] eqn:Hdef.
  2: { intros [= Habs]. by apply last_parent_raises in Habs. }
  apply resolve_steps_from_command.
  - intros name d. apply IH.
  - intros cmd_steps Hcmd. apply Forall_forall. intros s Hs.
    by exists task_name, definition, cmd_steps.
  - constructor.
Qed.

Lemma _resolve_task_known graph task_name definition :
  graph !! task_name = Some definition →
  _resolve_task graph task_name None =
  resolve_steps (fun name => _resolve_task graph name (Some [task_name]))
                (definition_steps definition) [].
Proof. intros Hdef. rewrite _resolve_task_unfold. simpl. by rewrite Hdef. Qed.

(** The expansion of the spec, one level unfolded. *)
Lemma spec_expand_inv depth graph task_name l :
  spec_expand (S depth) graph task_name = Some l
  ↔ ∃ definition parts,
      graph !! task_name = Some definition
      ∧ Forall2 (fun item part =>
                   spec_step (spec_expand depth graph) item = Some part)
                (definition_steps definition) parts
      ∧ l = concat parts.
Proof.
  simpl. destruct (graph !! task_name) as [definition|]; simpl.
  - rewrite bind_Some. split.
    + intros (parts & Hparts%mapM_Some & [= <-]). by exists definition, parts.
    + intros (d & parts & [= <-] & Hparts & ->). exists parts.
      by rewrite mapM_Some.
  - split; [done|]. by intros (d & parts & [=] & _).
Qed.

Lemma spec_expand_mono graph depth depth' task_name l :
  depth ≤ depth' →
  spec_expand depth graph task_name = Some l →
  spec_expand depth' graph task_name = Some l.
Proof.
  revert depth' task_name l.
  induction depth as [|depth IH]; intros depth' task_name l Hle; [done|].
  destruct depth' as [|depth']; [lia|].
  rewrite !spec_expand_inv.
  intros (definition & parts & Hdef & Hparts & ->).
  exists definition, parts. split_and!; [done| |done].
  eapply Forall2_impl; [apply Hparts|].
  intros [cmd_steps|name] part; simpl; [done|]. apply IH. lia.
Qed.

Lemma spec_expand_None graph depth depth' task_name :
  depth ≤ depth' →
  spec_expand depth' graph task_name = None →
  spec_expand depth graph task_name = None.
Proof.
  intros Hle Hnone.
  destruct (spec_expand depth graph task_name) as [l|] eqn:Hl; [|done].
  apply (spec_expand_mono _ _ depth') in Hl; [congruence|done].
Qed.

(** An expansion has a least depth. *)
Lemma spec_expand_minimal graph depth task_name l :
  spec_expand depth graph task_name = Some l →
  ∃ m, m < depth
       ∧ spec_expand m graph task_name = None
       ∧ spec_expand (S m) graph task_name = Some l.
Proof.
  induction depth as [|depth IH]; [done|]. intros Hl.
  destruct (spec_expand depth graph task_name) as [l'|] eqn:Hl'.
  - assert (l' = l) as ->.
    { apply (spec_expand_mono _ _ (S depth)) in Hl'; [congruence|lia]. }
    destruct (IH eq_refl) as (m & Hm & Hnone & Hsome).
    exists m. split_and!; [lia|done..].
  - exists depth. split_and!; [lia|done..].
Qed.

(** What the code returns is an expansion of the spec. *)
Lemma resolve_steps_spec rec expansion items resolved t :
  (∀ name d, rec name = Some (Return d) → expansion name = Some (steps d)) →
  resolve_steps rec items resolved = Some (Return t) →
  ∃ parts,
    Forall2 (fun item part => spec_step expansion item = Some part)
            items parts
    ∧ steps t = resolved ++ concat parts.
Proof.
  intros Hrec. revert resolved.
  induction items as [|[cmd_steps|name] rest IH]; intros resolved; simpl.
  - intros [= <-]. exists []. split; [constructor|]. simpl.
    by rewrite app_nil_r.
  - intros (parts & Hparts & ->)%IH. exists (cmd_steps :: parts).
    split; [by constructor|]. simpl. by rewrite app_assoc.
  - destruct (rec name) as [[d|e]|] eqn:Hname; [|done..].
    intros (parts & Hparts & ->)%IH. exists (steps d :: parts).
    split; [constructor; [by apply Hrec|done]|]. simpl. by rewrite app_assoc.
Qed.

Lemma resolve_task_fuel_spec fuel graph task_name parents t :
  resolve_task_fuel fuel graph task_name parents = Some (Return t) →
  spec_expand fuel graph task_name = Some (steps t).
Proof.
  revert task_name parents t.
  induction fuel as [|fuel IH]; intros task_name parents t; [done|].
  intros Hres. apply spec_expand_inv. revert Hres. simpl.
  case_bool_decide as Hin.
  { intros [= Habs]. by apply last_parent_raises in Habs. }
  destruct (graph !! task_name) as [definition|] eqn:Hdef.
  2: { intros [= Habs]. by apply last_parent_raises in Habs. }
  intros Hres.
  apply (resolve_steps_spec _ (spec_expand fuel graph)) in Hres
    as (parts & Hparts & Hsteps).
  - exists definition, parts. by split_and!.
  - intros name d. apply IH.
Qed.

(** An expansion of the spec is what the code returns. *)
Lemma resolve_steps_complete rec items parts resolved :
  Forall2 (fun item part =>
             match item with
             | _TaskCommand cmd_steps => part = cmd_steps
             | _TaskReference name => rec name = Some (Return (mkTask part))
             end) items parts →
  resolve_steps rec items resolved
  = Some (Return (mkTask (resolved ++ concat parts))).
Proof.
  intros Hparts. revert resolved.
  induction Hparts as [|[cmd_steps|name] part items parts Hitem _ IH];
    intros resolved; simpl.
  - by rewrite app_nil_r.
  - rewrite Hitem, IH. by rewrite app_assoc.
  - rewrite Hitem. simpl. rewrite IH. by rewrite app_assoc.
Qed.

Lemma spec_expand_resolves graph depth task_name l parents :
  spec_expand depth graph task_name = None →
  spec_expand (S depth) graph task_name = Some l →
  (∀ p, p ∈ parents → spec_expand (S depth) graph p = None) →
  _resolve_task graph task_name (Some parents) = Some (Return (mkTask l)).
Proof.
  revert task_name l parents.
  induction (lt_wf depth) as [depth _ IH].
  intros task_name l parents Hnone Hsome Hparents.
  pose proof Hsome as Hexpand.
  apply spec_expand_inv in Hexpand as (definition & parts & Hdef & Hparts & ->).
  rewrite _resolve_task_unfold. simpl.
  rewrite bool_decide_eq_false_2.
  2: { intros Hin. apply Hparents in Hin. congruence. }
  rewrite Hdef.
  rewrite (resolve_steps_complete _ _ parts); [done|].
  eapply Forall2_impl; [apply Hparts|].
  intros [cmd_steps|name] part; simpl; [by intros [= ->]|].
  intros Hname.
  destruct (spec_expand_minimal _ _ _ _ Hname) as (m & Hm & Hmnone & Hmsome).
  apply (IH m Hm); [done..|].
  intros p [Hp| ->%list_elem_of_singleton]%elem_of_app.
  - apply (spec_expand_None _ _ (S depth)); [lia|]. by apply Hparents.
  - apply (spec_expand_None _ _ depth); [lia|done].
Qed.

(** C1. Resolving a task expands its steps depth first and in order.
    The expansion of the spec ([expand(T)] is, step by step, a command's
    own strings and [expand] of a referenced task) is defined for a task
    exactly when [_resolve_task] returns for it, and then the resolved
    task holds exactly that expansion: a task [T] with steps
    [depA, cmd1, depB] resolves to [expand(depA) ++ [cmd1] ++ expand(depB)].
    Every string of the resolved task is a string of some command of the
    graph, so no reference is left. *)
Theorem resolve_task_depth_first graph task_name l :
  ((∃ depth, spec_expand depth graph task_name = Some l)
   ↔ _resolve_task graph task_name None = Some (Return (mkTask l)))
  ∧ ((∃ depth, spec_expand depth graph task_name = Some l) →
     Forall (from_command graph) l).
Proof.
  assert ((∃ depth, spec_expand depth graph task_name = Some l) →
          _resolve_task graph task_name None = Some (Return (mkTask l)))
    as Hcomplete.
  { intros [depth Hl].
    destruct (spec_expand_minimal _ _ _ _ Hl) as (m & _ & Hnone & Hsome).
    unfold _resolve_task. rewrite resolve_task_fuel_None.
    apply (spec_expand_resolves _ m); [done..|].
    by intros p ?%elem_of_nil. }
  split; [split; [done|]|].
  - intros Hres. exists (S (size graph)).
    by apply (resolve_task_fuel_spec _ _ _ None (mkTask l)).
  - intros Hres%Hcomplete.
    by apply (resolve_task_fuel_from_command _ _ _ _ (mkTask l)) in Hres.
Qed.

Lemma resolve_task_depth_first_witness :
  _resolve_task graph_interleaved "T" None
  = Some (Return (mkTask ["a1"; "a2"; "cmd1"; "a1"; "a2"; "b1"]))
  ∧ Forall (from_command graph_interleaved)
           ["a1"; "a2"; "cmd1"; "a1"; "a2"; "b1"].
Proof.
  destruct (resolve_task_depth_first graph_interleaved "T"
              ["a1"; "a2"; "cmd1"; "a1"; "a2"; "b1"]) as [[Hreturns _] Hfrom].
  split; [apply Hreturns|apply Hfrom]; exists 3; vm_compute; reflexivity.
Defined.

(** The task of the spec's example, with steps [depA, cmd1, depB]: the
    expansion of the spec, and the one of a task that lies on a cycle. *)
Example spec_expand_example :
  graph_interleaved !! "T"
  = Some (mk_TaskDefinition
            [_TaskReference "A"; _TaskCommand ["cmd1"]; _TaskReference "B"])
  ∧ spec_expand 2 graph_interleaved "A" = Some ["a1"; "a2"]
  ∧ spec_expand 2 graph_interleaved "B" = Some ["a1"; "a2"; "b1"]
  ∧ spec_expand 3 graph_interleaved "T"
    = Some (["a1"; "a2"] ++ ["cmd1"] ++ ["a1"; "a2"; "b1"])
  ∧ spec_expand 2 graph_interleaved "T" = None
  ∧ spec_expand 5 graph_cycle "A" = None.
Proof. split_and!; vm_compute; reflexivity. Qed.

(** ** The task graph resolver: errors *)

Lemma _resolve_task_None graph task_name :
  _resolve_task graph task_name None = _resolve_task graph task_name (Some []).
Proof. apply resolve_task_fuel_None. Qed.

Lemma resolve_steps_through rec before after resolved :
  Forall (fun item => match item with
                      | _TaskCommand _ => True
                      | _TaskReference name => ∃ t, rec name = Some (Return t)
                      end) before →
  ∃ resolved',
    resolve_steps rec (before ++ after) resolved
    = resolve_steps rec after resolved'.
Proof.
  intros Hbefore. revert resolved.
  induction Hbefore as [|[cmd_steps|name] before Hitem _ IH]; intros resolved;
    simpl.
  - by eexists.
  - apply IH.
  - destruct Hitem as [t ->]. apply IH.
Qed.

Lemma resolve_steps_raise rec before name after resolved e :
  Forall (fun item => match item with
                      | _TaskCommand _ => True
                      | _TaskReference name => ∃ t, rec name = Some (Return t)
                      end) before →
  rec name = Some (Raise e) →
  resolve_steps rec (before ++ _TaskReference name :: after) resolved
  = Some (Raise e).
Proof.
  intros Hbefore Hrec.
  destruct (resolve_steps_through rec before (_TaskReference name :: after)
              resolved Hbefore) as [resolved' ->].
  simpl. by rewrite Hrec.
Qed.

(** A loop that meets a reference which fails does not return a task. *)
Lemma resolve_steps_fails rec before name after resolved e t :
  rec name = Some (Raise e) →
  resolve_steps rec (before ++ _TaskReference name :: after) resolved
  ≠ Some (Return t).
Proof.
  intros Hrec. revert resolved.
  induction before as [|[cmd_steps|name'] before IH]; intros resolved; simpl.
  - by rewrite Hrec.
  - apply IH.
  - destruct (rec name') as [[d|e']|]; [apply IH|done..].
Qed.

Lemma descends_circular graph task_name parents reentered parents' :
  descends graph task_name parents reentered parents' →
  reentered ∈ parents' →
  ∃ p, last parents' = Some p
       ∧ _resolve_task graph task_name (Some parents)
         = Some (Raise (CircularDependencyError p reentered)).
Proof.
  induction 1 as [name parents
                 |name parents definition before next after name' parents'
                    Hnotin Hdef Hsteps Hbefore _ IH]; intros Hin.
  - assert (is_Some (last parents)) as [p Hp].
    { apply last_is_Some. intros ->. by apply elem_of_nil in Hin. }
    exists p. split; [done|].
    rewrite _resolve_task_unfold. simpl.
    rewrite bool_decide_eq_true_2 by done.
    unfold last_parent. by rewrite Hp.
  - destruct (IH Hin) as (p & Hp & Hnext). exists p. split; [done|].
    rewrite _resolve_task_unfold. simpl.
    rewrite bool_decide_eq_false_2 by done.
    rewrite Hdef, Hsteps.
    apply resolve_steps_raise; [|done].
    eapply Forall_impl; [apply Hbefore|].
    by intros [cmd_steps|name0].
Qed.

(** C5, as stated, fails: the graph holds the chain A, B, A, which
    re-enters [A], yet resolving [A] or [B] does not fail with a
    circular-dependency error.  The loop stops at the reference to the
    missing task, which stands before the reference to [B], and the
    error is the unknown-reference one. *)
Lemma cycle_behind_missing_reference :
  graph_cycle_behind_missing !! "A"
  = Some (mk_TaskDefinition [_TaskReference "missing"; _TaskReference "B"])
  ∧ graph_cycle_behind_missing !! "B"
    = Some (mk_TaskDefinition [_TaskReference "A"])
  ∧ _resolve_task graph_cycle_behind_missing "A" None
    = Some (Raise (UnknownTaskReferenceError "missing" "A"))
  ∧ _resolve_task graph_cycle_behind_missing "B" None
    = Some (Raise (UnknownTaskReferenceError "missing" "A"))
  ∧ (∀ name p reentered,
       name ∈ ["A"; "B"] →
       _resolve_task graph_cycle_behind_missing name None
       ≠ Some (Raise (CircularDependencyError p reentered))).
Proof.
  assert (_resolve_task graph_cycle_behind_missing "A" None
          = Some (Raise (UnknownTaskReferenceError "missing" "A"))) as HA
    by (vm_compute; reflexivity).
  assert (_resolve_task graph_cycle_behind_missing "B" None
          = Some (Raise (UnknownTaskReferenceError "missing" "A"))) as HB
    by (vm_compute; reflexivity).
  split_and!; [vm_compute; reflexivity..|done|done|].
  intros name p reentered Hname.
  apply elem_of_cons in Hname as [->|Hname].
  { rewrite HA. intros [=]. }
  apply elem_of_cons in Hname as [->|Hname]; [|by apply elem_of_nil in Hname].
  rewrite HB. intros [=].
Qed.

(** C5, amended. When the resolution of a task, following references
    whose earlier sibling steps resolve, re-enters a task that is already
    on the ancestor path, it fails with [CircularDependencyError] on
    exactly two names: the last ancestor on the path and the re-entered
    task.  The message names those two and nothing else of the cycle. *)
Theorem circular_dependency_names_immediate_pair
    graph task_name reentered parents :
  descends graph task_name [] reentered parents →
  reentered ∈ parents →
  ∃ p, last parents = Some p
       ∧ _resolve_task graph task_name None
         = Some (Raise (CircularDependencyError p reentered))
       ∧ exn_msg (CircularDependencyError p reentered)
         = Some ("task '" +:+ p +:+ "' and '" +:+ reentered
                 +:+ "' introduce a circular dependency.").
Proof.
  intros Hdesc Hin.
  destruct (descends_circular _ _ _ _ _ Hdesc Hin) as (p & Hp & Hres).
  exists p. by rewrite _resolve_task_None.
Qed.

Lemma graph_cycle_descends :
  descends graph_cycle "A" [] "A" ["A"; "B"].
Proof.
  eapply (descends_step graph_cycle "A" [] _ [] "B").
  - apply not_elem_of_nil.
  - vm_compute; reflexivity.
  - reflexivity.
  - constructor.
  - eapply (descends_step graph_cycle "B" ["A"] _ [] "A").
    + by intros [[=]|Hin%elem_of_nil]%elem_of_cons.
    + vm_compute; reflexivity.
    + reflexivity.
    + constructor.
    + apply descends_here.
Defined.

Lemma circular_dependency_names_immediate_pair_witness :
  ∃ p, last ["A"; "B"] = Some p
       ∧ _resolve_task graph_cycle "A" None
         = Some (Raise (CircularDependencyError p "A"))
       ∧ exn_msg (CircularDependencyError p "A")
         = Some ("task '" +:+ p +:+ "' and '" +:+ "A"
                 +:+ "' introduce a circular dependency.").
Proof.
  apply (circular_dependency_names_immediate_pair graph_cycle "A" "A" ["A"; "B"]).
  - exact graph_cycle_descends.
  - apply elem_of_cons. by left.
Defined.

(** The cycle A, B, A of the tests: the error names B then A. *)
Example graph_cycle_error :
  _resolve_task graph_cycle "A" None
  = Some (Raise (CircularDependencyError "B" "A"))
  ∧ _resolve_all_tasks
      [("A", mk_TaskDefinition [_TaskReference "B"; _TaskCommand ["unused"]]);
       ("B", mk_TaskDefinition [_TaskReference "A"; _TaskCommand ["unused"]])]
    = Some (Raise (InvalidTaskError "A"
                     "task 'B' and 'A' introduce a circular dependency.")).
Proof. split; vm_compute; reflexivity. Qed.

(** C6, as stated, fails: with two missing names in one [deps] list the
    error carries the first one only, so the second missing name is in
    the list and absent from the graph, yet not in the error. *)
Lemma second_missing_reference_not_reported :
  graph_two_missing !! "test"
  = Some (mk_TaskDefinition
            [_TaskReference "unknown"; _TaskReference "missing"])
  ∧ graph_two_missing !! "missing" = None
  ∧ _resolve_task graph_two_missing "test" None
    = Some (Raise (UnknownTaskReferenceError "unknown" "test"))
  ∧ _resolve_task graph_two_missing "test" None
    ≠ Some (Raise (UnknownTaskReferenceError "missing" "test")).
Proof.
  assert (_resolve_task graph_two_missing "test" None
          = Some (Raise (UnknownTaskReferenceError "unknown" "test"))) as Hres
    by (vm_compute; reflexivity).
  split_and!; [vm_compute; reflexivity..|done|].
  rewrite Hres. intros [=].
Qed.

(** C6, amended. A task with a reference to a name absent from the graph
    never resolves; and when the steps before that reference resolve, it
    fails with [UnknownTaskReferenceError] carrying the missing name and
    the name of the task that refers to it. *)
Theorem unknown_reference_reported
    graph task_name definition before missing after :
  graph !! task_name = Some definition →
  definition_steps definition = before ++ _TaskReference missing :: after →
  graph !! missing = None →
  (∃ e, _resolve_task graph task_name None = Some (Raise e))
  ∧ (Forall (resolves graph [task_name]) before →
     _resolve_task graph task_name None
     = Some (Raise (UnknownTaskReferenceError missing task_name))
     ∧ exn_msg (UnknownTaskReferenceError missing task_name)
       = Some ("task '" +:+ missing +:+ "' does not exist (used by '"
               +:+ task_name +:+ "').")).
Proof.
  intros Hdef Hsteps Hmissing.
  assert (_resolve_task graph missing (Some [task_name])
          = Some (Raise (UnknownTaskReferenceError missing task_name))) as Hrec.
  { rewrite _resolve_task_unfold. simpl.
    rewrite bool_decide_eq_false_2.
    - by rewrite Hmissing.
    - intros [->|Hin%elem_of_nil]%elem_of_cons; [congruence|done]. }
  rewrite (_resolve_task_known _ _ _ Hdef), Hsteps. split.
  - destruct (resolve_steps _ _ _) as [[t|e]|] eqn:Hres.
    + by eapply resolve_steps_fails in Hres.
    + by exists e.
    + pose proof (_resolve_task_total graph task_name None) as [r Hr].
      rewrite (_resolve_task_known _ _ _ Hdef), Hsteps in Hr. congruence.
  - intros Hbefore. split; [|done].
    apply resolve_steps_raise; [|done].
    eapply Forall_impl; [apply Hbefore|].
    by intros [cmd_steps|name0].
Qed.

Lemma unknown_reference_reported_witness :
  (∃ e, _resolve_task graph_two_missing "test" None = Some (Raise e))
  ∧ (Forall (resolves graph_two_missing ["test"]) [] →
     _resolve_task graph_two_missing "test" None
     = Some (Raise (UnknownTaskReferenceError "unknown" "test"))
     ∧ exn_msg (UnknownTaskReferenceError "unknown" "test")
       = Some ("task '" +:+ "unknown" +:+ "' does not exist (used by '"
               +:+ "test" +:+ "').")).
Proof.
  apply (unknown_reference_reported graph_two_missing "test"
           (mk_TaskDefinition
              [_TaskReference "unknown"; _TaskReference "missing"])
           [] "unknown" [_TaskReference "missing"]);
    vm_compute; reflexivity.
Defined.

(** ** Variables *)

Lemma _resolve_all_variables_lookup defs name :
  _resolve_all_variables defs !! name
  = (fun d => mkVariable
                (getter_factory name (var_env d) (var_file d) (var_default d))
                (var_secret d)) <$> defs !! name.
Proof.
  unfold _resolve_all_variables. rewrite map_lookup_imap.
  by destruct (defs !! name).
Qed.

Lemma Variable_get_no_dry_run w v override :
  Variable_get w v override false = getter v w override.
Proof. unfold Variable_get. by destruct (getter v w override). Qed.

Lemma occurs_in_middle before x after : occurs_in x (before +:+ x +:+ after).
Proof. by exists before, after. Qed.

(** C2. The value of a variable follows the precedence override, then
    environment, then file, then default: with an override [get] returns
    it; without one it returns the value of the environment variable when
    one is named and set, else the contents of the file when one is named
    and exists, else the default when there is one, and else it raises
    [ValueError] with a message that names the variable. *)
Theorem variable_precedence defs name d v w :
  defs !! name = Some d →
  _resolve_all_variables defs !! name = Some v →
  (∀ o, Variable_get w v (Some o) false = Return o)
  ∧ (∀ e x, var_env d = Some e → environ w !! e = Some x →
       Variable_get w v None false = Return x)
  ∧ (∀ f content, env_unavailable w d → var_file d = Some f →
       filesystem w !! f = Some (RegularFile content) →
       Variable_get w v None false = Return content)
  ∧ (∀ value, env_unavailable w d → file_unavailable w d →
       var_default d = Some value →
       Variable_get w v None false = Return value)
  ∧ (env_unavailable w d → file_unavailable w d → var_default d = None →
       ∃ msg, Variable_get w v None false = Raise (ValueError msg)
              ∧ msg = "variable '" +:+ name +:+ "': value is not defined."
              ∧ occurs_in name msg).
Proof.
  intros Hd. rewrite _resolve_all_variables_lookup, Hd. intros [= <-].
  destruct d as [default env file is_secret].
  unfold env_unavailable, file_unavailable. simpl.
  split_and!.
  - intros o. by rewrite Variable_get_no_dry_run.
  - intros e x -> Hx. rewrite Variable_get_no_dry_run. simpl. by rewrite Hx.
  - intros f content Henv -> Hf. rewrite Variable_get_no_dry_run. simpl.
    unfold path_exists, read_text. rewrite Hf.
    rewrite bool_decide_eq_true_2 by by eexists.
    destruct env as [e|]; [|done]. by rewrite (Henv e).
  - intros value Henv Hfile ->. rewrite Variable_get_no_dry_run. simpl.
    assert (match file with
            | Some f => if path_exists w f then read_text w f else Return value
            | None => Return value
            end = Return value) as ->.
    { destruct file as [f|]; [|done]. unfold path_exists.
      rewrite (Hfile f) by done.
      rewrite bool_decide_eq_false_2; [done|]. by intros [? [=]]. }
    destruct env as [e|]; [|done]. by rewrite (Henv e).
  - intros Henv Hfile ->. eexists. split_and!; [|done|apply occurs_in_middle].
    rewrite Variable_get_no_dry_run. simpl.
    assert (∀ r : outcome string,
              match file with
              | Some f => if path_exists w f then read_text w f else r
              | None => r
              end = r) as Hr.
    { intros r. destruct file as [f|]; [|done]. unfold path_exists.
      rewrite (Hfile f) by done.
      rewrite bool_decide_eq_false_2; [done|]. by intros [? [=]]. }
    rewrite Hr. destruct env as [e|]; [|done]. by rewrite (Henv e).
Qed.

Lemma variable_precedence_witness :
  let d := mk_VariableDefinition (Some "d") (Some "E") (Some "F") false in
  let v := mkVariable (getter_factory "foo" (Some "E") (Some "F") (Some "d"))
                      false in
  let w := world_with_file in
  (∀ o, Variable_get w v (Some o) false = Return o)
  ∧ (∀ e x, var_env d = Some e → environ w !! e = Some x →
       Variable_get w v None false = Return x)
  ∧ (∀ f content, env_unavailable w d → var_file d = Some f →
       filesystem w !! f = Some (RegularFile content) →
       Variable_get w v None false = Return content)
  ∧ (∀ value, env_unavailable w d → file_unavailable w d →
       var_default d = Some value →
       Variable_get w v None false = Return value)
  ∧ (env_unavailable w d → file_unavailable w d → var_default d = None →
       ∃ msg, Variable_get w v None false = Raise (ValueError msg)
              ∧ msg = "variable '" +:+ "foo" +:+ "': value is not defined."
              ∧ occurs_in "foo" msg).
Proof.
  apply (variable_precedence variables_layered "foo"); vm_compute; reflexivity.
Defined.

(** The precedence on the values of the spec's example. *)
Example variable_precedence_example :
  let v := mkVariable (getter_factory "foo" (Some "E") (Some "F") (Some "d"))
                      false in
  Variable_get world_with_file v (Some "o") false = Return "o"
  ∧ Variable_get world_with_file v None false = Return "f"
  ∧ Variable_get world_empty v None false = Return "d"
  ∧ Variable_get (mkWorld {[ "E" := "e" ]} {[ "F" := RegularFile "f" ]})
                 v None false = Return "e"
  ∧ Variable_get world_empty
                 (mkVariable (getter_factory "foo" None None None) false)
                 None false
    = Raise (ValueError "variable 'foo': value is not defined.").
Proof. split_and!; vm_compute; reflexivity. Qed.

Lemma str_mul_star_length n : String.length (str_mul "*" n) = n.
Proof.
  induction n as [|n IH]; [done|].
  change (S (String.length (str_mul "*" n)) = S n). by rewrite IH.
Qed.

Lemma str_mul_star_forall n :
  str_forall (fun c => Ascii.eqb c "*") (str_mul "*" n) = true.
Proof.
  induction n as [|n IH]; [done|].
  change (str_forall (fun c => Ascii.eqb c "*")
            (String "*" (str_mul "*" n)) = true).
  simpl. exact IH.
Qed.

(** C3, as stated, fails: under dry-run an override given to a secret
    variable comes back masked, not verbatim. *)
Lemma override_of_secret_masked_in_dry_run :
  _resolve_all_variables variables_secret !! "foo" = Some variable_secret_foo
  ∧ Variable_get world_empty variable_secret_foo (Some "o") true = Return "*"
  ∧ Variable_get world_empty variable_secret_foo (Some "o") true ≠ Return "o".
Proof.
  assert (Variable_get world_empty variable_secret_foo (Some "o") true
          = Return "*") as Hget by (vm_compute; reflexivity).
  split_and!; [vm_compute; reflexivity|done|].
  rewrite Hget. intros [=].
Qed.

(** C3, amended. For every variable, secret or not, the getter returns a
    given override verbatim, whatever the environment, the files and the
    default; [Variable.get] returns it unchanged when [dry_run] is false
    or the variable is not secret, and as many stars as the override has
    characters when [dry_run] is true and the variable is secret. *)
Theorem override_verbatim defs name d v w o dry_run :
  defs !! name = Some d →
  _resolve_all_variables defs !! name = Some v →
  getter v w (Some o) = Return o
  ∧ Variable_get w v (Some o) dry_run
    = Return (if dry_run && var_secret d
              then str_mul "*" (String.length o) else o).
Proof.
  intros Hd. rewrite _resolve_all_variables_lookup, Hd. intros [= <-].
  split; [done|]. unfold Variable_get. simpl.
  by destruct (dry_run && var_secret d).
Qed.

Lemma override_verbatim_witness :
  getter variable_secret_foo world_empty (Some "o") = Return "o"
  ∧ Variable_get world_empty variable_secret_foo (Some "o") false
    = Return (if false && true then str_mul "*" (String.length "o") else "o").
Proof.
  apply (override_verbatim variables_secret "foo"
           (mk_VariableDefinition (Some "bar") None None true)
           variable_secret_foo world_empty "o" false);
    vm_compute; reflexivity.
Defined.

(** C4. When the getter of a variable yields [value]: a secret variable
    under dry-run gives a string of [*] only, as long as [value]; without
    dry-run, or when the variable is not secret, [get] gives [value]. *)
Theorem secret_masked_in_dry_run w v override value :
  getter v w override = Return value →
  (secret v = true →
     ∃ mask, Variable_get w v override true = Return mask
             ∧ mask = str_mul "*" (String.length value)
             ∧ String.length mask = String.length value
             ∧ str_forall (fun c => Ascii.eqb c "*") mask = true)
  ∧ Variable_get w v override false = Return value
  ∧ (secret v = false → Variable_get w v override true = Return value).
Proof.
  intros Hvalue. unfold Variable_get. rewrite Hvalue. simpl. split_and!.
  - intros ->. eexists. split_and!; [done..| |].
    + apply str_mul_star_length.
    + apply str_mul_star_forall.
  - done.
  - by intros ->.
Qed.

Lemma secret_masked_in_dry_run_witness :
  (secret variable_secret_foo = true →
     ∃ mask, Variable_get world_empty variable_secret_foo None true
             = Return mask
             ∧ mask = str_mul "*" (String.length "bar")
             ∧ String.length mask = String.length "bar"
             ∧ str_forall (fun c => Ascii.eqb c "*") mask = true)
  ∧ Variable_get world_empty variable_secret_foo None false = Return "bar"
  ∧ (secret variable_secret_foo = false →
     Variable_get world_empty variable_secret_foo None true = Return "bar").
Proof.
  apply (secret_masked_in_dry_run world_empty variable_secret_foo None "bar").
  vm_compute; reflexivity.
Defined.

(** The secret of the tests: three characters, three stars. *)
Example secret_variable_example :
  Variable_get world_empty variable_secret_foo None false = Return "bar"
  ∧ Variable_get world_empty variable_secret_foo None true = Return "***".
Proof. split; vm_compute; reflexivity. Qed.

(** ** Strings *)

Lemma str_app_cons c s1 s2 : String c s1 +:+ s2 = String c (s1 +:+ s2).
Proof. reflexivity. Qed.

Lemma str_app_nil_r s : s +:+ "" = s.
Proof. induction s as [|c s IH]; [done|]. by rewrite str_app_cons, IH. Qed.

Lemma str_app_assoc s1 s2 s3 : (s1 +:+ s2) +:+ s3 = s1 +:+ s2 +:+ s3.
Proof. induction s1 as [|c s1 IH]; [done|]. by rewrite !str_app_cons, IH. Qed.

Lemma occurs_in_refl x : occurs_in x x.
Proof. exists "", "". by rewrite str_app_nil_r. Qed.

Lemma occurs_in_app_l x s t : occurs_in x s → occurs_in x (s +:+ t).
Proof.
  intros (before & after & ->). exists before, (after +:+ t).
  by rewrite !str_app_assoc.
Qed.

Lemma occurs_in_app_r x s t : occurs_in x t → occurs_in x (s +:+ t).
Proof.
  intros (before & after & ->). exists (s +:+ before), after.
  by rewrite !str_app_assoc.
Qed.

Lemma str_join_occurs sep l x : x ∈ l → occurs_in x (str_join sep l).
Proof.
  induction l as [|y [|z rest] IH]; intros Hin.
  - by apply elem_of_nil in Hin.
  - apply elem_of_cons in Hin as [->|Hin]; [apply occurs_in_refl|].
    by apply elem_of_nil in Hin.
  - change (occurs_in x (y +:+ sep +:+ str_join sep (z :: rest))).
    apply elem_of_cons in Hin as [->|Hin].
    + apply occurs_in_app_l, occurs_in_refl.
    + apply occurs_in_app_r, occurs_in_app_r, IH, Hin.
Qed.

(** ** The execution service *)

Section ServiceProperties.
Context {E : Type} `{!Executor E}.
Variable repr : string → string.

Lemma unknown_message_mentions unknown name :
  name ∈ unknown →
  occurs_in name (unknown_message repr unknown)
  ∨ occurs_in (repr name) (unknown_message repr unknown).
Proof.
  intros Hin. destruct unknown as [|first rest].
  { by apply elem_of_nil in Hin. }
  unfold unknown_message. case_bool_decide as Hlen.
  - right. apply occurs_in_app_r. unfold list_repr.
    apply occurs_in_app_r, occurs_in_app_l, str_join_occurs.
    apply list_elem_of_fmap. by exists name.
  - left. destruct rest as [|second rest]; [|simpl in Hlen; lia].
    apply elem_of_cons in Hin as [->|Hin]; [|by apply elem_of_nil in Hin].
    apply occurs_in_app_r, occurs_in_app_l, occurs_in_refl.
Qed.

(** C8. When a requested name is not a task of the config, [execute]
    returns 1 and does one thing only: it writes one error line, which
    holds every requested name that is missing.  The executor is not run,
    nothing is printed, no task is looked up, and the state is otherwise
    unchanged, whatever the other requested names are. *)
Theorem unknown_tasks_stop_before_running config request st missing :
  missing ∈ request_tasks request →
  tasks config !! missing = None →
  let message := unknown_message repr (unknown_tasks config request) in
  Service_execute repr config request st
  = (Return 1%Z, mkState (executor st) (world st)
                         (events st ++ [WriteError message]))
  ∧ (∀ name, name ∈ request_tasks request → tasks config !! name = None →
       name ∈ unknown_tasks config request
       ∧ (occurs_in name message ∨ occurs_in (repr name) message)).
Proof.
  intros Hin Hmissing message.
  assert (∀ name, name ∈ request_tasks request → tasks config !! name = None →
                  name ∈ unknown_tasks config request) as Hall.
  { intros name Hname Hnone. unfold unknown_tasks.
    by apply list_elem_of_filter. }
  split.
  - unfold Service_execute. subst message.
    destruct (unknown_tasks config request) as [|first rest] eqn:Hunknown.
    + specialize (Hall _ Hin Hmissing). by apply elem_of_nil in Hall.
    + done.
  - intros name Hname Hnone. split; [by apply Hall|].
    apply unknown_message_mentions. by apply Hall.
Qed.

(** Under dry-run the loop prints every command and runs none. *)
Lemma run_commands_dry_run task_name commands st :
  run_commands task_name true commands st
  = (None, mkState (executor st) (world st)
                   (events st ++ (Write <$> commands))).
Proof.
  revert st. induction commands as [|command rest IH]; intros st; simpl.
  - rewrite app_nil_r. by destruct st.
  - rewrite IH. simpl. by rewrite <- app_assoc.
Qed.

(** Without dry-run the loop runs the commands in order up to the first
    that fails, which it reports. *)
Lemma run_commands_run task_name commands st r st' :
  run_commands task_name false commands st = (r, st') →
  match r with
  | None => events st' = events st ++ (succeeded <$> commands)
  | Some code =>
      code ≠ 0%Z
      ∧ ∃ done cmd rest,
          commands = done ++ cmd :: rest
          ∧ events st'
            = events st ++ (succeeded <$> done)
              ++ [Run cmd code; WriteError (failed_message task_name code)]
  end.
Proof.
  revert st. induction commands as [|command rest IH]; intros st; simpl.
  - intros [= <- <-]. by rewrite app_nil_r.
  - destruct (run (executor st) (world st) command)
      as [return_code [e' w']] eqn:Hexec.
    case_bool_decide as Hcode.
    + intros [= <- <-]. simpl. split; [done|].
      exists [], command, rest. split; [done|]. by rewrite <- app_assoc.
    + intros Hrun. apply IH in Hrun.
      assert (return_code = 0%Z) as ->
        by by destruct (decide (return_code = 0%Z)).
      destruct r as [code|]; simpl in Hrun.
      * destruct Hrun as (Hcode' & done & cmd & rest' & -> & ->).
        split; [done|]. exists (command :: done), cmd, rest'.
        split; [done|]. by rewrite <- app_assoc.
      * by rewrite Hrun, <- app_assoc.
Qed.


Lemma quiet_succeeded commands : Forall (quiet false) (succeeded <$> commands).
Proof. apply Forall_fmap, Forall_true. intros command. by exists command. Qed.

Lemma quiet_written commands : Forall (quiet true) (Write <$> commands).
Proof. apply Forall_fmap, Forall_true. intros command. by exists command. Qed.

Lemma run_tasks_spec config request names st result st' :
  run_tasks config request names st = (result, st') →
  ∃ new,
    events st' = events st ++ new
    ∧ ((Forall (quiet (request_dry_run request)) new
        ∧ (result = Return 0%Z ∨ ∃ e, result = Raise e))
       ∨ (∃ code before task_name after w task done cmd rest ran,
            result = Return code ∧ code ≠ 0%Z
            ∧ request_dry_run request = false
            ∧ names = before ++ task_name :: after
            ∧ Config_get_task w config task_name (request_variables request)
              = Return task
            ∧ steps task = done ++ cmd :: rest
            ∧ new = ran ++ (succeeded <$> done)
                    ++ [Run cmd code;
                        WriteError (failed_message task_name code)]
            ∧ Forall (quiet false) ran)).
Proof.
  revert st. induction names as [|task_name names IH]; intros st; simpl.
  { intros [= <- <-]. exists []. split; [by rewrite app_nil_r|].
    left. split; [constructor|by left]. }
  destruct (Config_get_task _ _ _ _) as [task|e] eqn:Htask.
  2: { intros [= <- <-]. exists []. split; [by rewrite app_nil_r|].
       left. split; [constructor|right; by eexists]. }
  destruct (request_dry_run request) eqn:Hdry.
  { rewrite run_commands_dry_run. intros Hrest.
    apply IH in Hrest as (new2 & Hev2 & Hcases). simpl in Hev2.
    exists ((Write <$> steps task) ++ new2).
    split; [by rewrite Hev2, app_assoc|].
    destruct Hcases as [[Hquiet2 Hres]|Hfail].
    - left. split; [|done]. apply Forall_app. split; [apply quiet_written|done].
    - destruct Hfail as (? & ? & ? & ? & ? & ? & ? & ? & ? & ? & _ & _ & [=] & _). }
  destruct (run_commands _ _ _ _) as [[code|] st1] eqn:Hrun;
    apply run_commands_run in Hrun.
  - intros [= <- <-].
    destruct Hrun as (Hcode & done & cmd & rest & Hsteps & Hev).
    eexists. split; [done|]. right.
    exists code, [], task_name, names, (world st), task, done, cmd, rest, [].
    split_and!; [done|done|done|done|done|done|done|constructor].
  - intros Hrest. apply IH in Hrest as (new2 & Hev2 & Hcases).
    exists ((succeeded <$> steps task) ++ new2).
    split; [by rewrite Hev2, Hrun, app_assoc|].
    destruct Hcases as [[Hquiet2 Hres]
      |(code & before & name & after & w & task' & done & cmd & rest & ran
        & -> & Hcode & _ & -> & Hget & Hsteps & -> & Hran)].
    + left. split; [|done].
      apply Forall_app. split; [apply quiet_succeeded|done].
    + right.
      exists code, (task_name :: before), name, after, w, task', done, cmd,
             rest, ((succeeded <$> steps task) ++ ran).
      split_and!; [done|done|done|done|done|done| |].
      * by rewrite <- app_assoc.
      * apply Forall_app. split; [apply quiet_succeeded|done].
Qed.

End ServiceProperties.

Lemma unknown_tasks_stop_before_running_witness :
  let request := mkRequest ["unknown-task-1"; "test-1"; "unknown-task-2"] ∅ false in
  let message :=
    unknown_message plain_repr (unknown_tasks config_two_tasks request) in
  Service_execute plain_repr config_two_tasks request (stub_state 0)
  = (Return 1%Z, mkState (executor (stub_state 0)) (world (stub_state 0))
                         (events (stub_state 0) ++ [WriteError message]))
  ∧ (∀ name, name ∈ request_tasks request →
       tasks config_two_tasks !! name = None →
       name ∈ unknown_tasks config_two_tasks request
       ∧ (occurs_in name message ∨ occurs_in (plain_repr name) message)).
Proof.
  apply (unknown_tasks_stop_before_running plain_repr config_two_tasks
           (mkRequest ["unknown-task-1"; "test-1"; "unknown-task-2"] ∅ false)
           (stub_state 0) "unknown-task-2").
  - apply elem_of_cons; right. apply elem_of_cons; right.
    apply elem_of_cons; by left.
  - vm_compute; reflexivity.
Defined.

(** The unknown tasks of the service tests: one line for both names. *)
Example unknown_tasks_example :
  Service_execute plain_repr (mkConfig ∅ ∅)
    (mkRequest ["unknown-task-1"; "unknown-task-2"] ∅ false) (stub_state 0)
  = (Return 1%Z,
     mkState (mkErrorStub [] 0) world_empty
       [WriteError
          "task: error: tasks do not exist: ['unknown-task-1', 'unknown-task-2']"])
  ∧ Service_execute plain_repr (mkConfig ∅ ∅)
      (mkRequest ["unknown-task"] ∅ false) (stub_state 0)
    = (Return 1%Z,
       mkState (mkErrorStub [] 0) world_empty
         [WriteError "task: error: task do not exist: 'unknown-task'"]).
Proof. split; vm_compute; reflexivity. Qed.


(** The failing runs of the service tests. *)
Example failing_command_example :
  Service_execute plain_repr config_two_tasks
    (mkRequest ["test-1"; "test-2"] ∅ false) (stub_state 0)
  = (Return 1%Z,
     mkState (mkErrorStub ["do test-1"] 0) world_empty
       [Run "do test-1" 1;
        WriteError "task: error: task test-1 failed with exit code 1"])
  ∧ Service_execute plain_repr config_two_tasks
      (mkRequest ["test-1"; "test-2"] ∅ false) (stub_state 1)
    = (Return 1%Z,
       mkState (mkErrorStub ["do test-1"; "do test-2"] 1) world_empty
         [Run "do test-1" 0; Run "do test-2" 1;
          WriteError "task: error: task test-2 failed with exit code 1"]).
Proof. split; vm_compute; reflexivity. Qed.

(** ** Placeholders: matching and replacing *)

Lemma str_length_app s1 s2 :
  String.length (s1 +:+ s2) = String.length s1 + String.length s2.
Proof.
  induction s1 as [|c s1 IH]; [done|].
  rewrite str_app_cons. simpl. by rewrite IH.
Qed.

Lemma prefix_app x rest : String.prefix x (x +:+ rest) = true.
Proof.
  induction x as [|c x IH]; [by destruct rest|].
  rewrite str_app_cons. simpl. by destruct (ascii_dec c c).
Qed.

Lemma prefix_cons_dec a p c s :
  String.prefix (String a p) (String c s)
  = if ascii_dec a c then String.prefix p s else false.
Proof. reflexivity. Qed.

Lemma prefix_head_neq a p c s :
  a ≠ c → String.prefix (String a p) (String c s) = false.
Proof. intros Hne. simpl. by destruct (ascii_dec a c). Qed.

Lemma prefix_cons a p s :
  String.prefix (String a p) (String a s) = String.prefix p s.
Proof. simpl. by destruct (ascii_dec a a). Qed.

Lemma strip_prefix_app p s : strip_prefix p (p +:+ s) = Some s.
Proof.
  induction p as [|c p IH]; [by destruct s|].
  rewrite str_app_cons. simpl. by rewrite Ascii.eqb_refl.
Qed.

Lemma dollar_free_cons c s :
  dollar_free (String c s) = true → c ≠ "$"%char ∧ dollar_free s = true.
Proof.
  unfold dollar_free. simpl. intros [Hc Hs]%andb_true_iff. split; [|done].
  apply negb_true_iff in Hc. by apply Ascii.eqb_neq.
Qed.

Lemma dollar_free_app s1 s2 :
  dollar_free s1 = true → dollar_free s2 = true →
  dollar_free (s1 +:+ s2) = true.
Proof.
  intros H1 H2. induction s1 as [|c s1 IH]; [done|].
  rewrite str_app_cons. unfold dollar_free in *. simpl in *.
  apply andb_true_iff in H1 as [-> H1]. simpl. by apply IH.
Qed.

Lemma name_char_not_dollar c : is_name_char c = true → c ≠ "$"%char.
Proof. by intros Hc ->. Qed.

Lemma name_char_not_brace c : is_name_char c = true → c ≠ "}"%char.
Proof. by intros Hc ->. Qed.

Lemma name_dollar_free n : str_forall is_name_char n = true → dollar_free n = true.
Proof.
  induction n as [|c n IH]; [done|]. unfold dollar_free in *. simpl.
  intros [Hc Hn]%andb_true_iff. rewrite (IH Hn), andb_true_r.
  apply negb_true_iff, Ascii.eqb_neq. by apply name_char_not_dollar.
Qed.

Lemma placeholder_cons n : placeholder n = String "$" ("{var." +:+ n +:+ "}").
Proof. reflexivity. Qed.

Lemma placeholder_tail_dollar_free n :
  str_forall is_name_char n = true → dollar_free ("{var." +:+ n +:+ "}") = true.
Proof.
  intros Hn. apply (dollar_free_app "{var."); [done|].
  apply dollar_free_app; [by apply name_dollar_free|done].
Qed.

(** Two placeholders of names made of name characters agree at the head
    of a string only when the names are equal. *)
Lemma name_prefix_inv n m rest :
  str_forall is_name_char n = true → str_forall is_name_char m = true →
  String.prefix (n +:+ "}") (m +:+ "}" +:+ rest) = true → n = m.
Proof.
  revert m. induction n as [|a n IH]; intros [|b m] Hn Hm; simpl in Hn, Hm.
  - done.
  - rewrite !str_app_cons. change ("" +:+ "}") with (String "}" "").
    rewrite prefix_cons_dec. destruct (ascii_dec "}" b) as [<-|]; [|done].
    apply andb_true_iff in Hm as [Hb _]. by apply name_char_not_brace in Hb.
  - change (String.prefix (String a (n +:+ "}")) (String "}" rest) = true
            → String a n = "").
    rewrite prefix_cons_dec. destruct (ascii_dec a "}") as [->|]; [|done].
    apply andb_true_iff in Hn as [Ha _]. by apply name_char_not_brace in Ha.
  - rewrite !str_app_cons, prefix_cons_dec.
    apply andb_true_iff in Hn as [_ Hn]. apply andb_true_iff in Hm as [_ Hm].
    destruct (ascii_dec a b) as [->|]; [|done].
    intros Hpre. f_equal. by apply IH.
Qed.

Lemma placeholder_prefix_inv n m rest :
  str_forall is_name_char n = true → str_forall is_name_char m = true →
  String.prefix (placeholder n) (placeholder m +:+ rest) = true → n = m.
Proof.
  intros Hn Hm. unfold placeholder. rewrite !str_app_assoc.
  change ("${var." +:+ n +:+ "}")
    with (String "$" (String "{" (String "v" (String "a" (String "r"
            (String "." (n +:+ "}"))))))).
  change ("${var." +:+ m +:+ "}" +:+ rest)
    with (String "$" (String "{" (String "v" (String "a" (String "r"
            (String "." (m +:+ "}" +:+ rest))))))).
  rewrite !prefix_cons. by apply name_prefix_inv.
Qed.

Lemma replace_from_cons0 old new c s :
  replace_from old new 0 (String c s)
  = if String.prefix old (String c s)
    then new +:+ replace_from old new (String.length old - 1) s
    else String c (replace_from old new 0 s).
Proof. reflexivity. Qed.

Lemma replace_from_skip old new x rest :
  replace_from old new (String.length x) (x +:+ rest)
  = replace_from old new 0 rest.
Proof.
  induction x as [|c x IH]; [by destruct rest|].
  rewrite str_app_cons. simpl. apply IH.
Qed.

(** An occurrence at the head is replaced and the scan resumes after it. *)
Lemma replace_from_match c old' new rest :
  replace_from (String c old') new 0 (String c old' +:+ rest)
  = new +:+ replace_from (String c old') new 0 rest.
Proof.
  rewrite str_app_cons, replace_from_cons0.
  rewrite <- str_app_cons, prefix_app.
  replace (String.length (String c old') - 1) with (String.length old')
    by (simpl; lia).
  by rewrite replace_from_skip.
Qed.

(** Text with no dollar sign holds no occurrence of a placeholder. *)
Lemma replace_from_text old' new text rest :
  dollar_free text = true →
  replace_from (String "$" old') new 0 (text +:+ rest)
  = text +:+ replace_from (String "$" old') new 0 rest.
Proof.
  induction text as [|c text IH]; intros Htext; [done|].
  apply dollar_free_cons in Htext as [Hc Htext].
  rewrite !str_app_cons, replace_from_cons0, prefix_head_neq by done.
  by rewrite IH.
Qed.

Lemma findall_from_cons0 c s :
  findall_from 0 (String c s)
  = match match_variable (String c s) with
    | Some (name, _) => name :: findall_from (6 + String.length name) s
    | None => findall_from 0 s
    end.
Proof. reflexivity. Qed.

Lemma findall_from_skip x rest :
  findall_from (String.length x) (x +:+ rest) = findall_from 0 rest.
Proof.
  induction x as [|c x IH]; [by destruct rest|].
  rewrite str_app_cons. simpl. apply IH.
Qed.

Lemma match_variable_not_dollar c s :
  c ≠ "$"%char → match_variable (String c s) = None.
Proof.
  intros Hc. unfold match_variable.
  change (strip_prefix "${var." (String c s))
    with (if Ascii.eqb "$" c then strip_prefix "{var." s else None).
  assert (Ascii.eqb "$" c = false) as -> by (apply Ascii.eqb_neq; congruence).
  done.
Qed.

Lemma span_name_cons c s :
  span_name (String c s)
  = if is_name_char c
    then let '(name, rest) := span_name s in (String c name, rest)
    else ("", String c s).
Proof. reflexivity. Qed.

Lemma span_name_app n rest :
  str_forall is_name_char n = true →
  span_name (n +:+ "}" +:+ rest) = (n, "}" +:+ rest).
Proof.
  induction n as [|c n IH]; intros Hn; [done|].
  simpl in Hn. apply andb_true_iff in Hn as [Hc Hn].
  by rewrite str_app_cons, span_name_cons, Hc, IH.
Qed.

Lemma match_variable_placeholder n rest :
  str_forall is_name_char n = true →
  match_variable (placeholder n +:+ rest) = Some (n, rest).
Proof.
  intros Hn. unfold match_variable, placeholder.
  rewrite str_app_assoc, strip_prefix_app, str_app_assoc.
  by rewrite span_name_app.
Qed.

Lemma findall_from_text text rest :
  dollar_free text = true →
  findall_from 0 (text +:+ rest) = findall_from 0 rest.
Proof.
  induction text as [|c text IH]; intros Htext; [done|].
  apply dollar_free_cons in Htext as [Hc Htext].
  rewrite str_app_cons, findall_from_cons0, match_variable_not_dollar by done.
  by apply IH.
Qed.

Lemma findall_from_placeholder n rest :
  str_forall is_name_char n = true →
  findall_from 0 (placeholder n +:+ rest) = n :: findall_from 0 rest.
Proof.
  intros Hn.
  pose proof (match_variable_placeholder n rest Hn) as Hmatch.
  rewrite placeholder_cons, str_app_cons in *.
  rewrite findall_from_cons0, Hmatch. f_equal.
  rewrite <- (findall_from_skip ("{var." +:+ n +:+ "}") rest). f_equal.
  rewrite !str_length_app. simpl. lia.
Qed.

(** ** Substitution of variables *)

Lemma render_lit text toks : render (Lit text :: toks) = text +:+ render toks.
Proof. reflexivity. Qed.

Lemma render_var m toks : render (Var m :: toks) = placeholder m +:+ render toks.
Proof. reflexivity. Qed.

Lemma fill_one_lit n v text toks :
  fill_one n v (Lit text :: toks) = Lit text :: fill_one n v toks.
Proof. reflexivity. Qed.

Lemma fill_one_var n v m toks :
  fill_one n v (Var m :: toks)
  = (if decide (m = n) then Lit v else Var m) :: fill_one n v toks.
Proof. reflexivity. Qed.

Lemma replace_render n v toks :
  str_forall is_name_char n = true →
  Forall (fun t => token_ok t = true) toks →
  replace_from (placeholder n) v 0 (render toks) = render (fill_one n v toks).
Proof.
  intros Hn. induction 1 as [|[text|m] toks Hok _ IH]; [done|..]; simpl in Hok.
  - rewrite fill_one_lit, !render_lit, <- IH, (placeholder_cons n).
    by apply replace_from_text.
  - rewrite fill_one_var, render_var.
    destruct (decide (m = n)) as [->|Hne].
    + rewrite render_lit, <- IH, (placeholder_cons n).
      apply replace_from_match.
    + assert (String.prefix (placeholder n) (placeholder m +:+ render toks)
              = false) as Hpre.
      { destruct (String.prefix _ _) eqn:Hpre; [|done].
        apply placeholder_prefix_inv in Hpre; [congruence|done..]. }
      rewrite render_var, <- IH.
      rewrite (placeholder_cons m) in *.
      pose proof (placeholder_tail_dollar_free m Hok) as Htail.
      set (tail := "{var." +:+ m +:+ "}") in *.
      rewrite !str_app_cons in *.
      rewrite replace_from_cons0, Hpre. f_equal.
      rewrite (placeholder_cons n).
      by apply replace_from_text.
Qed.

Lemma str_replace_render n v toks :
  str_forall is_name_char n = true →
  Forall (fun t => token_ok t = true) toks →
  str_replace (render toks) (placeholder n) v = render (fill_one n v toks).
Proof. apply replace_render. Qed.

Lemma findall_render toks :
  Forall (fun t => token_ok t = true) toks →
  findall (render toks) = token_names toks.
Proof.
  unfold findall.
  induction 1 as [|[text|m] toks Hok _ IH]; [done|..]; simpl in Hok.
  - by rewrite render_lit, findall_from_text.
  - rewrite render_var, findall_from_placeholder by done. simpl. by f_equal.
Qed.

Lemma fill_one_ok n v toks :
  dollar_free v = true →
  Forall (fun t => token_ok t = true) toks →
  Forall (fun t => token_ok t = true) (fill_one n v toks).
Proof.
  intros Hv. induction 1 as [|[text|m] toks Hok _ IH]; simpl.
  - constructor.
  - by constructor.
  - constructor; [|done]. by destruct (decide (m = n)).
Qed.

Lemma fill_fill_one val n toks :
  fill val (fill_one n (val n) toks) = fill val toks.
Proof.
  induction toks as [|[text|m] toks IH]; simpl; [done|by rewrite IH|].
  destruct (decide (m = n)) as [->|]; simpl; by rewrite IH.
Qed.

Lemma token_names_fill_one n v toks m :
  m ∈ token_names (fill_one n v toks) → m ∈ token_names toks ∧ m ≠ n.
Proof.
  induction toks as [|[text|m'] toks IH]; simpl; [by intros ?%elem_of_nil|done|].
  destruct (decide (m' = n)) as [->|Hne]; simpl.
  - intros [Hin Hm]%IH. split; [by right|done].
  - intros [->|Hin]%elem_of_cons; [split; [by left|done]|].
    destruct (IH Hin) as [Hin' Hm]. split; [by right|done].
Qed.

Lemma render_no_names val toks :
  token_names toks = [] → render toks = fill val toks.
Proof.
  induction toks as [|[text|m] toks IH]; simpl; [done| |done].
  intros Hnames. by rewrite IH.
Qed.

Lemma token_names_ok toks n :
  Forall (fun t => token_ok t = true) toks →
  n ∈ token_names toks → str_forall is_name_char n = true.
Proof.
  induction 1 as [|[text|m] toks Hok _ IH]; simpl.
  - by intros ?%elem_of_nil.
  - done.
  - intros [->|Hin]%elem_of_cons; [done|by apply IH].
Qed.

Lemma fill_occurs val toks n :
  n ∈ token_names toks → occurs_in (val n) (fill val toks).
Proof.
  induction toks as [|[text|m] toks IH]; simpl.
  - by intros ?%elem_of_nil.
  - intros Hin. by apply occurs_in_app_r, IH.
  - intros [->|Hin]%elem_of_cons.
    + apply occurs_in_app_l, occurs_in_refl.
    + by apply occurs_in_app_r, IH.
Qed.

Lemma outcome_bind_Return {A B : Type} (a : A) (k : A → outcome B) :
  (Return a ≫= k) = k a.
Proof. reflexivity. Qed.

Lemma replace_variables_cons value n names step :
  replace_variables value (n :: names) step
  = (value n ≫= fun v =>
       replace_variables value names (str_replace step (placeholder n) v)).
Proof. reflexivity. Qed.

Lemma get_task_loop_cons value step rest resolved_steps :
  get_task_loop value (step :: rest) resolved_steps
  = (replace_variables value (findall step) step ≫= fun step' =>
       get_task_loop value rest (resolved_steps ++ [step'])).
Proof. reflexivity. Qed.

(** The loop over the names replaces them one after the other; on the
    tokens each round turns the placeholders of one name into text. *)
Lemma replace_variables_tokens value val names toks :
  Forall (fun t => token_ok t = true) toks →
  (∀ n, n ∈ names →
        str_forall is_name_char n = true
        ∧ value n = Return (val n) ∧ dollar_free (val n) = true) →
  ∃ toks',
    replace_variables value names (render toks) = Return (render toks')
    ∧ fill val toks' = fill val toks
    ∧ ∀ m, m ∈ token_names toks' → m ∈ token_names toks ∧ m ∉ names.
Proof.
  revert toks. induction names as [|n names IH]; intros toks Hok Hnames.
  - exists toks. split_and!; [done..|].
    intros m Hm. split; [done|apply not_elem_of_nil].
  - destruct (Hnames n) as (Hn & Hvalue & Hfree); [by left|].
    rewrite replace_variables_cons, Hvalue, outcome_bind_Return.
    rewrite str_replace_render by done.
    destruct (IH (fill_one n (val n) toks)) as (toks' & Hres & Hfill & Hleft).
    { by apply fill_one_ok. }
    { intros n' Hn'. apply Hnames. by right. }
    exists toks'. split_and!; [done|by rewrite Hfill, fill_fill_one|].
    intros m Hm. destruct (Hleft m Hm) as [Hin Hnotin].
    apply token_names_fill_one in Hin as [Hin Hne].
    split; [done|]. by intros [->|?]%elem_of_cons.
Qed.

Lemma replace_variables_render value val toks :
  Forall (fun t => token_ok t = true) toks →
  (∀ n, n ∈ token_names toks →
        value n = Return (val n) ∧ dollar_free (val n) = true) →
  replace_variables value (findall (render toks)) (render toks)
  = Return (fill val toks).
Proof.
  intros Hok Hvalues. rewrite findall_render by done.
  destruct (replace_variables_tokens value val (token_names toks) toks Hok)
    as (toks' & -> & <- & Hleft).
  { intros n Hn. destruct (Hvalues n Hn). split_and!; [|done..].
    by eapply token_names_ok. }
  f_equal. apply render_no_names.
  destruct (token_names toks') as [|m rest] eqn:Hnames; [done|].
  destruct (Hleft m) as [Hin Hnotin]; [by left|done].
Qed.

Lemma get_task_loop_tokens value val tokss resolved_steps :
  Forall (Forall (fun t => token_ok t = true)) tokss →
  (∀ toks n, toks ∈ tokss → n ∈ token_names toks →
             value n = Return (val n) ∧ dollar_free (val n) = true) →
  get_task_loop value (render <$> tokss) resolved_steps
  = Return (mkTask (resolved_steps ++ (fill val <$> tokss))).
Proof.
  intros Hok. revert resolved_steps.
  induction Hok as [|toks tokss Htoks _ IH]; intros resolved_steps Hvalues.
  - simpl. by rewrite app_nil_r.
  - rewrite fmap_cons, get_task_loop_cons.
    rewrite (replace_variables_render value val) by
      first [done|intros n Hn; apply (Hvalues toks); [by left|done]].
    rewrite outcome_bind_Return, IH.
    + by rewrite <- app_assoc.
    + intros toks' n Hin. apply Hvalues. by right.
Qed.

Lemma Config_get_task_tokens w config task_name override_variables task tokss val :
  tasks config !! task_name = Some task →
  steps task = render <$> tokss →
  Forall (Forall (fun t => token_ok t = true)) tokss →
  (∀ toks name, toks ∈ tokss → name ∈ token_names toks →
     variable_value w config override_variables name = Return (val name)
     ∧ dollar_free (val name) = true) →
  Config_get_task w config task_name override_variables
  = Return (mkTask (fill val <$> tokss)).
Proof.
  intros Htask Hsteps Hok Hvalues. unfold Config_get_task, getitem.
  rewrite Htask. simpl. rewrite Hsteps.
  by rewrite (get_task_loop_tokens _ val).
Qed.

(** C7. [get_task] at the failing input.  The value of [a] is the text
    of the placeholder of [b].  Where the placeholder of [a] stands alone
    in a step, or after the placeholder of [b], [get_task] puts the value
    of [a] in its place and leaves it there, as the claim says.  Where
    the placeholder of [b] comes later in the same step, the value of
    [a], once in place, is replaced again in the round of [b]: the step
    returned does not hold the value of [a] where its placeholder stood,
    and the result depends on the order of the placeholders.  The same
    happens when the value of [a] lands between text that, with it, reads
    as the placeholder of [b]. *)
Lemma value_with_placeholder_replaced_again :
  let val := fun name => if decide (name = "a") then "${var.b}" else "B" in
  let val' := fun name => if decide (name = "a") then "b" else "B" in
  variable_value world_empty config_nested_orders ∅ "a" = Return (val "a")
  ∧ variable_value world_empty config_nested_orders ∅ "b" = Return (val "b")
  ∧ Config_get_task world_empty config_nested_orders "alone" ∅
    = Return (mkTask [fill val [Var "a"]])
  ∧ fill val [Var "a"] = "${var.b}"
  ∧ Config_get_task world_empty config_nested_orders "last" ∅
    = Return (mkTask [fill val [Var "b"; Lit " "; Var "a"]])
  ∧ fill val [Var "b"; Lit " "; Var "a"] = "B ${var.b}"
  ∧ steps (mkTask ["${var.a} ${var.b}"]) = [render [Var "a"; Lit " "; Var "b"]]
  ∧ findall "${var.a} ${var.b}" = ["a"; "b"]
  ∧ fill val [Var "a"; Lit " "; Var "b"] = "${var.b} B"
  ∧ Config_get_task world_empty config_nested_orders "first" ∅
    = Return (mkTask ["B B"])
  ∧ Config_get_task world_empty config_nested_orders "first" ∅
    ≠ Return (mkTask [fill val [Var "a"; Lit " "; Var "b"]])
  ∧ variable_value world_empty config_nested ∅ "a" = Return (val "a")
  ∧ variable_value world_empty config_nested ∅ "b" = Return (val "b")
  ∧ Config_get_task world_empty config_nested "t" ∅ = Return (mkTask ["B B"])
  ∧ steps (mkTask ["${var.${var.a}} ${var.b}"])
    = [render [Lit "${var."; Var "a"; Lit "} "; Var "b"]]
  ∧ findall "${var.${var.a}} ${var.b}" = ["a"; "b"]
  ∧ variable_value world_empty config_joined ∅ "a" = Return (val' "a")
  ∧ variable_value world_empty config_joined ∅ "b" = Return (val' "b")
  ∧ fill val' [Lit "${var."; Var "a"; Lit "} "; Var "b"] = "${var.b} B"
  ∧ Config_get_task world_empty config_joined "t" ∅ = Return (mkTask ["B B"]).
Proof.
  assert (Config_get_task world_empty config_nested_orders "first" ∅
          = Return (mkTask ["B B"])) as Hget by (vm_compute; reflexivity).
  split_and!; try (vm_compute; reflexivity).
  rewrite Hget. intros [=].
Qed.

(** X30. Let the steps of a task be made of text without dollar sign
    and of placeholders, and let every name in a placeholder have a
    value (from the override when the variable comes from a definition
    and the name is overridden, from the variable otherwise) that holds
    no dollar sign.  Then [get_task] returns the steps with every
    occurrence of every placeholder, several in a step and repeated ones
    alike, replaced by the value of its name. *)
Theorem placeholders_replaced_by_values
    w config task_name override_variables task tokss val :
  tasks config !! task_name = Some task →
  steps task = render <$> tokss →
  Forall (Forall (fun t => token_ok t = true)) tokss →
  (∀ toks name, toks ∈ tokss → name ∈ token_names toks →
     variable_value w config override_variables name = Return (val name)
     ∧ dollar_free (val name) = true) →
  Config_get_task w config task_name override_variables
  = Return (mkTask (fill val <$> tokss))
  ∧ (∀ toks name variable o,
       toks ∈ tokss → name ∈ token_names toks →
       variables config !! name = Some variable → from_definition variable →
       override_variables !! name = Some o →
       val name = o).
Proof.
  intros Htask Hsteps Hok Hvalues. split.
  - by eapply Config_get_task_tokens.
  - intros toks name variable o Htoks Hname Hvar Hdef Ho.
    destruct (Hvalues toks name Htoks Hname) as [Hvalue _].
    unfold variable_value, getitem in Hvalue.
    rewrite Hvar, outcome_bind_Return, Variable_get_no_dry_run, Ho in Hvalue.
    destruct Hdef as (n & env & file & default & Hgetter).
    rewrite Hgetter in Hvalue. simpl in Hvalue. congruence.
Qed.

Lemma placeholders_replaced_by_values_witness :
  Config_get_task world_empty config_echo "test" {[ "foo" := "other value" ]}
  = Return (mkTask (fill values_echo <$> [tokens_echo]))
  ∧ (∀ toks name variable o,
       toks ∈ [tokens_echo] → name ∈ token_names toks →
       variables config_echo !! name = Some variable →
       from_definition variable →
       ({[ "foo" := "other value" ]} : gmap string string) !! name = Some o →
       values_echo name = o).
Proof.
  apply (placeholders_replaced_by_values world_empty config_echo "test"
           {[ "foo" := "other value" ]}
           (mkTask ["echo '${var.foo}' ${var.token} ${var.foo}"])
           [tokens_echo] values_echo).
  - vm_compute; reflexivity.
  - reflexivity.
  - repeat constructor.
  - intros toks name ->%list_elem_of_singleton Hname.
    change (token_names tokens_echo) with ["foo"; "token"; "foo"] in Hname.
    repeat (apply elem_of_cons in Hname as [->|Hname];
            [split; vm_compute; reflexivity|]).
    by apply elem_of_nil in Hname.
Defined.

(** The step of the example after substitution. *)
Example get_task_example :
  Config_get_task world_empty config_echo "test" {[ "foo" := "other value" ]}
  = Return (mkTask ["echo 'other value' hunter2 other value"])
  ∧ Config_get_task world_empty config_echo "test" ∅
    = Return (mkTask ["echo 'default value' hunter2 default value"]).
Proof. split; vm_compute; reflexivity. Qed.

(** ** Secrets in the execution pipeline *)

Lemma variable_value_raw w config override_variables name variable :
  variables config !! name = Some variable →
  variable_value w config override_variables name
  = getter variable w (override_variables !! name).
Proof.
  intros Hvar. unfold variable_value, getitem.
  by rewrite Hvar, outcome_bind_Return, Variable_get_no_dry_run.
Qed.

Lemma variable_value_clear_secrets w config override_variables name :
  variable_value w (clear_secrets config) override_variables name
  = variable_value w config override_variables name.
Proof.
  unfold variable_value, getitem, clear_secrets. simpl.
  rewrite lookup_fmap.
  destruct (variables config !! name) as [variable|]; [|done]. simpl.
  by rewrite !Variable_get_no_dry_run.
Qed.

Lemma replace_variables_ext value1 value2 names step :
  (∀ name, value1 name = value2 name) →
  replace_variables value1 names step = replace_variables value2 names step.
Proof.
  intros Hext. revert step.
  induction names as [|n names IH]; intros step; [done|].
  rewrite !replace_variables_cons, Hext.
  destruct (value2 n) as [v|e]; [|done].
  rewrite !outcome_bind_Return. apply IH.
Qed.

Lemma get_task_loop_ext value1 value2 task_steps resolved_steps :
  (∀ name, value1 name = value2 name) →
  get_task_loop value1 task_steps resolved_steps
  = get_task_loop value2 task_steps resolved_steps.
Proof.
  intros Hext. revert resolved_steps.
  induction task_steps as [|step rest IH]; intros resolved_steps; [done|].
  rewrite !get_task_loop_cons, (replace_variables_ext value1 value2) by done.
  destruct (replace_variables value2 _ _) as [step'|e]; [|done].
  rewrite !outcome_bind_Return. apply IH.
Qed.

(** [get_task] does not look at the secret flags. *)
Lemma Config_get_task_clear_secrets w config task_name override_variables :
  Config_get_task w (clear_secrets config) task_name override_variables
  = Config_get_task w config task_name override_variables.
Proof.
  unfold Config_get_task. simpl.
  destruct (getitem (tasks config) task_name) as [task|e]; [|done].
  rewrite !outcome_bind_Return. apply get_task_loop_ext.
  apply variable_value_clear_secrets.
Qed.

Lemma elem_of_concat_intro {A : Type} (x : A) l ls :
  x ∈ l → l ∈ ls → x ∈ concat ls.
Proof.
  intros Hx. induction ls as [|l' ls IH]; [by intros ?%elem_of_nil|].
  intros [->|Hin]%elem_of_cons; simpl; apply elem_of_app; [by left|].
  right. by apply IH.
Qed.

Section DryRun.
Context {E : Type} `{!Executor E}.
Variable repr : string → string.

Lemma run_tasks_dry_run config request names st :
  request_dry_run request = true →
  (∀ name, name ∈ names →
     ∃ task, Config_get_task (world st) config name (request_variables request)
             = Return task) →
  run_tasks config request names st
  = (Return 0%Z,
     mkState (executor st) (world st)
       (events st ++ (Write <$> resolved_commands (world st) config
                                  (request_variables request) names))).
Proof.
  intros Hdry. revert st.
  induction names as [|name names IH]; intros st Hall.
  - simpl. rewrite app_nil_r. by destruct st.
  - destruct (Hall name) as [task Htask]; [by left|].
    simpl. rewrite Htask, Hdry, run_commands_dry_run, IH.
    + simpl. unfold resolved_commands. simpl.
      by rewrite Htask, fmap_app, app_assoc.
    + intros name' Hin. simpl. apply Hall. by right.
Qed.

(** C10. [get_task] asks every variable for its value with [dry_run]
    false: the value it puts in the commands is what the getter returns,
    secret or not, and the secret flags change nothing in its result.
    So a dry run, which prints the commands of [get_task] and runs
    nothing, prints the values of secret variables as they are. *)
Theorem dry_run_prints_raw_values config request st :
  request_dry_run request = true →
  unknown_tasks config request = [] →
  (∀ name, name ∈ request_tasks request →
     ∃ task, Config_get_task (world st) config name (request_variables request)
             = Return task) →
  let w := world st in
  let overrides := request_variables request in
  let printed := resolved_commands w config overrides (request_tasks request) in
  Service_execute repr config request st
  = (Return 0%Z, mkState (executor st) w (events st ++ (Write <$> printed)))
  ∧ (∀ name variable,
       variables config !! name = Some variable →
       variable_value w config overrides name
       = getter variable w (overrides !! name))
  ∧ (∀ name, Config_get_task w (clear_secrets config) name overrides
             = Config_get_task w config name overrides)
  ∧ (∀ task_name task tokss val,
       task_name ∈ request_tasks request →
       tasks config !! task_name = Some task →
       steps task = render <$> tokss →
       Forall (Forall (fun t => token_ok t = true)) tokss →
       (∀ toks name, toks ∈ tokss → name ∈ token_names toks →
          ∃ variable,
            variables config !! name = Some variable
            ∧ getter variable w (overrides !! name) = Return (val name)
            ∧ dollar_free (val name) = true) →
       ∀ toks, toks ∈ tokss →
         fill val toks ∈ printed
         ∧ ∀ name, name ∈ token_names toks →
             occurs_in (val name) (fill val toks)).
Proof.
  intros Hdry Hknown Hall w overrides printed. split_and!.
  - unfold Service_execute. rewrite Hknown. by apply run_tasks_dry_run.
  - intros name variable. apply variable_value_raw.
  - intros name. apply Config_get_task_clear_secrets.
  - intros task_name task tokss val Hin Htask Hsteps Hok Hvalues toks Htoks.
    split; [|intros name; apply fill_occurs].
    assert (Config_get_task w config task_name overrides
            = Return (mkTask (fill val <$> tokss))) as Hget.
    { eapply Config_get_task_tokens; [done..|].
      intros toks' name Htoks' Hname.
      destruct (Hvalues toks' name Htoks' Hname) as (variable & Hvar & Hv & Hfree).
      split; [|done]. by rewrite (variable_value_raw _ _ _ _ variable). }
    apply (elem_of_concat_intro _ (fill val <$> tokss)).
    + by apply list_elem_of_fmap_2.
    + apply list_elem_of_fmap. exists task_name. by rewrite Hget.
Qed.
End DryRun.

Lemma dry_run_prints_raw_values_witness :
  let request := mkRequest ["test"] ∅ true in
  let st := stub_state 0 in
  let w := world st in
  let overrides := request_variables request in
  let printed :=
    resolved_commands w config_echo overrides (request_tasks request) in
  Service_execute plain_repr config_echo request st
  = (Return 0%Z, mkState (executor st) w (events st ++ (Write <$> printed)))
  ∧ (∀ name variable,
       variables config_echo !! name = Some variable →
       variable_value w config_echo overrides name
       = getter variable w (overrides !! name))
  ∧ (∀ name, Config_get_task w (clear_secrets config_echo) name overrides
             = Config_get_task w config_echo name overrides)
  ∧ (∀ task_name task tokss val,
       task_name ∈ request_tasks request →
       tasks config_echo !! task_name = Some task →
       steps task = render <$> tokss →
       Forall (Forall (fun t => token_ok t = true)) tokss →
       (∀ toks name, toks ∈ tokss → name ∈ token_names toks →
          ∃ variable,
            variables config_echo !! name = Some variable
            ∧ getter variable w (overrides !! name) = Return (val name)
            ∧ dollar_free (val name) = true) →
       ∀ toks, toks ∈ tokss →
         fill val toks ∈ printed
         ∧ ∀ name, name ∈ token_names toks →
             occurs_in (val name) (fill val toks)).
Proof.
  apply (dry_run_prints_raw_values plain_repr config_echo
           (mkRequest ["test"] ∅ true) (stub_state 0)).
  - reflexivity.
  - vm_compute; reflexivity.
  - intros name ->%list_elem_of_singleton. eexists. vm_compute; reflexivity.
Defined.

(** A dry run of the example prints the secret [token] as it is, while
    [Variable.get] with [dry_run] true would have masked it. *)
Example dry_run_secret_example :
  Service_execute plain_repr config_echo (mkRequest ["test"] ∅ true)
                  (stub_state 0)
  = (Return 0%Z,
     mkState (mkErrorStub [] 0) world_empty
       [Write "echo 'default value' hunter2 default value"])
  ∧ (∃ variable,
       variables config_echo !! "token" = Some variable
       ∧ secret variable = true
       ∧ Variable_get world_empty variable None true = Return "*******").
Proof.
  split; [vm_compute; reflexivity|].
  eexists. split_and!; vm_compute; reflexivity.
Qed.

(** * Further properties of the resolver *)

(** X1. The recursion of [_resolve_task] ends on every graph, cyclic or
    not: the call returns or raises, and a larger bound on the depth of
    the nested calls than the number of tasks plus one changes nothing. *)
Theorem resolution_terminates extra graph task_name parents :
  is_Some (_resolve_task graph task_name parents)
  ∧ resolve_task_fuel (S (size graph) + extra) graph task_name parents
    = _resolve_task graph task_name parents.
Proof.
  split; [apply _resolve_task_total|].
  unfold _resolve_task. destruct parents as [parents|].
  - pose proof (unvisited_le graph parents).
    apply resolve_task_fuel_irrelevant; lia.
  - rewrite !resolve_task_fuel_None.
    pose proof (unvisited_le graph []).
    apply resolve_task_fuel_irrelevant; lia.
Qed.

(** X2. What a task resolves to does not depend on who asks for it: a
    task that resolves as a dependency, under any ancestors, resolves to
    the same commands when it is resolved on its own. *)
Theorem dependency_resolves_alike graph task_name parents t :
  _resolve_task graph task_name (Some parents) = Some (Return t) →
  _resolve_task graph task_name None = Some (Return t).
Proof. apply _resolve_task_top. Qed.

Lemma dependency_resolves_alike_witness :
  _resolve_task graph_interleaved "A" None
  = Some (Return (mkTask ["a1"; "a2"])).
Proof.
  apply (dependency_resolves_alike graph_interleaved "A" ["T"; "B"]).
  vm_compute; reflexivity.
Defined.

Lemma resolve_steps_Raise_inv rec items resolved e :
  resolve_steps rec items resolved = Some (Raise e) →
  ∃ name, _TaskReference name ∈ items ∧ rec name = Some (Raise e).
Proof.
  revert resolved.
  induction items as [|[cmd_steps|name] rest IH]; intros resolved; simpl.
  - done.
  - intros (n & Hin & Hn)%IH. exists n. split; [by right|done].
  - destruct (rec name) as [[d|e']|] eqn:Hrec; [|intros [= ->]|done].
    + intros (n & Hin & Hn)%IH. exists n. split; [by right|done].
    + exists name. split; [by left|done].
Qed.

(** When the task exists, or there is an ancestor, a failure of the
    resolution is one of its own two errors. *)
Lemma resolve_task_fuel_raises fuel graph task_name parents e :
  parents ≠ [] ∨ is_Some (graph !! task_name) →
  resolve_task_fuel fuel graph task_name (Some parents) = Some (Raise e) →
  reference_error e.
Proof.
  revert task_name parents.
  induction fuel as [|fuel IH]; intros task_name parents Hcall; [done|]; simpl.
  case_bool_decide as Hin.
  { assert (is_Some (last parents)) as [p Hp].
    { apply last_is_Some. intros ->. by apply elem_of_nil in Hin. }
    unfold last_parent. rewrite Hp. by intros [= <-]. }
  destruct (graph !! task_name) as [definition|] eqn:Hdef.
  - intros (name & _ & Hname)%resolve_steps_Raise_inv.
    apply IH in Hname; [done|]. left. by destruct parents.
  - destruct Hcall as [Hne|[? [=]]].
    assert (is_Some (last parents)) as [p Hp] by by apply last_is_Some.
    unfold last_parent. rewrite Hp. by intros [= <-].
Qed.

Lemma _resolve_task_raises graph task_name e :
  is_Some (graph !! task_name) →
  _resolve_task graph task_name None = Some (Raise e) →
  reference_error e.
Proof.
  intros Hdef. unfold _resolve_task. rewrite resolve_task_fuel_None.
  apply resolve_task_fuel_raises. by right.
Qed.

Lemma reference_error_msg e : reference_error e → is_Some (exn_msg e).
Proof. by destruct e. Qed.

(** The loop of [_resolve_all_tasks] over names of the graph: it fills
    the dict with what each name resolves to, or stops at the first name
    that does not resolve. *)
Lemma resolve_all_tasks_loop_spec graph names tasks0 :
  (∀ name, name ∈ names → is_Some (graph !! name)) →
  ∃ r,
    resolve_all_tasks_loop graph names tasks0 = Some r
    ∧ match r with
      | Return tasks =>
          (∀ name, name ∈ names →
             ∃ t, _resolve_task graph name None = Some (Return t))
          ∧ ∀ name t,
              ((tasks !! name = Some t) ↔
               ((name ∈ names
                 ∧ _resolve_task graph name None = Some (Return t))
                ∨ ((name ∉ names) ∧ tasks0 !! name = Some t)))
      | Raise e =>
          ∃ before name after cause msg,
            names = before ++ name :: after
            ∧ (∀ n, n ∈ before →
                 ∃ t, _resolve_task graph n None = Some (Return t))
            ∧ _resolve_task graph name None = Some (Raise cause)
            ∧ reference_error cause
            ∧ exn_msg cause = Some msg
            ∧ e = InvalidTaskError name msg
      end.
Proof.
  revert tasks0. induction names as [|name names IH]; intros tasks0 Hkeys.
  { eexists. split; [done|]. split; [by intros ? ?%elem_of_nil|].
    intros name t. split; [intros ?; right; split; [apply not_elem_of_nil|done]|].
    by intros [[?%elem_of_nil _]|[_ ?]]. }
  simpl.
  destruct (_resolve_task_total graph name None) as [[t|cause] Hres];
    rewrite Hres.
  - destruct (IH (<[name := t]> tasks0)) as (r & -> & Hr).
    { intros n Hn. apply Hkeys. by right. }
    exists r. split; [done|]. destruct r as [tasks|e].
    + destruct Hr as [Hall Hmap]. split.
      * intros n [->|Hn]%elem_of_cons; [by exists t|by apply Hall].
      * intros n t'. rewrite Hmap. split.
        -- intros [[Hn Hn']|[Hn Hl]].
           ++ left. split; [by right|done].
           ++ destruct (decide (n = name)) as [->|Hne].
              ** rewrite lookup_insert_eq in Hl. injection Hl as <-.
                 left. split; [by left|done].
              ** rewrite lookup_insert_ne in Hl by done. right.
                 split; [|done]. by intros [?|?]%elem_of_cons.
        -- intros [[Hn Hn']|[Hn Hl]].
           ++ destruct (decide (n ∈ names)); [by left|]. right.
              split; [done|].
              apply elem_of_cons in Hn as [->|?]; [|done].
              rewrite lookup_insert_eq. congruence.
           ++ right. split; [intros ?; apply Hn; by right|].
              rewrite lookup_insert_ne; [done|].
              intros <-. apply Hn. by left.
    + destruct Hr as (before & n & after & cause & msg & -> & Hbefore & Hn
                      & Hcause & Hmsg & ->).
      exists (name :: before), n, after, cause, msg.
      split_and!; [done| |done..].
      intros n' [->|Hn']%elem_of_cons; [by exists t|by apply Hbefore].
  - assert (reference_error cause) as Hcause.
    { eapply _resolve_task_raises; [|done]. apply Hkeys. by left. }
    destruct (reference_error_msg cause Hcause) as [msg Hmsg]. rewrite Hmsg.
    eexists. split; [done|].
    exists [], name, names, cause, msg.
    split_and!; [done| |done..]. by intros ? ?%elem_of_nil.
Qed.

Lemma list_to_map_keys {A : Type} (items : list (string * A)) name :
  name ∈ items.*1 → is_Some ((list_to_map items : gmap string A) !! name).
Proof.
  intros Hin. destruct (list_to_map items !! name) eqn:Hnone; [by eexists|].
  by apply not_elem_of_list_to_map in Hnone.
Qed.

(** X3. When loading the tasks fails with [InvalidTaskError] for a
    task, that task is the first one, in the order of the file, that
    does not resolve; the tasks before it all resolve, and the message is
    the one of its circular-dependency or unknown-reference error.  The
    [IndexError] that [_resolve_task] raises when it is called directly on
    a name that is not in the graph never comes out of a load. *)
Theorem load_fails_on_first_bad_task items :
  (∀ task_name,
     (list_to_map items : gmap string _TaskDefinition) !! task_name = None →
     _resolve_task (list_to_map items) task_name None = Some (Raise IndexError))
  ∧ _resolve_all_tasks items ≠ Some (Raise IndexError)
  ∧ (∀ name msg,
       _resolve_all_tasks items = Some (Raise (InvalidTaskError name msg)) →
       ∃ before after cause,
         items.*1 = before ++ name :: after
         ∧ (∀ n, n ∈ before →
              ∃ t, _resolve_task (list_to_map items) n None
                   = Some (Return t))
         ∧ _resolve_task (list_to_map items) name None = Some (Raise cause)
         ∧ reference_error cause
         ∧ exn_msg cause = Some msg).
Proof.
  destruct (resolve_all_tasks_loop_spec (list_to_map items) items.*1 ∅)
    as (r & Hr & Hspec).
  { intros name. apply list_to_map_keys. }
  fold (_resolve_all_tasks items) in Hr.
  split_and!.
  - intros task_name Hnone. rewrite _resolve_task_unfold. simpl.
    by rewrite Hnone.
  - rewrite Hr. intros [= ->].
    by destruct Hspec as (? & ? & ? & ? & ? & _ & _ & _ & _ & _ & [=]).
  - intros name msg. rewrite Hr. intros [= ->].
    destruct Hspec as (before & name' & after & cause & msg' & Hitems
                       & Hbefore & Hname & Hcause & Hmsg & [= <- <-]).
    by exists before, after, cause.
Qed.

Lemma load_fails_on_first_bad_task_witness :
  ∃ before after cause,
    [("C", mk_TaskDefinition [_TaskCommand ["c"]]);
     ("A", mk_TaskDefinition [_TaskReference "B"]);
     ("B", mk_TaskDefinition [_TaskReference "A"])].*1
    = before ++ "A" :: after
    ∧ (∀ n, n ∈ before →
         ∃ t, _resolve_task
                (list_to_map
                   [("C", mk_TaskDefinition [_TaskCommand ["c"]]);
                    ("A", mk_TaskDefinition [_TaskReference "B"]);
                    ("B", mk_TaskDefinition [_TaskReference "A"])]) n None
              = Some (Return t))
    ∧ _resolve_task
        (list_to_map
           [("C", mk_TaskDefinition [_TaskCommand ["c"]]);
            ("A", mk_TaskDefinition [_TaskReference "B"]);
            ("B", mk_TaskDefinition [_TaskReference "A"])]) "A" None
      = Some (Raise cause)
    ∧ reference_error cause
    ∧ exn_msg cause
      = Some "task 'B' and 'A' introduce a circular dependency.".
Proof.
  apply (load_fails_on_first_bad_task
           [("C", mk_TaskDefinition [_TaskCommand ["c"]]);
            ("A", mk_TaskDefinition [_TaskReference "B"]);
            ("B", mk_TaskDefinition [_TaskReference "A"])]).
  vm_compute; reflexivity.
Defined.

(** X4. When the tasks load, the dict of resolved tasks has exactly the
    names of the graph, each with what [_resolve_task] gives for it. *)
Theorem loaded_tasks_are_the_resolved_ones items tasks name t :
  _resolve_all_tasks items = Some (Return tasks) →
  ((tasks !! name = Some t) ↔
   (name ∈ items.*1
    ∧ _resolve_task (list_to_map items) name None = Some (Return t))).
Proof.
  intros Hload.
  destruct (resolve_all_tasks_loop_spec (list_to_map items) items.*1 ∅)
    as (r & Hr & Hspec).
  { intros n. apply list_to_map_keys. }
  unfold _resolve_all_tasks in Hload. rewrite Hload in Hr.
  injection Hr as <-. destruct Hspec as [_ Hmap].
  rewrite Hmap. split; [|by left]. by intros [?|[_ ?]].
Qed.

Lemma loaded_tasks_are_the_resolved_ones_witness :
  (tasks_diamond !! "D" = Some (mkTask ["a1"; "a2"; "b"; "a1"; "a2"; "c"])) ↔
  ("D" ∈ items_diamond.*1
   ∧ _resolve_task (list_to_map items_diamond) "D" None
     = Some (Return (mkTask ["a1"; "a2"; "b"; "a1"; "a2"; "c"]))).
Proof.
  apply (loaded_tasks_are_the_resolved_ones items_diamond tasks_diamond "D").
  vm_compute; reflexivity.
Defined.

Lemma resolved_steps_expand graph task_name definition t :
  graph !! task_name = Some definition →
  _resolve_task graph task_name None = Some (Return t) →
  steps t = concat (expand graph <$> definition_steps definition)
  ∧ ∀ name, _TaskReference name ∈ definition_steps definition →
            ∃ d, _resolve_task graph name (Some [task_name]) = Some (Return d)
                 ∧ _resolve_task graph name None = Some (Return d).
Proof.
  intros Hdef Hres. rewrite (_resolve_task_known _ _ _ Hdef) in Hres.
  apply resolve_steps_Return in Hres as [-> Hrefs]. split.
  - simpl. f_equal.
    induction (definition_steps definition) as [|item rest IH]; [done|].
    simpl. f_equal.
    + destruct item as [cmd_steps|name]; [done|]. simpl.
      destruct (Hrefs name) as [d Hd]; [by left|].
      by rewrite Hd, (_resolve_task_top _ _ _ _ Hd).
    + apply IH. intros name Hin. apply Hrefs. by right.
  - intros name Hin. destruct (Hrefs name Hin) as [d Hd].
    exists d. split; [done|]. by eapply _resolve_task_top.
Qed.

(** X5. A task reached twice is expanded twice: when [D] depends on [B]
    and [C], which both start with a dependency on [A], the commands of
    [A] stand twice in the resolved [D], once before the commands of [B]
    and once before those of [C]. *)
Theorem diamond_expands_twice graph D B C A b c tD :
  graph !! D = Some (mk_TaskDefinition [_TaskReference B; _TaskReference C]) →
  graph !! B = Some (mk_TaskDefinition [_TaskReference A; _TaskCommand b]) →
  graph !! C = Some (mk_TaskDefinition [_TaskReference A; _TaskCommand c]) →
  _resolve_task graph D None = Some (Return tD) →
  ∃ tA, _resolve_task graph A None = Some (Return tA)
        ∧ steps tD = (steps tA ++ b) ++ (steps tA ++ c).
Proof.
  intros HD HB HC Hres.
  destruct (resolved_steps_expand _ _ _ _ HD Hres) as [HtD HrefsD].
  destruct (HrefsD B) as (tB & _ & HtB); [by left|].
  destruct (HrefsD C) as (tC & _ & HtC); [by right; left|].
  destruct (resolved_steps_expand _ _ _ _ HB HtB) as [HsB HrefsB].
  destruct (resolved_steps_expand _ _ _ _ HC HtC) as [HsC _].
  destruct (HrefsB A) as (tA & _ & HtA); [by left|].
  exists tA. split; [done|].
  rewrite HtD. simpl. rewrite HtB, HtC, HsB, HsC. simpl. rewrite HtA.
  by rewrite !app_nil_r.
Qed.

Lemma diamond_expands_twice_witness :
  ∃ tA, _resolve_task graph_diamond "A" None = Some (Return tA)
        ∧ steps (mkTask ["a1"; "a2"; "b"; "a1"; "a2"; "c"])
          = (steps tA ++ ["b"]) ++ (steps tA ++ ["c"]).
Proof.
  apply (diamond_expands_twice graph_diamond "D" "B" "C" "A" ["b"] ["c"]
           (mkTask ["a1"; "a2"; "b"; "a1"; "a2"; "c"]));
    vm_compute; reflexivity.
Defined.

(** X6. After a successful load the graph is closed: every dependency
    written in a task of the file is another task of the loaded dict,
    never the task itself and never a missing name. *)
Theorem loaded_graph_is_closed items tasks name definition dependency :
  _resolve_all_tasks items = Some (Return tasks) →
  (list_to_map items : gmap string _TaskDefinition) !! name = Some definition →
  _TaskReference dependency ∈ definition_steps definition →
  dependency ≠ name
  ∧ is_Some ((list_to_map items : gmap string _TaskDefinition) !! dependency)
  ∧ ∃ t, tasks !! dependency = Some t
         ∧ _resolve_task (list_to_map items) dependency None
           = Some (Return t).
Proof.
  intros Hload Hdef Hin.
  destruct (resolve_all_tasks_loop_spec (list_to_map items) items.*1 ∅)
    as (r & Hr & Hspec).
  { intros n. apply list_to_map_keys. }
  unfold _resolve_all_tasks in Hload. rewrite Hload in Hr.
  injection Hr as <-. destruct Hspec as [Hall Hmap].
  assert (name ∈ items.*1) as Hname.
  { apply elem_of_list_to_map_2 in Hdef.
    apply list_elem_of_fmap. by exists (name, definition). }
  destruct (Hall name Hname) as [t0 Ht0].
  destruct (resolved_steps_expand _ _ _ _ Hdef Ht0) as [_ Hrefs].
  destruct (Hrefs dependency Hin) as (d & Hunder & Htop).
  rewrite _resolve_task_unfold in Hunder. simpl in Hunder.
  case_bool_decide as Hself; [congruence|].
  destruct (list_to_map items !! dependency) as [definition'|] eqn:Hdep;
    [|congruence].
  split_and!.
  - intros ->. apply Hself. by left.
  - by eexists.
  - exists d. split; [|done]. apply Hmap. left. split; [|done].
    apply elem_of_list_to_map_2 in Hdep.
    apply list_elem_of_fmap. by exists (dependency, definition').
Qed.

Lemma loaded_graph_is_closed_witness :
  "B" ≠ "D"
  ∧ is_Some ((list_to_map items_diamond : gmap string _TaskDefinition) !! "B")
  ∧ ∃ t, tasks_diamond !! "B" = Some t
         ∧ _resolve_task (list_to_map items_diamond) "B" None
           = Some (Return t).
Proof.
  apply (loaded_graph_is_closed items_diamond tasks_diamond "D"
           (mk_TaskDefinition [_TaskReference "B"; _TaskReference "C"]) "B").
  - vm_compute; reflexivity.
  - vm_compute; reflexivity.
  - apply elem_of_cons; by left.
Defined.

(** * Properties of the task parsers *)

Lemma str_empty_false s : str_empty s = false ↔ s ≠ "".
Proof. by destruct s. Qed.

Lemma collect_steps_Ok type_error definition steps collected :
  collect_steps type_error definition steps = Ok collected →
  ∃ new, definition = RStr <$> new
         ∧ collected = steps ++ new
         ∧ Forall (fun s => s ≠ "") new.
Proof.
  revert steps. induction definition as [|item rest IH]; intros steps; simpl.
  - intros [= <-]. exists []. by rewrite app_nil_r.
  - destruct item as [step| | | |]; [|done..].
    destruct (str_empty step) eqn:Hstep; [done|].
    intros (new & -> & -> & Hnew)%IH. exists (step :: new).
    split_and!; [done|by rewrite <- app_assoc|].
    constructor; [by apply str_empty_false|done].
Qed.

Lemma collect_steps_strings type_error new steps :
  Forall (fun s => s ≠ "") new →
  collect_steps type_error (RStr <$> new) steps = Ok (steps ++ new).
Proof.
  intros Hnew. revert steps.
  induction Hnew as [|step new Hstep _ IH]; intros steps; simpl.
  - by rewrite app_nil_r.
  - apply str_empty_false in Hstep. rewrite Hstep, IH.
    by rewrite <- app_assoc.
Qed.

Lemma collect_steps_app type_error good rest steps :
  Forall (fun s => s ≠ "") good →
  collect_steps type_error ((RStr <$> good) ++ rest) steps
  = collect_steps type_error rest (steps ++ good).
Proof.
  intros Hgood. revert steps.
  induction Hgood as [|step good Hstep _ IH]; intros steps; simpl.
  - by rewrite app_nil_r.
  - apply str_empty_false in Hstep. rewrite Hstep, IH.
    by rewrite <- app_assoc.
Qed.

Lemma collect_deps_Ok dependencies steps collected :
  collect_deps dependencies steps = Ok collected →
  ∃ names, dependencies = RStr <$> names
           ∧ collected = steps ++ (_TaskReference <$> names).
Proof.
  revert steps. induction dependencies as [|item rest IH]; intros steps; simpl.
  - intros [= <-]. exists []. by rewrite app_nil_r.
  - destruct item as [dep| | | |]; [|done..].
    intros (names & -> & ->)%IH. exists (dep :: names).
    split; [done|]. by rewrite <- app_assoc.
Qed.

Lemma collect_deps_strings names steps :
  collect_deps (RStr <$> names) steps = Ok (steps ++ (_TaskReference <$> names)).
Proof.
  revert steps. induction names as [|dep names IH]; intros steps; simpl.
  - by rewrite app_nil_r.
  - rewrite IH. by rewrite <- app_assoc.
Qed.

Lemma commands_non_empty_snoc steps cmd_steps :
  commands_non_empty (mk_TaskDefinition steps) →
  Forall (fun s => s ≠ "") cmd_steps →
  commands_non_empty (mk_TaskDefinition (steps ++ [_TaskCommand cmd_steps])).
Proof.
  intros Hsteps Hcmd c s. simpl.
  intros [Hin|Hin%list_elem_of_singleton]%elem_of_app Hs.
  - by eapply Hsteps.
  - injection Hin as ->. rewrite Forall_forall in Hcmd. by apply Hcmd.
Qed.

Lemma commands_non_empty_refs steps names :
  commands_non_empty (mk_TaskDefinition steps) →
  commands_non_empty
    (mk_TaskDefinition (steps ++ (_TaskReference <$> names))).
Proof.
  intros Hsteps c s. simpl. intros [Hin|Hin]%elem_of_app Hs.
  - by eapply Hsteps.
  - by apply list_elem_of_fmap in Hin as (? & [=] & _).
Qed.

Lemma parse_dict_items_Ok items steps definition :
  parse_dict_items items steps = Ok definition →
  (commands_non_empty (mk_TaskDefinition steps) →
   commands_non_empty definition)
  ∧ ∀ key, key ∈ items.*1 → key = "cmd" ∨ key = "deps".
Proof.
  revert steps.
  induction items as [|[key value] rest IH]; intros steps; simpl.
  { intros [= <-]. split; [done|]. by intros ? ?%elem_of_nil. }
  destruct (decide (key = "cmd")) as [->|Hcmd].
  - destruct value as [v| |l| |]; [|done|..|done|done].
    + destruct (str_empty v) eqn:Hv; [done|].
      intros [Hne Hkeys]%IH. split.
      * intros Hsteps. apply Hne, commands_non_empty_snoc; [done|].
        constructor; [by apply str_empty_false|constructor].
      * intros k [->|Hk]%elem_of_cons; [by left|by apply Hkeys].
    + destruct (collect_steps _ l []) as [cmd|e] eqn:Hl; [|done].
      apply collect_steps_Ok in Hl as (new & _ & -> & Hnew).
      intros [Hne Hkeys]%IH. split.
      * intros Hsteps. by apply Hne, commands_non_empty_snoc.
      * intros k [->|Hk]%elem_of_cons; [by left|by apply Hkeys].
  - destruct (decide (key = "deps")) as [->|Hdeps]; [|done].
    destruct value as [| |dependencies| |]; [done|done| |done|done].
    destruct (collect_deps dependencies steps) as [steps'|e] eqn:Hd; [|done].
    apply collect_deps_Ok in Hd as (names & _ & ->).
    intros [Hne Hkeys]%IH. split.
    + intros Hsteps. by apply Hne, commands_non_empty_refs.
    + intros k [->|Hk]%elem_of_cons; [by right|by apply Hkeys].
Qed.

Lemma commands_non_empty_nil : commands_non_empty (mk_TaskDefinition []).
Proof. by intros c s ?%elem_of_nil. Qed.

(** Whatever its shape, a definition that parses holds no empty command. *)
Lemma _parse_task_definition_non_empty raw_definition definition :
  _parse_task_definition raw_definition = Ok definition →
  commands_non_empty definition.
Proof.
  destruct raw_definition as [s| |l|items|]; simpl; [|done| | |done].
  - unfold _parse_str_task_definition.
    destruct (str_empty s) eqn:Hs; [done|]. intros [= <-].
    apply (commands_non_empty_snoc []); [apply commands_non_empty_nil|].
    constructor; [by apply str_empty_false|constructor].
  - unfold _parse_list_task_definition.
    destruct (collect_steps _ l []) as [collected|e] eqn:Hl; [|done].
    apply collect_steps_Ok in Hl as (new & _ & -> & Hnew). intros [= <-].
    by apply (commands_non_empty_snoc []); [apply commands_non_empty_nil|].
  - intros [Hne _]%parse_dict_items_Ok.
    apply Hne, commands_non_empty_nil.
Qed.

(** The loop of [_parse_all_tasks_definitions]: the names in their order,
    each with its parsed definition, or the error of the first definition
    that does not parse, under the name of its task. *)
Lemma parse_all_tasks_loop_spec mapping tasks_definitions :
  match parse_all_tasks_loop mapping tasks_definitions with
  | Return items =>
      ∃ parsed,
        items = tasks_definitions ++ parsed
        ∧ Forall2 (fun entry item =>
                     item.1 = entry.1
                     ∧ _parse_task_definition entry.2 = Ok item.2)
                  mapping parsed
  | Raise e =>
      ∃ before task_name raw_definition after err,
        mapping = before ++ (task_name, raw_definition) :: after
        ∧ Forall (fun entry =>
                    ∃ d, _parse_task_definition entry.2 = Ok d) before
        ∧ _parse_task_definition raw_definition = Error err
        ∧ e = InvalidTaskError task_name (definition_error_msg err)
  end.
Proof.
  revert tasks_definitions.
  induction mapping as [|[task_name raw_definition] rest IH];
    intros tasks_definitions; simpl.
  { exists []. by rewrite app_nil_r. }
  destruct (_parse_task_definition raw_definition) as [definition|err] eqn:Hp.
  - specialize (IH (tasks_definitions ++ [(task_name, definition)])).
    destruct (parse_all_tasks_loop rest _) as [items|e].
    + destruct IH as (parsed & -> & Hparsed).
      exists ((task_name, definition) :: parsed).
      split; [by rewrite <- app_assoc|]. by constructor.
    + destruct IH as (before & n & r & after & err & -> & Hbefore & Hr & ->).
      exists ((task_name, raw_definition) :: before), n, r, after, err.
      split_and!; [done| |done..]. constructor; [by eexists|done].
  - exists [], task_name, raw_definition, rest, err. by split_and!.
Qed.

(** X7. Parsing keeps the names of the tasks and their order, and stops
    at the first definition that does not parse: it returns every name
    with its parsed definition, or raises [InvalidTaskError] with the name
    of the first task whose definition is invalid and the message of its
    error; the definitions after it are not looked at. *)
Theorem tasks_parse_in_order mapping :
  match _parse_all_tasks_definitions mapping with
  | Return items =>
      items.*1 = mapping.*1
      ∧ Forall2 (fun entry item =>
                   item.1 = entry.1
                   ∧ _parse_task_definition entry.2 = Ok item.2)
                mapping items
  | Raise e =>
      ∃ before task_name raw_definition after err,
        mapping = before ++ (task_name, raw_definition) :: after
        ∧ Forall (fun entry =>
                    ∃ d, _parse_task_definition entry.2 = Ok d) before
        ∧ _parse_task_definition raw_definition = Error err
        ∧ e = InvalidTaskError task_name (definition_error_msg err)
  end.
Proof.
  pose proof (parse_all_tasks_loop_spec mapping []) as Hspec.
  unfold _parse_all_tasks_definitions.
  destruct (parse_all_tasks_loop mapping []) as [items|e]; [|done].
  destruct Hspec as (parsed & -> & Hparsed). simpl. split; [|done].
  induction Hparsed as [|entry item mapping parsed [Hname _] _ IH]; [done|].
  rewrite !fmap_cons. by f_equal.
Qed.

(** X8. No command of a loaded task is empty: when the tasks of a
    mapping parse and resolve, every command string of every resolved
    task is a non-empty string. *)
Theorem loaded_commands_non_empty values tasks task_name t command :
  parse_tasks values = Some (Return tasks) →
  tasks !! task_name = Some t →
  command ∈ steps t →
  command ≠ "".
Proof.
  unfold parse_tasks. intros Hload Htask Hcommand.
  pose proof (parse_all_tasks_loop_spec values []) as Hspec.
  unfold _parse_all_tasks_definitions in Hload.
  destruct (parse_all_tasks_loop values []) as [items|e]; [|done].
  destruct Hspec as (parsed & -> & Hparsed). simpl in Hload.
  destruct (resolve_all_tasks_loop_spec (list_to_map parsed) parsed.*1 ∅)
    as (r & Hr & Hr').
  { intros n. apply list_to_map_keys. }
  unfold _resolve_all_tasks in Hload. rewrite Hload in Hr.
  injection Hr as <-. destruct Hr' as [_ Hmap].
  apply Hmap in Htask as [[_ Hres]|[_ ?]]; [|done].
  apply resolve_task_fuel_from_command in Hres.
  rewrite Forall_forall in Hres.
  destruct (Hres command Hcommand) as (n & d & cmd & Hd & Hcmd & Hs).
  apply elem_of_list_to_map_2 in Hd.
  assert (∃ raw_definition, _parse_task_definition raw_definition = Ok d)
    as [raw_definition Hraw].
  { clear -Hparsed Hd.
    induction Hparsed as [|entry item mapping parsed [_ Hitem] _ IH].
    - by apply elem_of_nil in Hd.
    - apply elem_of_cons in Hd as [<-|Hd]; [by exists entry.2|by apply IH]. }
  apply _parse_task_definition_non_empty in Hraw. by eapply Hraw.
Qed.

Lemma loaded_commands_non_empty_witness : "x" ≠ "".
Proof.
  apply (loaded_commands_non_empty mapping_orders tasks_orders "first"
           (mkTask ["a1"; "a2"; "x"]) "x").
  - vm_compute; reflexivity.
  - vm_compute; reflexivity.
  - apply elem_of_cons; right. apply elem_of_cons; right.
    apply elem_of_cons; by left.
Defined.

(** X9. In a task written as a dict the steps follow the order of the
    keys: with [deps] before [cmd] the dependencies come before the
    command, with [cmd] before [deps] they come after it. *)
Theorem dict_key_order_is_step_order dependencies command :
  command ≠ "" →
  _parse_task_definition
    (RDict [("deps", RList (RStr <$> dependencies)); ("cmd", RStr command)])
  = Ok (mk_TaskDefinition
          ((_TaskReference <$> dependencies) ++ [_TaskCommand [command]]))
  ∧ _parse_task_definition
      (RDict [("cmd", RStr command); ("deps", RList (RStr <$> dependencies))])
    = Ok (mk_TaskDefinition
            (_TaskCommand [command] :: (_TaskReference <$> dependencies))).
Proof.
  intros Hcommand%str_empty_false. split.
  - change (match collect_deps (RStr <$> dependencies) [] with
            | Ok steps' => parse_dict_items [("cmd", RStr command)] steps'
            | Error e => Error e
            end = Ok (mk_TaskDefinition
                        ((_TaskReference <$> dependencies)
                         ++ [_TaskCommand [command]]))).
    rewrite collect_deps_strings. simpl. by rewrite Hcommand.
  - change ((if str_empty command then Error EmptyTaskStepError
             else parse_dict_items
                    [("deps", RList (RStr <$> dependencies))]
                    ([] ++ [_TaskCommand [command]]))
            = Ok (mk_TaskDefinition
                    (_TaskCommand [command]
                     :: (_TaskReference <$> dependencies)))).
    rewrite Hcommand.
    change (match collect_deps (RStr <$> dependencies)
                    [_TaskCommand [command]] with
            | Ok steps' => parse_dict_items [] steps'
            | Error e => Error e
            end = Ok (mk_TaskDefinition
                        (_TaskCommand [command]
                         :: (_TaskReference <$> dependencies)))).
    by rewrite collect_deps_strings.
Qed.

Lemma dict_key_order_is_step_order_witness :
  _parse_task_definition
    (RDict [("deps", RList (RStr <$> ["A"; "B"])); ("cmd", RStr "x")])
  = Ok (mk_TaskDefinition
          ((_TaskReference <$> ["A"; "B"]) ++ [_TaskCommand ["x"]]))
  ∧ _parse_task_definition
      (RDict [("cmd", RStr "x"); ("deps", RList (RStr <$> ["A"; "B"]))])
    = Ok (mk_TaskDefinition
            (_TaskCommand ["x"] :: (_TaskReference <$> ["A"; "B"]))).
Proof. apply (dict_key_order_is_step_order ["A"; "B"] "x"). discriminate. Defined.

(** X10. In a list of steps the first item that is not a non-empty
    string decides the error, whatever follows it: an empty string raises
    [EmptyTaskStepError], a value that is not a string raises
    [InvalidTaskStepTypeError] with the name of its type. *)
Theorem first_bad_step_decides good rest :
  Forall (fun s => s ≠ "") good →
  _parse_task_definition (RList ((RStr <$> good) ++ RStr "" :: rest))
  = Error EmptyTaskStepError
  ∧ ∀ bad, (∀ s, bad ≠ RStr s) →
      _parse_task_definition (RList ((RStr <$> good) ++ bad :: rest))
      = Error (InvalidTaskStepTypeError (type_name bad)).
Proof.
  intros Hgood. simpl. unfold _parse_list_task_definition. split.
  - by rewrite collect_steps_app.
  - intros bad Hbad. rewrite collect_steps_app by done.
    destruct bad as [s| | | |]; [by destruct (Hbad s)|done..].
Qed.

Lemma first_bad_step_decides_witness :
  _parse_task_definition
    (RList ((RStr <$> ["a"; "b"]) ++ RStr "" :: [ROther "int"]))
  = Error EmptyTaskStepError
  ∧ ∀ bad, (∀ s, bad ≠ RStr s) →
      _parse_task_definition
        (RList ((RStr <$> ["a"; "b"]) ++ bad :: [ROther "int"]))
      = Error (InvalidTaskStepTypeError (type_name bad)).
Proof.
  apply (first_bad_step_decides ["a"; "b"] [ROther "int"]).
  repeat constructor; discriminate.
Defined.

(** X11. A task written as a list of non-empty strings (an empty list
    too) parses to one command with these strings and no dependency, and,
    in whatever graph it stands, resolves to exactly these strings. *)
Theorem list_definition_resolves_to_itself commands :
  Forall (fun s => s ≠ "") commands →
  _parse_task_definition (RList (RStr <$> commands))
  = Ok (mk_TaskDefinition [_TaskCommand commands])
  ∧ ∀ graph task_name,
      graph !! task_name = Some (mk_TaskDefinition [_TaskCommand commands]) →
      _resolve_task graph task_name None = Some (Return (mkTask commands)).
Proof.
  intros Hcommands. split.
  - simpl. unfold _parse_list_task_definition.
    by rewrite collect_steps_strings.
  - intros graph task_name Hdef.
    by rewrite (_resolve_task_known _ _ _ Hdef).
Qed.

Lemma list_definition_resolves_to_itself_witness :
  _parse_task_definition (RList (RStr <$> ["a1"; "a2"]))
  = Ok (mk_TaskDefinition [_TaskCommand ["a1"; "a2"]])
  ∧ ∀ graph task_name,
      graph !! task_name = Some (mk_TaskDefinition [_TaskCommand ["a1"; "a2"]]) →
      _resolve_task graph task_name None = Some (Return (mkTask ["a1"; "a2"])).
Proof.
  apply (list_definition_resolves_to_itself ["a1"; "a2"]).
  repeat constructor; discriminate.
Defined.

(** X12. A task written as a dict is accepted only with the keys [cmd]
    and [deps]: any other key, wherever it stands, makes the parser
    fail. *)
Theorem dict_definition_keys items definition key :
  _parse_task_definition (RDict items) = Ok definition →
  key ∈ items.*1 →
  key = "cmd" ∨ key = "deps".
Proof.
  simpl. unfold _parse_dict_task_definition.
  intros [_ Hkeys]%parse_dict_items_Ok. apply Hkeys.
Qed.

Lemma dict_definition_keys_witness : "deps" = "cmd" ∨ "deps" = "deps".
Proof.
  apply (dict_definition_keys
           [("deps", RList [RStr "second"]); ("cmd", RStr "x")]
           (mk_TaskDefinition [_TaskReference "second"; _TaskCommand ["x"]])
           "deps").
  - vm_compute; reflexivity.
  - apply elem_of_cons; by left.
Defined.

(** * Properties of the parser of variables *)

Lemma find_unknown_key_app before key after :
  Forall (fun k => unknown_variable_key k = false) before →
  unknown_variable_key key = true →
  List.find unknown_variable_key (before ++ key :: after) = Some key.
Proof.
  intros Hbefore Hkey.
  induction Hbefore as [|k before Hk _ IH]; simpl.
  - by rewrite Hkey.
  - by rewrite Hk.
Qed.

(** X13. A variable written as a string is the same as a variable
    written as a dict with that string as [default]: it is not secret,
    reads neither the environment nor a file, and without override its
    value is the string, in every environment. *)
Theorem string_variable_is_default var_name s w dry_run :
  parse_variable_definition var_name (RStr s)
  = parse_variable_definition var_name (RDict [("default", RStr s)])
  ∧ ∃ variables v,
      parse_variables [(var_name, RStr s)] = Some (Ok variables)
      ∧ variables !! var_name = Some v
      ∧ secret v = false
      ∧ Variable_get w v None dry_run = Return s.
Proof.
  split; [reflexivity|].
  exists (_resolve_all_variables
            (list_to_map
               [(var_name, mk_VariableDefinition (Some s) None None false)])),
         (mkVariable (getter_factory var_name None None (Some s)) false).
  split; [reflexivity|].
  rewrite _resolve_all_variables_lookup, list_to_map_cons, lookup_insert_eq.
  split_and!; [done..|].
  unfold Variable_get. simpl. by rewrite andb_false_r.
Qed.

(** X14. The keys of a variable written as a dict are checked before
    its values: the first key, in the order of the file, that is not
    [default], [env], [file] or [secret] raises [InvalidVariableError]
    with the name of the variable and that key, whatever the values. *)
Theorem unknown_variable_key_rejected var_name before key value after :
  Forall (fun k => unknown_variable_key k = false) before.*1 →
  unknown_variable_key key = true →
  parse_variable_definition var_name (RDict (before ++ (key, value) :: after))
  = Some (Error (InvalidVariableError var_name
       ("wrong key '" +:+ key
        +:+ "': variable can be defined as dict with keys: ['default', 'env', 'file', 'secret']."))).
Proof.
  intros Hbefore Hkey. simpl.
  rewrite fmap_app, fmap_cons. simpl.
  by rewrite (find_unknown_key_app _ key _ Hbefore Hkey).
Qed.

Lemma unknown_variable_key_rejected_witness :
  parse_variable_definition "test"
    (RDict ([("default", RStr "d")]
            ++ ("invalid-key", ROther "int") :: [("file", ROther "int")]))
  = Some (Error (InvalidVariableError "test"
       ("wrong key '" +:+ "invalid-key"
        +:+ "': variable can be defined as dict with keys: ['default', 'env', 'file', 'secret']."))).
Proof.
  apply (unknown_variable_key_rejected "test" [("default", RStr "d")]
           "invalid-key" (ROther "int") [("file", ROther "int")]).
  - repeat constructor.
  - reflexivity.
Defined.

Lemma parse_all_variables_loop_spec mapping variables :
  match parse_all_variables_loop mapping variables with
  | Some (Ok items) =>
      ∃ items0 parsed,
        variables = Some items0
        ∧ items = items0 ++ parsed
        ∧ Forall2 (fun entry item =>
                     item.1 = entry.1
                     ∧ parse_variable_definition entry.1 entry.2
                       = Some (Ok item.2))
                  mapping parsed
  | Some (Error e) =>
      ∃ before var_name raw_definition after,
        mapping = before ++ (var_name, raw_definition) :: after
        ∧ Forall (fun entry =>
                    ∀ e', parse_variable_definition entry.1 entry.2
                          ≠ Some (Error e')) before
        ∧ parse_variable_definition var_name raw_definition = Some (Error e)
  | None =>
      variables = None
      ∨ ∃ entry, entry ∈ mapping
                 ∧ parse_variable_definition entry.1 entry.2 = None
  end.
Proof.
  revert variables.
  induction mapping as [|[var_name raw_definition] rest IH];
    intros variables; simpl.
  { destruct variables as [items0|]; simpl; [|by left].
    exists items0, []. by rewrite app_nil_r. }
  destruct (parse_variable_definition var_name raw_definition)
    as [[definition|e]|] eqn:Hp.
  - specialize (IH ((fun l => l ++ [(var_name, definition)]) <$> variables)).
    destruct (parse_all_variables_loop rest _) as [[items|e]|].
    + destruct IH as (items1 & parsed & Hitems1 & -> & Hparsed).
      destruct variables as [items0|]; [|done].
      injection Hitems1 as <-.
      exists items0, ((var_name, definition) :: parsed).
      split_and!; [done|by rewrite <- app_assoc|by constructor].
    + destruct IH as (before & n & r & after & -> & Hbefore & Hr).
      exists ((var_name, raw_definition) :: before), n, r, after.
      split_and!; [done| |done]. constructor; [|done].
      simpl. intros e'. by rewrite Hp.
    + destruct IH as [Hnone|(entry & Hentry & Hnone)].
      * left. by destruct variables.
      * right. exists entry. split; [by right|done].
  - exists [], var_name, raw_definition, rest. by split_and!.
  - specialize (IH None).
    destruct (parse_all_variables_loop rest None) as [[items|e]|].
    + by destruct IH as (? & ? & [=] & _).
    + destruct IH as (before & n & r & after & -> & Hbefore & Hr).
      exists ((var_name, raw_definition) :: before), n, r, after.
      split_and!; [done| |done]. constructor; [|done].
      simpl. intros e'. by rewrite Hp.
    + right. exists (var_name, raw_definition). split; [by left|done].
Qed.

(** X15. Parsing the variables keeps their names and their order and
    stops at the first definition that raises: it returns every name with
    its definition, or the exception of the first variable, in the order
    of the file, whose definition raises one. *)
Theorem variables_parse_in_order mapping :
  match _parse_all_variables_definitions mapping with
  | Some (Ok items) =>
      items.*1 = mapping.*1
      ∧ Forall2 (fun entry item =>
                   item.1 = entry.1
                   ∧ parse_variable_definition entry.1 entry.2
                     = Some (Ok item.2))
                mapping items
  | Some (Error e) =>
      ∃ before var_name raw_definition after,
        mapping = before ++ (var_name, raw_definition) :: after
        ∧ Forall (fun entry =>
                    ∀ e', parse_variable_definition entry.1 entry.2
                          ≠ Some (Error e')) before
        ∧ parse_variable_definition var_name raw_definition = Some (Error e)
  | None =>
      ∃ entry, entry ∈ mapping
               ∧ parse_variable_definition entry.1 entry.2 = None
  end.
Proof.
  pose proof (parse_all_variables_loop_spec mapping (Some [])) as Hspec.
  unfold _parse_all_variables_definitions.
  destruct (parse_all_variables_loop mapping (Some [])) as [[items|e]|];
    [|done|by destruct Hspec].
  destruct Hspec as (items0 & parsed & [= <-] & -> & Hparsed). simpl.
  split; [|done].
  induction Hparsed as [|entry item mapping parsed [Hname _] _ IH]; [done|].
  rewrite !fmap_cons. by f_equal.
Qed.

(** X16. A file that names a path which exists but is not a file does
    not fall back on the default: when the environment gives no value and
    the path of [file] is a directory, the getter raises the error of
    [read_text], whether a default is defined or not. *)
Theorem file_that_is_a_directory_raises name env file default w :
  (∀ e, env = Some e → environ w !! e = None) →
  filesystem w !! file = Some Directory →
  getter_factory name env (Some file) default w None
  = Raise (IsADirectoryError file).
Proof.
  intros Henv Hfile. unfold getter_factory, path_exists, read_text.
  rewrite Hfile. rewrite bool_decide_eq_true_2 by by eexists.
  destruct env as [e|]; [|done]. by rewrite (Henv e).
Qed.

Lemma file_that_is_a_directory_raises_witness :
  getter_factory "foo" (Some "E") (Some "F") (Some "d")
                 (mkWorld ∅ {[ "F" := Directory ]}) None
  = Raise (IsADirectoryError "F").
Proof.
  apply (file_that_is_a_directory_raises "foo" (Some "E") "F" (Some "d")
           (mkWorld ∅ {[ "F" := Directory ]})).
  - intros e [= <-]. vm_compute; reflexivity.
  - vm_compute; reflexivity.
Defined.

(** * Properties of the document parser *)

(** X17. A document without a [tool] table, or whose [tool] table has
    no [project-tasks] table, loads as a config with no task and no
    variable. *)
Theorem document_without_section_is_empty document :
  dict_get "tool" document = None
  ∨ (∃ tool, dict_get "tool" document = Some (RDict tool)
             ∧ dict_get "project-tasks" tool = None) →
  parse_pyproject_document document = Some (Ok (mkConfig ∅ ∅)).
Proof.
  unfold parse_pyproject_document, section_get.
  intros [->|(tool & -> & ->)]; reflexivity.
Qed.

Lemma document_without_section_is_empty_witness :
  parse_pyproject_document [("project", RDict [("name", RStr "demo")])]
  = Some (Ok (mkConfig ∅ ∅)).
Proof.
  apply (document_without_section_is_empty
           [("project", RDict [("name", RStr "demo")])]).
  left. reflexivity.
Defined.

(** X18. From the file to the commands: a task written with [deps] on
    a task [A] and then [cmd] loads as the commands of [A] followed by
    its own command, also when [A] is defined after it in the file. *)
Theorem dependency_then_command_loads A T commands command :
  A ≠ T →
  Forall (fun s => s ≠ "") commands →
  command ≠ "" →
  ∃ tasks,
    parse_tasks
      [(T, RDict [("deps", RList [RStr A]); ("cmd", RList [RStr command])]);
       (A, RList (RStr <$> commands))]
    = Some (Return tasks)
    ∧ tasks !! A = Some (mkTask commands)
    ∧ tasks !! T = Some (mkTask (commands ++ [command])).
Proof.
  intros Hne Hcommands Hcommand.
  set (dT := mk_TaskDefinition [_TaskReference A; _TaskCommand [command]]).
  set (dA := mk_TaskDefinition [_TaskCommand commands]).
  assert (parse_tasks
            [(T, RDict [("deps", RList [RStr A]);
                        ("cmd", RList [RStr command])]);
             (A, RList (RStr <$> commands))]
          = _resolve_all_tasks [(T, dT); (A, dA)]) as ->.
  { unfold parse_tasks, _parse_all_tasks_definitions.
    destruct command as [|c command]; [done|]. simpl.
    unfold _parse_list_task_definition.
    by rewrite collect_steps_strings. }
  set (graph := list_to_map [(T, dT); (A, dA)] : gmap string _TaskDefinition).
  assert (graph !! T = Some dT) as HT.
  { unfold graph. by rewrite list_to_map_cons, lookup_insert_eq. }
  assert (graph !! A = Some dA) as HA.
  { unfold graph.
    rewrite list_to_map_cons, lookup_insert_ne by done.
    by rewrite list_to_map_cons, lookup_insert_eq. }
  assert (∀ parents, A ∉ parents →
            _resolve_task graph A (Some parents)
            = Some (Return (mkTask commands))) as HresA.
  { intros parents Hnotin. rewrite _resolve_task_unfold. simpl.
    rewrite bool_decide_eq_false_2 by done. by rewrite HA. }
  assert (_resolve_task graph A None = Some (Return (mkTask commands)))
    as HtopA.
  { rewrite _resolve_task_None. apply HresA, not_elem_of_nil. }
  assert (_resolve_task graph T None
          = Some (Return (mkTask (commands ++ [command])))) as HtopT.
  { rewrite (_resolve_task_known _ _ _ HT). simpl.
    rewrite HresA; [done|].
    intros [?|?%elem_of_nil]%elem_of_cons; done. }
  destruct (resolve_all_tasks_loop_spec graph [T; A] ∅) as (r & Hr & Hspec).
  { intros n [->|[->|?%elem_of_nil]%elem_of_cons]%elem_of_cons;
      [by exists dT|by exists dA|done]. }
  unfold _resolve_all_tasks. fold graph.
  change ([(T, dT); (A, dA)].*1) with [T; A]. rewrite Hr.
  destruct r as [tasks|e].
  - destruct Hspec as [_ Hmap]. exists tasks. split_and!; [done|..].
    + apply Hmap. left. split; [|done]. by right; left.
    + apply Hmap. left. split; [|done]. by left.
  - destruct Hspec as (before & n & after & cause & msg & Hnames & _ & Hn & _).
    assert (n ∈ [T; A]) as Hin.
    { rewrite Hnames. apply elem_of_app. right. by left. }
    apply elem_of_cons in Hin as [->|[->|?%elem_of_nil]%elem_of_cons].
    + by rewrite HtopT in Hn.
    + by rewrite HtopA in Hn.
    + done.
Qed.

Lemma dependency_then_command_loads_witness :
  ∃ tasks,
    parse_tasks
      [("T", RDict [("deps", RList [RStr "A"]); ("cmd", RList [RStr "x"])]);
       ("A", RList (RStr <$> ["a1"; "a2"]))]
    = Some (Return tasks)
    ∧ tasks !! "A" = Some (mkTask ["a1"; "a2"])
    ∧ tasks !! "T" = Some (mkTask (["a1"; "a2"] ++ ["x"])).
Proof.
  apply (dependency_then_command_loads "A" "T" ["a1"; "a2"] "x").
  - discriminate.
  - repeat constructor; discriminate.
  - discriminate.
Defined.

(** * Further properties of the substitution *)

Lemma replace_variables_app value names1 names2 step :
  replace_variables value (names1 ++ names2) step
  = (replace_variables value names1 step ≫= replace_variables value names2).
Proof.
  revert step. induction names1 as [|n names1 IH]; intros step; [done|].
  rewrite <- app_comm_cons, !replace_variables_cons.
  destruct (value n) as [v|e]; [|done].
  rewrite !outcome_bind_Return. apply IH.
Qed.

Lemma get_task_loop_app value steps1 steps2 resolved_steps :
  get_task_loop value (steps1 ++ steps2) resolved_steps
  = (get_task_loop value steps1 resolved_steps ≫= fun t =>
       get_task_loop value steps2 (steps t)).
Proof.
  revert resolved_steps.
  induction steps1 as [|step steps1 IH]; intros resolved_steps; [done|].
  rewrite <- app_comm_cons, !get_task_loop_cons.
  destruct (replace_variables value (findall step) step) as [step'|e]; [|done].
  rewrite !outcome_bind_Return. apply IH.
Qed.

Lemma render_text s : render [Lit s] = s.
Proof. simpl. apply str_app_nil_r. Qed.

Lemma fill_text val s : fill val [Lit s] = s.
Proof. simpl. apply str_app_nil_r. Qed.

Lemma fmap_render_text (l : list string) :
  render <$> ((fun s => [Lit s]) <$> l) = l.
Proof.
  induction l as [|s l IH]; [done|].
  by rewrite !fmap_cons, IH, render_text.
Qed.

Lemma fmap_fill_text val (l : list string) :
  fill val <$> ((fun s => [Lit s]) <$> l) = l.
Proof.
  induction l as [|s l IH]; [done|].
  by rewrite !fmap_cons, IH, fill_text.
Qed.

(** X19. A task whose commands hold no dollar sign goes through
    [get_task] unchanged, and no variable is looked up: it does so in a
    config that defines none. *)
Theorem plain_commands_unchanged w config task_name override_variables task :
  tasks config !! task_name = Some task →
  Forall (fun s => dollar_free s = true) (steps task) →
  Config_get_task w config task_name override_variables = Return task
  ∧ Config_get_task w (mkConfig (tasks config) ∅) task_name override_variables
    = Return task.
Proof.
  intros Htask Hplain.
  assert (∀ config', tasks config' !! task_name = Some task →
            Config_get_task w config' task_name override_variables
            = Return task) as Hany.
  { intros config' Htask'.
    rewrite (Config_get_task_tokens w config' task_name override_variables task
               ((fun s => [Lit s]) <$> steps task) (fun _ => "")).
    - rewrite fmap_fill_text. by destruct task.
    - done.
    - by rewrite fmap_render_text.
    - apply Forall_fmap. eapply Forall_impl; [apply Hplain|].
      intros s Hs. by repeat constructor.
    - intros toks name (s & -> & _)%list_elem_of_fmap Hname.
      by apply elem_of_nil in Hname. }
  split; by apply Hany.
Qed.

Lemma plain_commands_unchanged_witness :
  Config_get_task world_empty config_two_tasks "test-1" ∅
  = Return (mkTask ["do test-1"])
  ∧ Config_get_task world_empty (mkConfig (tasks config_two_tasks) ∅)
      "test-1" ∅
    = Return (mkTask ["do test-1"]).
Proof.
  apply (plain_commands_unchanged world_empty config_two_tasks "test-1" ∅
           (mkTask ["do test-1"])).
  - vm_compute; reflexivity.
  - repeat constructor.
Defined.

Lemma replace_variables_returns value names step :
  (∀ n, n ∈ names → ∃ v, value n = Return v) →
  ∃ step', replace_variables value names step = Return step'.
Proof.
  revert step. induction names as [|n names IH]; intros step Hvalues.
  - by exists step.
  - destruct (Hvalues n) as [v Hv]; [by left|].
    rewrite replace_variables_cons, Hv, outcome_bind_Return.
    apply IH. intros n' Hn'. apply Hvalues. by right.
Qed.

Lemma get_task_loop_returns value task_steps resolved_steps :
  (∀ n step, step ∈ task_steps → n ∈ findall step →
             ∃ v, value n = Return v) →
  ∃ t, get_task_loop value task_steps resolved_steps = Return t.
Proof.
  revert resolved_steps.
  induction task_steps as [|step rest IH]; intros resolved_steps Hvalues.
  - by eexists.
  - destruct (replace_variables_returns value (findall step) step)
      as [step' Hstep'].
    { intros n Hn. apply (Hvalues n step); [by left|done]. }
    rewrite get_task_loop_cons, Hstep', outcome_bind_Return.
    apply IH. intros n s Hs Hn. apply (Hvalues n s); [by right|done].
Qed.

(** X20. A placeholder whose variable is not defined makes [get_task]
    raise [KeyError] with the name of the variable: the first such name,
    in the order of the steps and, within a step, of the placeholders
    that the pattern finds in the step as written, when the variables of
    the placeholders before it give a value.  The text around the
    placeholders and what the values hold do not matter. *)
Theorem undefined_variable_raises_KeyError
    w config task_name override_variables task before step rest
    defined name later :
  tasks config !! task_name = Some task →
  steps task = before ++ step :: rest →
  findall step = defined ++ name :: later →
  (∀ n, (n ∈ defined ∨ ∃ earlier, earlier ∈ before ∧ n ∈ findall earlier) →
     ∃ v, variable_value w config override_variables n = Return v) →
  variables config !! name = None →
  Config_get_task w config task_name override_variables
  = Raise (KeyError name).
Proof.
  intros Htask Hsteps Hnames Hvalues Hname.
  assert (variable_value w config override_variables name
          = Raise (KeyError name)) as Hraise.
  { unfold variable_value, getitem. by rewrite Hname. }
  unfold Config_get_task, getitem. rewrite Htask, outcome_bind_Return, Hsteps.
  rewrite get_task_loop_app.
  destruct (get_task_loop_returns
              (variable_value w config override_variables) before [])
    as [t Ht].
  { intros n earlier Hearlier Hn. apply Hvalues. right. by exists earlier. }
  rewrite Ht, outcome_bind_Return, get_task_loop_cons, Hnames.
  rewrite replace_variables_app.
  destruct (replace_variables_returns
              (variable_value w config override_variables) defined step)
    as [step' Hstep'].
  { intros n Hn. apply Hvalues. by left. }
  by rewrite Hstep', outcome_bind_Return, replace_variables_cons, Hraise.
Qed.

Lemma undefined_variable_raises_KeyError_witness :
  Config_get_task world_empty config_undefined_later "deploy" ∅
  = Raise (KeyError "host").
Proof.
  apply (undefined_variable_raises_KeyError world_empty config_undefined_later
           "deploy" ∅
           (mkTask ["echo $HOME ${var.user}";
                    "scp out ${var.user}@${var.host}:$HOME"])
           ["echo $HOME ${var.user}"]
           "scp out ${var.user}@${var.host}:$HOME" [] ["user"] "host" []).
  - vm_compute; reflexivity.
  - reflexivity.
  - vm_compute; reflexivity.
  - intros n Hn. exists "me".
    assert (n = "user") as ->.
    { destruct Hn as [Hn|(earlier & Hearlier & Hn)].
      - by apply list_elem_of_singleton in Hn.
      - apply list_elem_of_singleton in Hearlier as ->.
        change (findall "echo $HOME ${var.user}") with ["user"] in Hn.
        by apply list_elem_of_singleton in Hn. }
    vm_compute; reflexivity.
  - vm_compute; reflexivity.
Defined.

(** * Further properties of the execution service *)

Section ServiceFurther.
Context {E : Type} `{!Executor E}.
Variable repr : string → string.

Lemma quiet_no_error dry_run l message :
  Forall (quiet dry_run) l → WriteError message ∉ l.
Proof.
  intros Hl Hin. rewrite Forall_forall in Hl.
  apply Hl in Hin. destruct dry_run; by destruct Hin as [? [=]].
Qed.

Lemma quiet_no_write l content :
  Forall (quiet false) l → Write content ∉ l.
Proof.
  intros Hl Hin. rewrite Forall_forall in Hl.
  apply Hl in Hin. by destruct Hin as [? [=]].
Qed.

(** The loop over the requested tasks, when the request is a dry run. *)
Lemma run_tasks_dry_run_frame config request names st result st' :
  request_dry_run request = true →
  run_tasks config request names st = (result, st') →
  executor st' = executor st ∧ world st' = world st
  ∧ ∃ commands,
      events st' = events st ++ (Write <$> commands)
      ∧ (result = Return 0%Z ∨ ∃ e, result = Raise e).
Proof.
  intros Hdry. revert st.
  induction names as [|task_name names IH]; intros st; simpl.
  { intros [= <- <-]. split_and!; [done..|].
    exists []. split; [by rewrite app_nil_r|by left]. }
  destruct (Config_get_task _ _ _ _) as [task|e] eqn:Htask.
  2: { intros [= <- <-]. split_and!; [done..|].
       exists []. split; [by rewrite app_nil_r|right; by exists e]. }
  rewrite Hdry, run_commands_dry_run. intros Hrest.
  apply IH in Hrest as (He & Hw & commands & Hev & Hres). simpl in *.
  split_and!; [done..|].
  exists (steps task ++ commands).
  split; [by rewrite Hev, fmap_app, app_assoc|done].
Qed.

(** The loop over the requested tasks, when it ends with an exception. *)
Lemma run_tasks_raise config request names st e st' :
  run_tasks config request names st = (Raise e, st') →
  ∃ before bad after done,
    names = before ++ bad :: after
    ∧ Config_get_task (world st') config bad (request_variables request)
      = Raise e
    ∧ Forall2 (fun name task =>
                 ∃ w, Config_get_task w config name
                        (request_variables request) = Return task)
              before done
    ∧ events st'
      = events st
        ++ (went (request_dry_run request) <$> concat (steps <$> done)).
Proof.
  revert st. induction names as [|task_name names IH]; intros st; simpl.
  { intros [=]. }
  destruct (Config_get_task _ _ _ _) as [task|e0] eqn:Htask.
  2: { intros [= <- <-]. exists [], task_name, names, [].
       split_and!; [done|done|constructor|by rewrite app_nil_r]. }
  assert (∀ st1,
    events st1
    = events st ++ (went (request_dry_run request) <$> steps task) →
    run_tasks config request names st1 = (Raise e, st') →
    ∃ before bad after done,
      task_name :: names = before ++ bad :: after
      ∧ Config_get_task (world st') config bad (request_variables request)
        = Raise e
      ∧ Forall2 (fun name task =>
                   ∃ w, Config_get_task w config name
                          (request_variables request) = Return task)
                before done
      ∧ events st'
        = events st
          ++ (went (request_dry_run request) <$> concat (steps <$> done)))
    as Hnext.
  { intros st1 Hev1 Hrest.
    apply IH in Hrest
      as (before & bad & after & done & -> & Hbad & Hdone & Hev).
    exists (task_name :: before), bad, after, (task :: done).
    split_and!; [done|done| |].
    - constructor; [by exists (world st)|done].
    - rewrite Hev, Hev1. simpl. by rewrite fmap_app, app_assoc. }
  destruct (request_dry_run request) eqn:Hdry.
  { rewrite run_commands_dry_run. by apply Hnext. }
  destruct (run_commands _ _ _ _) as [[code|] st1] eqn:Hrun; [intros [=]|].
  apply run_commands_run in Hrun. by apply Hnext.
Qed.

(** X21. A dry run never runs a command: whatever the config and the
    request, [execute] with [dry_run] leaves the executor and the files
    and environment as they were.  All it does is print commands, and
    then return 0 or let the exception of [get_task] through, or write
    one error line for unknown tasks and return 1. *)
Theorem dry_run_never_runs config request st result st' :
  request_dry_run request = true →
  Service_execute repr config request st = (result, st') →
  executor st' = executor st
  ∧ world st' = world st
  ∧ ((∃ commands,
        events st' = events st ++ (Write <$> commands)
        ∧ (result = Return 0%Z ∨ ∃ e, result = Raise e))
     ∨ (∃ message,
          events st' = events st ++ [WriteError message]
          ∧ result = Return 1%Z))
  ∧ (∀ new cmd code, events st' = events st ++ new → Run cmd code ∉ new).
Proof.
  intros Hdry Hexec.
  assert (executor st' = executor st ∧ world st' = world st
          ∧ ((∃ commands,
                events st' = events st ++ (Write <$> commands)
                ∧ (result = Return 0%Z ∨ ∃ e, result = Raise e))
             ∨ (∃ message,
                  events st' = events st ++ [WriteError message]
                  ∧ result = Return 1%Z))) as (He & Hw & Hcases).
  { unfold Service_execute in Hexec.
    destruct (unknown_tasks config request) as [|first others].
    - apply run_tasks_dry_run_frame in Hexec
        as (He & Hw & commands & Hev & Hres); [|done].
      split_and!; [done..|]. left. by exists commands.
    - injection Hexec as <- <-. split_and!; [done..|]. right.
      by eexists. }
  split_and!; [done..|].
  intros new cmd code Hnew Hin.
  destruct Hcases as [(commands & Hev & _)|(message & Hev & _)];
    rewrite Hev in Hnew; apply app_inv_head in Hnew as <-.
  - apply list_elem_of_fmap in Hin as (command & [=] & _).
  - apply elem_of_cons in Hin as [[=]|Hin]. by apply elem_of_nil in Hin.
Qed.

(** X22. The exit code and the error line go together: [execute] writes
    an error line exactly when it returns a code other than 0, the line
    is then the last thing it does, and it is the only one.  A run that
    returns 0, and a run that ends with an exception, wrote none. *)
Theorem error_line_iff_failure config request st result st' new :
  Service_execute repr config request st = (result, st') →
  events st' = events st ++ new →
  ((∃ message, WriteError message ∈ new)
   ↔ (∃ code, result = Return code ∧ code ≠ 0%Z))
  ∧ (∀ message, WriteError message ∈ new →
       ∃ before,
         new = before ++ [WriteError message]
         ∧ ∀ other, WriteError other ∉ before).
Proof.
  intros Hexec Hev.
  unfold Service_execute in Hexec.
  destruct (unknown_tasks config request) as [|first others].
  - apply run_tasks_spec in Hexec as (new' & Hev' & Hcases).
    rewrite Hev in Hev'. apply app_inv_head in Hev' as <-.
    destruct Hcases as [[Hquiet Hres]
      |(code & before & name & after & w & task & done & cmd & rest & ran
        & -> & Hcode & Hdry & Hnames & Hget & Hsteps & -> & Hran)].
    + split.
      * split.
        -- intros [m Hin]. by apply (quiet_no_error _ _ _ Hquiet) in Hin.
        -- intros (code & -> & Hcode).
           destruct Hres as [[= ->]|[e [=]]]. done.
      * intros m Hin. by apply (quiet_no_error _ _ _ Hquiet) in Hin.
    + assert (∀ m, WriteError m
                   ∉ ran ++ (succeeded <$> done) ++ [Run cmd code])
        as Hnone.
      { intros m Hin. apply elem_of_app in Hin as [Hin|Hin].
        { by apply (quiet_no_error _ _ _ Hran) in Hin. }
        apply elem_of_app in Hin as [Hin|Hin].
        { by apply (quiet_no_error _ _ _ (quiet_succeeded done)) in Hin. }
        apply elem_of_cons in Hin as [[=]|Hin]. by apply elem_of_nil in Hin. }
      assert (ran ++ (succeeded <$> done)
                ++ [Run cmd code; WriteError (failed_message name code)]
              = (ran ++ (succeeded <$> done) ++ [Run cmd code])
                  ++ [WriteError (failed_message name code)]) as Hsplit.
      { by rewrite <- !app_assoc. }
      split.
      * split; [intros _; by exists code|]. intros _.
        exists (failed_message name code). rewrite Hsplit.
        apply elem_of_app. right. by left.
      * intros m Hin. rewrite Hsplit in Hin |- *.
        apply elem_of_app in Hin as [Hin|Hin]; [by apply Hnone in Hin|].
        apply elem_of_cons in Hin as [[= ->]|Hin];
          [|by apply elem_of_nil in Hin].
        by eexists.
  - injection Hexec as <- <-. simpl in Hev.
    apply app_inv_head in Hev as <-. split.
    + split; [intros _; by exists 1%Z|]. intros _. eexists. by left.
    + intros m Hin.
      apply elem_of_cons in Hin as [[= ->]|Hin]; [|by apply elem_of_nil in Hin].
      exists []. split; [done|]. intros other Hother.
      by apply elem_of_nil in Hother.
Qed.

(** X23. An exception of [execute] is the exception of [get_task] for
    one of the requested tasks, and nothing is undone: the tasks
    requested before it all went through [get_task], and their commands
    were printed, or run with exit code 0, in order, before the
    exception.  The check of the task names at the start does not look
    at the variables. *)
Theorem exception_after_earlier_tasks config request st e st' :
  Service_execute repr config request st = (Raise e, st') →
  ∃ before bad after done,
    request_tasks request = before ++ bad :: after
    ∧ Config_get_task (world st') config bad (request_variables request)
      = Raise e
    ∧ Forall2 (fun name task =>
                 ∃ w, Config_get_task w config name
                        (request_variables request) = Return task)
              before done
    ∧ events st'
      = events st
        ++ (went (request_dry_run request) <$> concat (steps <$> done)).
Proof.
  unfold Service_execute.
  destruct (unknown_tasks config request) as [|first others].
  - apply run_tasks_raise.
  - intros [=].
Qed.

(** X24. A run that is not a dry run prints no command: all [execute]
    does then is run commands and, at most once, write an error line. *)
Theorem real_run_prints_nothing config request st result st' new content :
  request_dry_run request = false →
  Service_execute repr config request st = (result, st') →
  events st' = events st ++ new →
  Write content ∉ new.
Proof.
  intros Hdry Hexec Hev Hin.
  unfold Service_execute in Hexec.
  destruct (unknown_tasks config request) as [|first others].
  - apply run_tasks_spec in Hexec as (new' & Hev' & Hcases).
    rewrite Hev in Hev'. apply app_inv_head in Hev' as <-.
    rewrite Hdry in Hcases.
    destruct Hcases as [[Hquiet _]
      |(code & before & name & after & w & task & done & cmd & rest & ran
        & _ & _ & _ & _ & _ & _ & -> & Hran)].
    + by apply (quiet_no_write _ _ Hquiet) in Hin.
    + apply elem_of_app in Hin as [Hin|Hin];
        [by apply (quiet_no_write _ _ Hran) in Hin|].
      apply elem_of_app in Hin as [Hin|Hin];
        [by apply (quiet_no_write _ _ (quiet_succeeded done)) in Hin|].
      apply elem_of_cons in Hin as [[=]|Hin].
      apply elem_of_cons in Hin as [[=]|Hin]. by apply elem_of_nil in Hin.
  - injection Hexec as <- <-. simpl in Hev.
    apply app_inv_head in Hev as <-.
    apply elem_of_cons in Hin as [[=]|Hin]. by apply elem_of_nil in Hin.
Qed.
End ServiceFurther.

Lemma dry_run_never_runs_witness :
  let request := mkRequest ["build"; "deploy"] ∅ true in
  let st := stub_state 0 in
  let st' := mkState (mkErrorStub [] 0) world_empty
               [Write "make"; Write "make install"] in
  let result : outcome Z := Raise (KeyError "host") in
  executor st' = executor st
  ∧ world st' = world st
  ∧ ((∃ commands,
        events st' = events st ++ (Write <$> commands)
        ∧ (result = Return 0%Z ∨ ∃ e, result = Raise e))
     ∨ (∃ message,
          events st' = events st ++ [WriteError message]
          ∧ result = Return 1%Z))
  ∧ (∀ new cmd code, events st' = events st ++ new → Run cmd code ∉ new).
Proof.
  apply (dry_run_never_runs plain_repr config_undefined
           (mkRequest ["build"; "deploy"] ∅ true) (stub_state 0)).
  - reflexivity.
  - vm_compute; reflexivity.
Defined.

Lemma error_line_iff_failure_witness :
  let new := [Run "do test-1" 0%Z; Run "do test-2" 1%Z;
              WriteError "task: error: task test-2 failed with exit code 1"] in
  ((∃ message, WriteError message ∈ new)
   ↔ (∃ code, Return 1%Z = Return code ∧ code ≠ 0%Z))
  ∧ (∀ message, WriteError message ∈ new →
       ∃ before,
         new = before ++ [WriteError message]
         ∧ ∀ other, WriteError other ∉ before).
Proof.
  apply (error_line_iff_failure plain_repr config_two_tasks
           (mkRequest ["test-1"; "test-2"] ∅ false) (stub_state 1)
           (Return 1%Z)
           (mkState (mkErrorStub ["do test-1"; "do test-2"] 1) world_empty
              [Run "do test-1" 0; Run "do test-2" 1;
               WriteError "task: error: task test-2 failed with exit code 1"])).
  - vm_compute; reflexivity.
  - reflexivity.
Defined.

Lemma exception_after_earlier_tasks_witness :
  let request := mkRequest ["build"; "deploy"] ∅ false in
  let st := stub_state 2 in
  let st' := mkState (mkErrorStub ["make"; "make install"] 2) world_empty
               [Run "make" 0%Z; Run "make install" 0%Z] in
  ∃ before bad after done,
    request_tasks request = before ++ bad :: after
    ∧ Config_get_task (world st') config_undefined bad
        (request_variables request)
      = Raise (KeyError "host")
    ∧ Forall2 (fun name task =>
                 ∃ w, Config_get_task w config_undefined name
                        (request_variables request) = Return task)
              before done
    ∧ events st'
      = events st
        ++ (went (request_dry_run request) <$> concat (steps <$> done)).
Proof.
  apply (exception_after_earlier_tasks plain_repr config_undefined
           (mkRequest ["build"; "deploy"] ∅ false) (stub_state 2)).
  vm_compute; reflexivity.
Defined.

Lemma real_run_prints_nothing_witness :
  Write "do test-1"
  ∉ [Run "do test-1" 0%Z; Run "do test-2" 1%Z;
     WriteError "task: error: task test-2 failed with exit code 1"].
Proof.
  apply (real_run_prints_nothing plain_repr config_two_tasks
           (mkRequest ["test-1"; "test-2"] ∅ false) (stub_state 1)
           (Return 1%Z)
           (mkState (mkErrorStub ["do test-1"; "do test-2"] 1) world_empty
              [Run "do test-1" 0; Run "do test-2" 1;
               WriteError "task: error: task test-2 failed with exit code 1"])).
  - reflexivity.
  - vm_compute; reflexivity.
  - reflexivity.
Defined.

(** * Properties of the command line parser *)

Lemma strip_prefix_inv p s r : strip_prefix p s = Some r → s = p +:+ r.
Proof.
  revert s. induction p as [|a p IH]; intros s; simpl.
  - by intros [= ->].
  - destruct s as [|b s]; [done|].
    destruct (Ascii.eqb_spec a b) as [->|]; [|done].
    intros Hs. rewrite str_app_cons. f_equal. by apply IH.
Qed.

Lemma startswith_var_arg x : startswith "--var." ("--var." +:+ x) = true.
Proof. reflexivity. Qed.

Lemma startswith_dashes_var_arg x : startswith "--" ("--var." +:+ x) = true.
Proof. reflexivity. Qed.

Lemma str_drop_var_arg x : str_drop 6 ("--var." +:+ x) = x.
Proof. reflexivity. Qed.

Lemma str_in_var_arg x : str_in "=" ("--var." +:+ x) = str_in "=" x.
Proof. reflexivity. Qed.

Lemma startswith_var arg :
  startswith "--var." arg = true → arg = "--var." +:+ str_drop 6 arg.
Proof.
  unfold startswith.
  destruct (strip_prefix "--var." arg) as [r|] eqn:Hr; [|done].
  intros _. apply strip_prefix_inv in Hr as ->.
  by rewrite str_drop_var_arg.
Qed.

Lemma startswith_var_dashes arg :
  startswith "--var." arg = true → startswith "--" arg = true.
Proof.
  intros Hvar. rewrite (startswith_var _ Hvar).
  apply startswith_dashes_var_arg.
Qed.

Lemma str_in_app c s1 s2 :
  str_in c (s1 +:+ s2) = str_in c s1 || str_in c s2.
Proof.
  induction s1 as [|a s1 IH]; [done|].
  rewrite str_app_cons. simpl. by destruct (Ascii.eqb a c).
Qed.

Lemma split_once_in c s :
  str_in c s = true → ∃ name value, split_once c s = (name, Some value).
Proof.
  induction s as [|a s IH]; simpl; [done|].
  destruct (Ascii.eqb a c); [by eexists _, _|].
  intros (name & value & ->)%IH. by eexists _, _.
Qed.

Lemma split_once_app c name value :
  str_in c name = false →
  split_once c (name +:+ String c value) = (name, Some value).
Proof.
  induction name as [|a name IH].
  - intros _. change (EmptyString +:+ String c value) with (String c value).
    simpl. by rewrite Ascii.eqb_refl.
  - intros Hin. rewrite str_app_cons. simpl in Hin |- *.
    destruct (Ascii.eqb a c); [done|]. by rewrite IH.
Qed.

Lemma pending_argument_dashes st :
  Forall (fun a => startswith "--" a = true) (pending_argument st).
Proof.
  unfold pending_argument. destruct (truthy (pending_variable st)); by constructor.
Qed.

Lemma all_unrecognized_app st :
  all_unrecognized st = unrecognized_arguments st ++ pending_argument st.
Proof.
  unfold all_unrecognized, pending_argument.
  destruct (truthy (pending_variable st)); [done|by rewrite app_nil_r].
Qed.

Lemma truthy_drop arg :
  startswith "--var." arg = true →
  match truthy (Some (str_drop 6 arg)) with
  | Some pending => "--var." +:+ pending = arg
  | None => True
  end.
Proof.
  intros Hvar. pose proof (startswith_var _ Hvar) as Harg.
  destruct (str_drop 6 arg) as [|a d]; [done|]. by simpl.
Qed.

(** One turn of the loop: it never fails, a new task is the argument and
    does not start with two dashes, and what is unrecognized or pending
    afterwards was pending before or is the argument. *)
Lemma parse_arg_spec st arg :
  ∃ st1 new_tasks new_unrecognized,
    parse_arg st arg = Ok st1
    ∧ parsed_tasks st1 = parsed_tasks st ++ new_tasks
    ∧ sublist new_tasks [arg]
    ∧ Forall (fun a => startswith "--" a = false) new_tasks
    ∧ unrecognized_arguments st1
      = unrecognized_arguments st ++ new_unrecognized
    ∧ sublist (new_unrecognized ++ pending_argument st1)
              (pending_argument st ++ [arg])
    ∧ Forall (fun a => startswith "--" a = true) new_unrecognized.
Proof.
  unfold parse_arg, pending_argument.
  destruct (startswith "--var." arg) eqn:Hvar;
    destruct (truthy (pending_variable st)) as [pending|] eqn:Hpending.
  - eexists _, [], ["--var." +:+ pending; arg]. split; [reflexivity|].
    cbn [parsed_tasks unrecognized_arguments pending_variable truthy].
    split_and!; [by rewrite app_nil_r|apply sublist_nil_l|constructor
                |done|done|].
    repeat constructor. by apply startswith_var_dashes.
  - destruct (str_in "=" arg) eqn:Hequal.
    + rewrite (startswith_var _ Hvar), str_in_var_arg in Hequal.
      apply split_once_in in Hequal as (name & value & ->).
      eexists _, [], []. split; [reflexivity|].
      cbn [parsed_tasks unrecognized_arguments pending_variable].
      rewrite Hpending.
      split_and!; [by rewrite app_nil_r|apply sublist_nil_l|constructor
                  |by rewrite app_nil_r|apply sublist_nil_l|constructor].
    + eexists _, [], []. split; [reflexivity|].
      cbn [parsed_tasks unrecognized_arguments pending_variable].
      pose proof (truthy_drop _ Hvar) as Hdrop.
      split_and!; [by rewrite app_nil_r|apply sublist_nil_l|constructor
                  |by rewrite app_nil_r| |constructor].
      destruct (truthy (Some (str_drop 6 arg))) as [pending|];
        [by rewrite Hdrop|apply sublist_nil_l].
  - eexists _, [], []. split; [reflexivity|].
    cbn [parsed_tasks unrecognized_arguments pending_variable truthy].
    split_and!; [by rewrite app_nil_r|apply sublist_nil_l|constructor
                |by rewrite app_nil_r|apply sublist_nil_l|constructor].
  - destruct (startswith "--" arg) eqn:Hdashes.
    + eexists _, [], [arg]. split; [reflexivity|].
      cbn [parsed_tasks unrecognized_arguments pending_variable].
      rewrite Hpending.
      split_and!; [by rewrite app_nil_r|apply sublist_nil_l|constructor
                  |done|done|by repeat constructor].
    + eexists _, [arg], []. split; [reflexivity|].
      cbn [parsed_tasks unrecognized_arguments pending_variable].
      rewrite Hpending.
      split_and!; [done|done|by repeat constructor
                  |by rewrite app_nil_r|apply sublist_nil_l|constructor].
Qed.

(** The loop: the same over all of [remaining]. *)
Lemma parse_remaining_spec remaining st :
  ∃ st' new_tasks new_unrecognized,
    parse_remaining remaining st = Ok st'
    ∧ parsed_tasks st' = parsed_tasks st ++ new_tasks
    ∧ sublist new_tasks remaining
    ∧ Forall (fun a => startswith "--" a = false) new_tasks
    ∧ all_unrecognized st' = unrecognized_arguments st ++ new_unrecognized
    ∧ sublist new_unrecognized (pending_argument st ++ remaining)
    ∧ Forall (fun a => startswith "--" a = true) new_unrecognized.
Proof.
  revert st. induction remaining as [|arg rest IH]; intros st.
  - exists st, [], (pending_argument st). simpl.
    split_and!; [done|by rewrite app_nil_r|done|constructor
                |apply all_unrecognized_app|by rewrite app_nil_r
                |apply pending_argument_dashes].
  - destruct (parse_arg_spec st arg)
      as (st1 & t1 & u1 & Harg & Ht1 & Hs1 & Hf1 & Hu1 & Hsu1 & Hfu1).
    destruct (IH st1)
      as (st' & t2 & u2 & Hrest & Ht2 & Hs2 & Hf2 & Hu2 & Hsu2 & Hfu2).
    exists st', (t1 ++ t2), (u1 ++ u2). simpl. rewrite Harg.
    split_and!.
    + done.
    + by rewrite Ht2, Ht1, app_assoc.
    + by apply (sublist_app t1 [arg] t2 rest).
    + by apply Forall_app.
    + by rewrite Hu2, Hu1, app_assoc.
    + transitivity (u1 ++ pending_argument st1 ++ rest).
      * by apply sublist_app.
      * rewrite app_assoc.
        change (arg :: rest) with ([arg] ++ rest). rewrite app_assoc.
        by apply sublist_app.
    + by apply Forall_app.
Qed.

Lemma parse_remaining_app before after st :
  parse_remaining (before ++ after) st
  = match parse_remaining before st with
    | Ok st' => parse_remaining after st'
    | Error e => Error e
    end.
Proof.
  revert st. induction before as [|arg before IH]; intros st; simpl; [done|].
  by destruct (parse_arg st arg).
Qed.

Lemma parse_arg_same st1 st2 arg :
  same_but_pending st1 st2 →
  ∃ st1' st2',
    parse_arg st1 arg = Ok st1' ∧ parse_arg st2 arg = Ok st2'
    ∧ same_but_pending st1' st2'.
Proof.
  intros (Htasks & Hvariables & Hunrecognized & Hpending).
  destruct (parse_arg_spec st1 arg) as (st1' & _ & _ & Hst1 & _).
  destruct (parse_arg_spec st2 arg) as (st2' & _ & _ & Hst2 & _).
  exists st1', st2'. split_and!; [done..|].
  revert Hst1 Hst2. unfold parse_arg.
  rewrite Htasks, Hvariables, Hunrecognized, Hpending.
  destruct (startswith "--var." arg);
    destruct (truthy (pending_variable st2)) as [pending|] eqn:Hp2.
  - by intros [= <-] [= <-].
  - destruct (str_in "=" arg).
    + destruct (split_once "=" (str_drop 6 arg)) as [name [value|]];
        [|done].
      intros [= <-] [= <-]. unfold same_but_pending.
      cbn [parsed_tasks parsed_variables unrecognized_arguments
           pending_variable].
      by rewrite Hpending, Hp2.
    + by intros [= <-] [= <-].
  - by intros [= <-] [= <-].
  - destruct (startswith "--" arg); intros [= <-] [= <-];
      unfold same_but_pending;
      cbn [parsed_tasks parsed_variables unrecognized_arguments
           pending_variable];
      by rewrite Hpending, Hp2.
Qed.

Lemma parse_remaining_same remaining st1 st2 :
  same_but_pending st1 st2 →
  ∃ st1' st2',
    parse_remaining remaining st1 = Ok st1'
    ∧ parse_remaining remaining st2 = Ok st2'
    ∧ same_but_pending st1' st2'.
Proof.
  revert st1 st2. induction remaining as [|arg rest IH]; intros st1 st2 Hsame.
  - by exists st1, st2.
  - destruct (parse_arg_same st1 st2 arg Hsame)
      as (st1' & st2' & Hst1 & Hst2 & Hsame').
    simpl. rewrite Hst1, Hst2. by apply IH.
Qed.

(** The loop on the arguments of a command line written as items. *)
Lemma parse_remaining_items items st :
  truthy (pending_variable st) = None →
  Forall (fun item => item_ok item = true) items →
  ∃ st',
    parse_remaining (concat (encode <$> items)) st = Ok st'
    ∧ parsed_tasks st' = parsed_tasks st ++ requested_tasks items
    ∧ parsed_variables st' = apply_overrides items (parsed_variables st)
    ∧ unrecognized_arguments st' = unrecognized_arguments st
    ∧ truthy (pending_variable st') = None.
Proof.
  intros Hpending Hitems. revert st Hpending.
  induction Hitems as [|item items Hitem _ IH]; intros st Hpending.
  { exists st. simpl. by rewrite app_nil_r. }
  destruct item as [name|name value|name value]; simpl in Hitem.
  - apply negb_true_iff in Hitem.
    assert (startswith "--var." name = false) as Hvar.
    { destruct (startswith "--var." name) eqn:Hvar; [|done].
      apply startswith_var_dashes in Hvar. congruence. }
    destruct (IH (mkParseState (parsed_tasks st ++ [name])
                    (parsed_variables st) (unrecognized_arguments st)
                    (pending_variable st)) Hpending)
      as (st' & Hrest & Htasks & Hvariables & Hunrecognized & Hpending').
    exists st'. cbn [fmap list_fmap encode concat app parse_remaining].
    unfold parse_arg at 1. rewrite Hvar, Hpending, Hitem, Hrest.
    split_and!; [done| |done..].
    rewrite Htasks. cbn [parsed_tasks]. by rewrite <- app_assoc.
  - apply negb_true_iff in Hitem.
    destruct (IH (mkParseState (parsed_tasks st)
                    (<[name := value]> (parsed_variables st))
                    (unrecognized_arguments st)
                    (pending_variable st)) Hpending)
      as (st' & Hrest & Htasks & Hvariables & Hunrecognized & Hpending').
    exists st'. cbn [fmap list_fmap encode concat app parse_remaining].
    unfold parse_arg at 1.
    rewrite startswith_var_arg, Hpending, str_in_var_arg, str_in_app.
    change (str_in "=" ("=" +:+ value)) with true. rewrite orb_true_r.
    rewrite str_drop_var_arg.
    change ("=" +:+ value) with (String "=" value).
    rewrite (split_once_app _ _ _ Hitem), Hrest.
    by split_and!.
  - apply andb_true_iff in Hitem as [Hitem Hvalue].
    apply andb_true_iff in Hitem as [Hname Hequal].
    apply negb_true_iff in Hvalue, Hname, Hequal.
    destruct name as [|a name]; [done|].
    destruct (IH (mkParseState (parsed_tasks st)
                    (<[String a name := value]> (parsed_variables st))
                    (unrecognized_arguments st) None) eq_refl)
      as (st' & Hrest & Htasks & Hvariables & Hunrecognized & Hpending').
    exists st'. cbn [fmap list_fmap encode concat app parse_remaining].
    unfold parse_arg at 1.
    rewrite startswith_var_arg, Hpending, str_in_var_arg, Hequal.
    rewrite str_drop_var_arg.
    unfold parse_arg at 1. rewrite Hvalue.
    cbn [pending_variable truthy parsed_tasks parsed_variables
         unrecognized_arguments].
    rewrite Hrest. by split_and!.
Qed.

Lemma parse_arg_empty_name st :
  truthy (pending_variable st) = None →
  parse_arg st "--var."
  = Ok (mkParseState (parsed_tasks st) (parsed_variables st)
          (unrecognized_arguments st) (Some EmptyString)).
Proof. intros Hpending. unfold parse_arg. by rewrite Hpending. Qed.

Section ParseArgsProperties.
Variable usage : string.
Variable format_help : string.

Lemma parse_args_end_same ns st1 st2 :
  same_but_pending st1 st2 →
  parse_args_end usage format_help ns st1
  = parse_args_end usage format_help ns st2.
Proof.
  intros (Htasks & Hvariables & Hunrecognized & Hpending).
  unfold parse_args_end, all_unrecognized.
  by rewrite Htasks, Hvariables, Hunrecognized, Hpending.
Qed.

(** X25. [parse_args] ends in one of three ways, whatever the arguments:
    it returns; or it raises [Exit] with code 0 and the help text, which
    needs [--help]; or it raises [Exit] with code 1 and a message made of
    the usage line and one more line.  The unpacking of [name, value]
    from [arg[6:].split("=", 1)] never fails, although the equal sign is
    looked for in the whole argument. *)
Theorem parse_args_returns_or_exits ns remaining :
  (∃ r, parse_args usage format_help ns remaining = Ok r)
  ∨ (parse_args usage format_help ns remaining
     = Error (CliExit (mkExit 0 format_help))
     ∧ ns_help ns = true)
  ∨ (∃ line,
       parse_args usage format_help ns remaining
       = Error (CliExit (mkExit 1 (usage +:+ newline +:+ line)))).
Proof.
  unfold parse_args.
  destruct (parse_remaining_spec remaining parse_start)
    as (st & _ & _ & -> & _).
  unfold parse_args_end.
  destruct (all_unrecognized st) as [|first others].
  - destruct (ns_help ns) eqn:Hhelp; [right; left; done|].
    destruct (bool_decide _ && negb _); [right; right; by eexists|].
    destruct (ns_list ns && _); [right; right; by eexists|].
    left. by eexists.
  - right; right. by eexists.
Qed.

(** X26. What [parse_args] returns is well formed: [--help] was not
    given, the file, the list flag and the dry-run flag are those of the
    options, the tasks are arguments of the command line, in their
    order, none of which starts with two dashes; with [--list] the
    request is empty and not a dry run, and without it there is at least
    one task. *)
Theorem parsed_request_is_well_formed
    ns remaining file should_list request :
  parse_args usage format_help ns remaining
  = Ok (file, should_list, request) →
  ns_help ns = false
  ∧ file = ns_file ns
  ∧ should_list = ns_list ns
  ∧ request_dry_run request = ns_dry_run ns
  ∧ sublist (request_tasks request) remaining
  ∧ Forall (fun name => startswith "--" name = false) (request_tasks request)
  ∧ (should_list = true → request = mkRequest [] ∅ false)
  ∧ (should_list = false → request_tasks request ≠ []).
Proof.
  unfold parse_args.
  destruct (parse_remaining_spec remaining parse_start)
    as (st & new_tasks & _ & -> & Htasks & Hsub & Hdashes & _).
  cbn [parse_start parsed_tasks app] in Htasks.
  rewrite <- Htasks in Hsub, Hdashes. clear Htasks.
  unfold parse_args_end.
  destruct (all_unrecognized st) as [|first others]; [|done].
  destruct (ns_help ns); [done|].
  case_bool_decide as Hempty; destruct (ns_list ns); cbn [andb negb orb];
    try done.
  - destruct (ns_dry_run ns); cbn [orb]; [done|].
    case_bool_decide as Hvariables; cbn [negb]; [|done].
    intros [= <- <- <-]. cbn [request_tasks request_dry_run].
    rewrite Hempty, Hvariables.
    split_and!; [done|done|done|done|apply sublist_nil_l|constructor
                |done|done].
  - by destruct (ns_dry_run ns).
  - intros [= <- <- <-]. cbn [request_tasks request_dry_run].
    by split_and!.
Qed.

(** X27. With [--help], [parse_args] shows the help unless an argument
    is unrecognized: then it raises [Exit] with code 1 and names the
    unrecognized arguments, which are arguments of the command line, in
    their order, each starting with two dashes.  It never returns, and
    never complains of a missing task or of [--list]. *)
Theorem help_yields_to_unrecognized ns remaining :
  ns_help ns = true →
  parse_args usage format_help ns remaining
  = Error (CliExit (mkExit 0 format_help))
  ∨ (∃ unrecognized,
       unrecognized ≠ []
       ∧ sublist unrecognized remaining
       ∧ Forall (fun arg => startswith "--" arg = true) unrecognized
       ∧ parse_args usage format_help ns remaining
         = Error (CliExit (Exit_lines 1
                    [usage; unrecognized_message unrecognized]))).
Proof.
  intros Hhelp. unfold parse_args.
  destruct (parse_remaining_spec remaining parse_start)
    as (st & _ & unrecognized & -> & _ & _ & _ & Hall & Hsub & Hdashes).
  cbn [parse_start unrecognized_arguments app] in Hall.
  change (pending_argument parse_start ++ remaining) with remaining in Hsub.
  unfold parse_args_end. rewrite Hall, Hhelp.
  destruct unrecognized as [|first others]; [by left|].
  right. by exists (first :: others).
Qed.

(** X28. The arguments that argparse leaves over are read back as
    written.  Let them be task names and overrides, an override in one
    argument or in two, where no task name starts with two dashes, no
    variable name holds an equal sign and, in the form with two
    arguments, the name is not empty and the value does not start with
    [--var.]; let there be at least one task name, and neither [--help]
    nor [--list] among the options.  Then [parse_args] returns the task
    names in their order and the overrides, a later override of a name
    replacing an earlier one.  Both forms of an override give the
    same. *)
Theorem command_line_round_trip ns items :
  Forall (fun item => item_ok item = true) items →
  ns_help ns = false →
  ns_list ns = false →
  requested_tasks items ≠ [] →
  parse_args usage format_help ns (concat (encode <$> items))
  = Ok (ns_file ns, false,
        mkRequest (requested_tasks items) (apply_overrides items ∅)
                  (ns_dry_run ns)).
Proof.
  intros Hitems Hhelp Hlist Htasks.
  destruct (parse_remaining_items items parse_start eq_refl Hitems)
    as (st & Hloop & Hparsed & Hvariables & Hunrecognized & Hpending).
  cbn [parse_start parsed_tasks parsed_variables unrecognized_arguments app]
    in Hparsed, Hvariables, Hunrecognized.
  unfold parse_args. rewrite Hloop.
  unfold parse_args_end, all_unrecognized.
  rewrite Hpending, Hunrecognized, Hhelp, Hlist, Hparsed, Hvariables.
  by rewrite bool_decide_eq_false_2.
Qed.

(** X29. The argument [--var.], a variable with an empty name and no
    value, is dropped without a word when no variable is waiting for its
    value: the empty name it leaves pending counts as none, both for the
    next argument and after the loop. *)
Theorem empty_variable_name_ignored ns before after st :
  parse_remaining before parse_start = Ok st →
  truthy (pending_variable st) = None →
  parse_args usage format_help ns (before ++ "--var." :: after)
  = parse_args usage format_help ns (before ++ after).
Proof.
  intros Hbefore Hpending. unfold parse_args.
  rewrite !parse_remaining_app, Hbefore. cbn [parse_remaining].
  rewrite (parse_arg_empty_name _ Hpending).
  destruct (parse_remaining_same after
              (mkParseState (parsed_tasks st) (parsed_variables st)
                 (unrecognized_arguments st) (Some EmptyString)) st)
    as (st1 & st2 & -> & -> & Hsame).
  { unfold same_but_pending.
    cbn [parsed_tasks parsed_variables unrecognized_arguments
         pending_variable].
    by rewrite Hpending. }
  by apply parse_args_end_same.
Qed.
End ParseArgsProperties.

Lemma parsed_request_is_well_formed_witness :
  let remaining := ["task_A"; "--var.foo"; "bar"; "task_B"] in
  let request := mkRequest ["task_A"; "task_B"] {[ "foo" := "bar" ]} true in
  ns_help ns_dry = false
  ∧ "pyproject.toml" = ns_file ns_dry
  ∧ false = ns_list ns_dry
  ∧ request_dry_run request = ns_dry_run ns_dry
  ∧ sublist (request_tasks request) remaining
  ∧ Forall (fun name => startswith "--" name = false) (request_tasks request)
  ∧ (false = true → request = mkRequest [] ∅ false)
  ∧ (false = false → request_tasks request ≠ []).
Proof.
  apply (parsed_request_is_well_formed usage_line help_text ns_dry
           ["task_A"; "--var.foo"; "bar"; "task_B"] "pyproject.toml" false
           (mkRequest ["task_A"; "task_B"] {[ "foo" := "bar" ]} true)).
  vm_compute; reflexivity.
Defined.

Lemma help_yields_to_unrecognized_witness :
  let remaining := ["--invalid"; "test"] in
  parse_args usage_line help_text ns_help_given remaining
  = Error (CliExit (mkExit 0 help_text))
  ∨ (∃ unrecognized,
       unrecognized ≠ []
       ∧ sublist unrecognized remaining
       ∧ Forall (fun arg => startswith "--" arg = true) unrecognized
       ∧ parse_args usage_line help_text ns_help_given remaining
         = Error (CliExit (Exit_lines 1
                    [usage_line; unrecognized_message unrecognized]))).
Proof.
  apply (help_yields_to_unrecognized usage_line help_text ns_help_given
           ["--invalid"; "test"]).
  reflexivity.
Defined.

Lemma command_line_round_trip_witness :
  let items := [TaskArg "task_A"; OverrideSplit "foo" "bar";
                TaskArg "task_B"; OverrideArg "other" "baz"] in
  parse_args usage_line help_text ns_dry (concat (encode <$> items))
  = Ok (ns_file ns_dry, false,
        mkRequest (requested_tasks items) (apply_overrides items ∅)
                  (ns_dry_run ns_dry)).
Proof.
  apply (command_line_round_trip usage_line help_text ns_dry
           [TaskArg "task_A"; OverrideSplit "foo" "bar";
            TaskArg "task_B"; OverrideArg "other" "baz"]).
  - repeat constructor.
  - reflexivity.
  - reflexivity.
  - discriminate.
Defined.

Lemma empty_variable_name_ignored_witness :
  parse_args usage_line help_text ns_dry (["task_A"] ++ "--var." :: ["task_B"])
  = parse_args usage_line help_text ns_dry (["task_A"] ++ ["task_B"]).
Proof.
  apply (empty_variable_name_ignored usage_line help_text ns_dry
           ["task_A"] ["task_B"] (mkParseState ["task_A"] ∅ [] None)).
  - reflexivity.
  - reflexivity.
Defined.

(** The command lines of the parser tests. *)
Example parse_args_examples :
  parse_args usage_line help_text ns_help_given ["--invalid"; "test"]
  = Error (CliExit (mkExit 1
             (usage_line +:+ newline
              +:+ "task: error: unrecognized arguments: --invalid")))
  ∧ parse_args usage_line help_text ns_dry ["--var.foo"; "--var.bar=baz"]
    = Error (CliExit (mkExit 1
               (usage_line +:+ newline
                +:+ "task: error: unrecognized arguments: --var.foo --var.bar=baz")))
  ∧ parse_args usage_line help_text ns_dry
      ["task_A"; "--var.foo"; "bar"; "task_B"; "--var.other"; "baz"]
    = Ok ("pyproject.toml", false,
          mkRequest ["task_A"; "task_B"]
            (<["other" := "baz"]> (<["foo" := "bar"]> ∅)) true).
Proof. split_and!; vm_compute; reflexivity. Qed.
